(** * slant-config.c: the configuration parser of slant

    A shallow embedding of [slant-config.c] (token cursor, statement
    parsers, box sub-parsers, command-line fallback) and the properties
    of the configuration language that the parser is specified to have.

    Conventions of the embedding:
    - [struct parse]: [fn], [toks] and [toksz] are written once, before the
      parse starts, so the token array is a parameter of the parser
      ([toksz] is its length); [pos] is mutable state.
    - [struct config] and what hangs off it is mutable state.
    - [warnx]/[warn] append a diagnostic to a log (the model of stderr).
    - functions returning [int] used as a truth value return [bool]
      ([true] for non-zero).
    - [assert] failures, reads past the end of the token array and null
      dereferences end the run with a [fault].
    - allocation ([reallocarray], [calloc], [strdup]) is assumed to succeed. *)

From Stdlib Require Import String Ascii List ZArith Lia Bool Arith.
Import ListNotations.

Local Open Scope Z_scope.
Local Open Scope list_scope.

(** ** Declarations of slant.h used by the parser *)

(** [enum drawcat]. *)
Inductive drawcat : Type :=
| DRAWCAT_CPU
| DRAWCAT_MEM
| DRAWCAT_NET
| DRAWCAT_DISC
| DRAWCAT_LINK
| DRAWCAT_HOST
| DRAWCAT_PROCS
| DRAWCAT_RPROCS
| DRAWCAT_FILES.

(** The constants of slant.h.  The header is not part of the sources at
    hand, so the flag values are parameters of the development: every
    result below holds for every header.  [DRAWCAT_zero] is the enumerator
    of [enum drawcat] whose value is 0, which is what [memset] leaves in the
    [cat] field of a fresh box. *)
Record slant_h : Type := {
  DRAWCAT_zero : drawcat;
  CPU_QMIN_BARS : Z; CPU_QMIN : Z; CPU_MIN : Z; CPU_HOUR : Z;
  CPU_DAY : Z; CPU_WEEK : Z; CPU_YEAR : Z;
  MEM_QMIN_BARS : Z; MEM_QMIN : Z; MEM_MIN : Z; MEM_HOUR : Z;
  MEM_DAY : Z; MEM_WEEK : Z; MEM_YEAR : Z;
  NET_QMIN : Z; NET_MIN : Z; NET_HOUR : Z;
  NET_DAY : Z; NET_WEEK : Z; NET_YEAR : Z;
  DISC_QMIN : Z; DISC_MIN : Z; DISC_HOUR : Z;
  DISC_DAY : Z; DISC_WEEK : Z; DISC_YEAR : Z;
  LINK_IP : Z; LINK_STATE : Z; LINK_ACCESS : Z;
  HOST_ACCESS : Z;
  PROCS_QMIN_BARS : Z; PROCS_QMIN : Z; PROCS_MIN : Z; PROCS_HOUR : Z;
  PROCS_DAY : Z; PROCS_WEEK : Z; PROCS_YEAR : Z;
  RPROCS_QMIN_BARS : Z; RPROCS_QMIN : Z; RPROCS_MIN : Z; RPROCS_HOUR : Z;
  RPROCS_DAY : Z; RPROCS_WEEK : Z; RPROCS_YEAR : Z;
  FILES_QMIN_BARS : Z; FILES_QMIN : Z; FILES_MIN : Z; FILES_HOUR : Z;
  FILES_DAY : Z; FILES_WEEK : Z; FILES_YEAR : Z
}.

(** [struct nconfig]: [url] is [None] while the pointer is NULL, between
    the allocation of the entry and the [strdup] of its address;
    [nwaittime] is its [waittime] field (zero for the default). *)
Record nconfig : Type := { url : option string; nwaittime : Z }.

(** [struct drawbox]. *)
Record drawbox : Type := { cat : drawcat; args : Z }.

(** [struct draw]; [boxsz] is the length of [box]. *)
Record draw : Type := { box : list drawbox; header : Z; errlog : Z }.

(** [struct config]; [urlsz] is the length of [urls], [cdraw] is the [draw]
    pointer ([None] for NULL). *)
Record config : Type := {
  urls : list nconfig;
  waittime : Z;
  cdraw : option draw
}.

Definition INT_MAX : Z := 2147483647.

(** ** strtonum(3)

    A libc function.  [strtoll] in base 10 skips leading white space, takes
    an optional sign and then digits; [strtonum] rejects a string that is
    not converted to its end, and a value outside [minval, maxval].  Both
    bounds used by the parser are far inside [long long], so that clamping
    by [strtoll] is subsumed by the range tests. *)

Inductive errstr : Type := invalid | too_small | too_large.

Definition isspace (c : ascii) : bool :=
  match nat_of_ascii c with
  | 32%nat | 9%nat | 10%nat | 11%nat | 12%nat | 13%nat => true
  | _ => false
  end.

Definition digit_val (c : ascii) : option Z :=
  let n := Z.of_nat (nat_of_ascii c) in
  if (48 <=? n) && (n <=? 57) then Some (n - 48) else None.

Fixpoint skip_space (s : string) : string :=
  match s with
  | String c s' => if isspace c then skip_space s' else s
  | EmptyString => s
  end.

Fixpoint digits (acc : Z) (s : string) : option Z :=
  match s with
  | EmptyString => Some acc
  | String c s' =>
      match digit_val c with
      | Some d => digits (10 * acc + d) s'
      | None => None
      end
  end.

Definition nonempty_digits (s : string) : option Z :=
  match s with
  | EmptyString => None
  | _ => digits 0 s
  end.

(** [Some v] when [strtoll] converts the whole of [s] to [v]. *)
Definition strtoll_all (s : string) : option Z :=
  match skip_space s with
  | String "-"%char s' => option_map Z.opp (nonempty_digits s')
  | String "+"%char s' => nonempty_digits s'
  | s' => nonempty_digits s'
  end.

(** The value returned and the error string stored through [errstrp]
    ([None] for NULL). *)
Definition strtonum (numstr : string) (minval maxval : Z) : Z * option errstr :=
  if maxval <? minval then (0, Some invalid)
  else match strtoll_all numstr with
       | None => (0, Some invalid)
       | Some ll =>
           if ll <? minval then (0, Some too_small)
           else if maxval <? ll then (0, Some too_large)
           else (ll, None)
       end.

(** ** The tokenizer of [config_parse]

    The buffer is NUL-terminated, so only what precedes the first NUL of the
    file is seen; [strsep] cuts it at every space, tab, CR and LF and the
    loop skips the empty pieces. *)

Fixpoint c_string (s : string) : string :=
  match s with
  | EmptyString => EmptyString
  | String c s' => if (nat_of_ascii c =? 0)%nat then EmptyString
                   else String c (c_string s')
  end.

Definition is_delim (c : ascii) : bool :=
  match nat_of_ascii c with
  | 32%nat | 9%nat | 13%nat | 10%nat => true
  | _ => false
  end.

Fixpoint strsep_all (s : string) (cur : string) : list string :=
  match s with
  | EmptyString => [cur]
  | String c s' =>
      if is_delim c then cur :: strsep_all s' EmptyString
      else strsep_all s' (cur ++ String c EmptyString)%string
  end.

Definition tokenize (buf : string) : list string :=
  filter (fun cp => negb (cp =? EmptyString)%string)
    (strsep_all (c_string buf) EmptyString).

(** ** Diagnostics

    One constructor per [warnx]/[warn] call of the file (the file-name
    prefix is dropped). *)
Inductive diag : Type :=
| unknown_token (t : string)
| unexpected_eof
| expected_have (v t : string)
| bad_global_waittime (er : errstr)
| bad_server_waittime (er : errstr)
| bad_layout_errlog (er : errstr)
| layout_already_specified
| no_servers_in_statement
| warn_errno.

(** The error kinds of the specification, and the kind of each diagnostic. *)
Inductive error_kind : Type :=
| UnexpectedEOF | UnexpectedToken | UnknownToken | InvalidRange
| EmptyServerList | DuplicateSection | IOFailure.

Definition kind_of (d : diag) : error_kind :=
  match d with
  | unknown_token _ => UnknownToken
  | unexpected_eof => UnexpectedEOF
  | expected_have _ _ => UnexpectedToken
  | bad_global_waittime _ | bad_server_waittime _ | bad_layout_errlog _ => InvalidRange
  | layout_already_specified => DuplicateSection
  | no_servers_in_statement => EmptyServerList
  | warn_errno => IOFailure
  end.

(** ** The state and the monad *)

Record state : Type := {
  pos : nat;
  cfg : config;
  log : list diag
}.

Inductive fault : Type :=
| AssertFail      (* an [assert] does not hold *)
| OutOfBounds     (* [toks[pos]] read with [pos >= toksz] *)
| NullDeref       (* [cfg->draw] used while NULL *)
| OutOfFuel.      (* artefact of the embedding of loops; shown unreachable *)

Inductive outcome (A : Type) : Type :=
| Ret (a : A) (s : state)
| Crash (f : fault).
Arguments Ret {A} a s.
Arguments Crash {A} f.

Definition M (A : Type) : Type := state -> outcome A.

Definition ret {A} (a : A) : M A := fun s => Ret a s.

Definition bind {A B} (m : M A) (k : A -> M B) : M B :=
  fun s => match m s with
           | Ret a s' => k a s'
           | Crash f => Crash f
           end.

Definition crash {A} (f : fault) : M A := fun _ => Crash f.

Declare Scope monad_scope.
Delimit Scope monad_scope with monad.
Notation "x <- m ;; k" := (bind m (fun x => k))
  (at level 61, m at next level, right associativity) : monad_scope.
Notation "m ;;; k" := (bind m (fun _ => k))
  (at level 61, right associativity) : monad_scope.
Local Open Scope monad_scope.

(** The three ways a state changes. *)
Definition at_pos (n : nat) (s : state) : state :=
  {| pos := n; cfg := cfg s; log := log s |}.
Definition with_cfg (c : config) (s : state) : state :=
  {| pos := pos s; cfg := c; log := log s |}.
Definition logged (d : diag) (s : state) : state :=
  {| pos := pos s; cfg := cfg s; log := log s ++ [d] |}.

Definition get : M state := fun s => Ret s s.
Definition set_pos (n : nat) : M unit := fun s => Ret tt (at_pos n s).
Definition set_cfg (c : config) : M unit := fun s => Ret tt (with_cfg c s).
Definition warnx (d : diag) : M unit := fun s => Ret tt (logged d s).

(** [p->pos++] *)
Definition pos_incr : M unit := fun s => set_pos (S (pos s)) s.

(** Loop control: what one run of a loop body asks for. *)
Inductive ctl (A R : Type) : Type :=
| Next (a : A)       (* go on with the next iteration *)
| Break (a : A)      (* leave the loop *)
| Return (r : R).    (* return from the enclosing function *)
Arguments Next {A R} a.
Arguments Break {A R} a.
Arguments Return {A R} r.

(** [while (cond) body], with the local variables [a] of the function
    threaded through; [inl a] when the loop is left, [inr r] when the body
    returned [r] from the function. *)
Fixpoint while_fuel {A R} (fuel : nat) (cond : A -> state -> bool)
    (body : A -> M (ctl A R)) (a : A) : M (A + R) :=
  fun s =>
    match fuel with
    | O => Crash OutOfFuel
    | S fuel' =>
        if cond a s then
          match body a s with
          | Ret (Next a') s' => while_fuel fuel' cond body a' s'
          | Ret (Break a') s' => Ret (inl a') s'
          | Ret (Return r) s' => Ret (inr r) s'
          | Crash f => Crash f
          end
        else Ret (inl a) s
    end.

(** [l] with [f] applied to its element of index [i] (as [l[i] = f(l[i])]
    does for [i] below the length, the only case that arises). *)
Fixpoint list_upd {A} (l : list A) (i : nat) (f : A -> A) : list A :=
  match l, i with
  | [], _ => []
  | x :: l', O => f x :: l'
  | x :: l', S i' => x :: list_upd l' i' f
  end.

Definition assert (b : bool) : M unit :=
  if b then ret tt else crash AssertFail.

(** ** Updates of the configuration *)

Definition cfg_waittime (w : Z) (c : config) : config :=
  {| urls := urls c; waittime := w; cdraw := cdraw c |}.
Definition cfg_urls (us : list nconfig) (c : config) : config :=
  {| urls := us; waittime := waittime c; cdraw := cdraw c |}.
Definition cfg_draw (d : option draw) (c : config) : config :=
  {| urls := urls c; waittime := waittime c; cdraw := d |}.

Definition set_waittime (w : Z) : M unit :=
  fun s => set_cfg (cfg_waittime w (cfg s)) s.

Definition set_urls (us : list nconfig) : M unit :=
  fun s => set_cfg (cfg_urls us (cfg s)) s.

Definition set_draw (d : option draw) : M unit :=
  fun s => set_cfg (cfg_draw d (cfg s)) s.

(** An update through [cfg->draw]. *)
Definition with_draw (f : draw -> draw) : M unit :=
  fun s => match cdraw (cfg s) with
           | Some d => set_draw (Some (f d)) s
           | None => Crash NullDeref
           end.

(** An update through [b], which points to the last box
    ([&cfg->draw->box[cfg->draw->boxsz++]]). *)
Definition with_b (f : drawbox -> drawbox) : M unit :=
  with_draw (fun d =>
    {| box := list_upd (box d) (length (box d) - 1) f;
       header := header d; errlog := errlog d |}).

Definition b_set_cat (c : drawcat) : M unit :=
  with_b (fun b => {| cat := c; args := args b |}).

Definition b_set_args (v : Z) : M unit :=
  with_b (fun b => {| cat := cat b; args := v |}).

(** [b->args |= flag] *)
Definition b_or_args (flag : Z) : M unit :=
  with_b (fun b => {| cat := cat b; args := Z.lor (args b) flag |}).

(** The body of the [for] loop of [parse_server_args], run [n] more times
    from index [i]: [urls[urlsz - 1 - i].waittime = waittime]. *)
Fixpoint apply_waittime (n i : nat) (w : Z) (us : list nconfig) : list nconfig :=
  match n with
  | O => us
  | S n' =>
      apply_waittime n' (S i) w
        (list_upd us (length us - 1 - i) (fun u => {| url := url u; nwaittime := w |}))
  end.

(** ** The parser *)

Section Parser.

Variable h : slant_h.

(** [p->toks]; [p->toksz] is its length. *)
Variable toks : list string.

Definition toksz : nat := length toks.

(** A loop that runs while [p->pos < p->toksz]: every iteration that goes
    on has advanced [pos], so [toksz - pos] iterations and one last test
    are all there can be. *)
Definition while_loop {A R} (cond : A -> state -> bool)
    (body : A -> M (ctl A R)) (a : A) : M (A + R) :=
  fun s => while_fuel (S (toksz - pos s)) cond body a s.

Definition in_range (s : state) : bool := (pos s <? toksz)%nat.

(** The read [p->toks[p->pos]]. *)
Definition tok_cur : M string :=
  fun s => match nth_error toks (pos s) with
           | Some t => Ret t s
           | None => Crash OutOfBounds
           end.

Definition tok_unknown : M bool :=
  t <- tok_cur;;
  warnx (unknown_token t);;;
  ret false.

Definition tok_nadv : M bool :=
  s <- get;;
  if (toksz <=? pos s)%nat then warnx unexpected_eof;;; ret false
  else ret true.

Definition tok_expect (v : string) : M bool :=
  b <- tok_nadv;;
  if negb b then ret false else
  t <- tok_cur;;
  if (t =? v)%string then ret true else
  warnx (expected_have v t);;;
  ret false.

Definition tok_expect_adv (v : string) : M bool :=
  b <- tok_expect v;;
  if b then pos_incr;;; ret true else ret false.

Definition tok_eq (v : string) : M bool :=
  s <- get;;
  assert (in_range s);;;
  t <- tok_cur;;
  ret (t =? v)%string.

Definition tok_eq_adv (v : string) : M bool :=
  s <- get;;
  assert (in_range s);;;
  t <- tok_cur;;
  if (t =? v)%string then pos_incr;;; ret true else ret false.

Definition tok_adv : M bool :=
  pos_incr;;;
  tok_nadv.

Definition parse_waittime : M bool :=
  s <- get;;
  assert (in_range s);;;
  t <- tok_cur;;
  let (v, er) := strtonum t 15 INT_MAX in
  set_waittime v;;;
  match er with
  | Some e => warnx (bad_global_waittime e);;; ret false
  | None =>
      b <- tok_adv;;
      if negb b then ret false else
      b <- tok_expect_adv ";";;
      if negb b then ret false else
      ret true
  end.

(** The test [p->pos < p->toksz && ! tok_eq(p, "}")]; the assertion of
    [tok_eq] is guarded by the first conjunct. *)
Definition server_args_cond (s : state) : bool :=
  match nth_error toks (pos s) with
  | Some t => negb (t =? "}")%string
  | None => false
  end.

(** One iteration of the [while] loop of [parse_server_args]; the local
    [waittime] is threaded through. *)
Definition server_args_body (waittime : Z) : M (ctl Z bool) :=
  b <- tok_eq_adv "waittime";;
  if b then
    t <- tok_cur;;
    let (v, er) := strtonum t 15 INT_MAX in
    match er with
    | Some e => warnx (bad_server_waittime e);;; ret (Return false)
    | None =>
        b <- tok_adv;;
        if negb b then ret (Return false) else
        _ <- tok_eq_adv ";";;
        ret (Next v)
    end
  else
    r <- tok_unknown;;
    ret (Return r).

Definition parse_server_args (count : nat) : M bool :=
  r <- while_loop (fun _ => server_args_cond) server_args_body 0;;
  match r with
  | inr r => ret r
  | inl waittime =>
      b <- tok_expect_adv "}";;
      if negb b then ret false else
      s <- get;;
      assert (count <=? length (urls (cfg s)))%nat;;;
      if waittime =? 0 then ret true else
      set_urls (apply_waittime count 0 waittime (urls (cfg s)));;;
      ret true
  end.

(** The chain of [tok_eq_adv] tests of one option loop, for the keywords
    and flags of [tbl] in the order the source tests them, ending with the
    tests for [;] and [}]. *)
Fixpoint opt_chain (tbl : list (string * Z)) : M (ctl unit bool) :=
  match tbl with
  | (kw, flag) :: tbl' =>
      b <- tok_eq_adv kw;;
      if b then b_or_args flag;;; ret (Next tt)
      else opt_chain tbl'
  | [] =>
      b <- tok_eq ";";;
      if b then ret (Break tt) else
      b <- tok_eq "}";;
      if b then ret (Break tt) else
      r <- tok_unknown;;
      ret (Return r)
  end.

(** One option loop: [Some r] when it returned [r] from
    [parse_layout_host]. *)
Definition parse_opts (tbl : list (string * Z)) : M (option bool) :=
  r <- while_loop (fun _ => in_range) (fun _ => opt_chain tbl) tt;;
  match r with
  | inl _ => ret None
  | inr r => ret (Some r)
  end.

Definition cpu_opts : list (string * Z) :=
  [("qmin_bars"%string, CPU_QMIN_BARS h); ("qmin"%string, CPU_QMIN h);
   ("min"%string, CPU_MIN h); ("hour"%string, CPU_HOUR h);
   ("day"%string, CPU_DAY h); ("week"%string, CPU_WEEK h);
   ("year"%string, CPU_YEAR h)].

Definition mem_opts : list (string * Z) :=
  [("qmin_bars"%string, MEM_QMIN_BARS h); ("qmin"%string, MEM_QMIN h);
   ("min"%string, MEM_MIN h); ("hour"%string, MEM_HOUR h);
   ("day"%string, MEM_DAY h); ("week"%string, MEM_WEEK h);
   ("year"%string, MEM_YEAR h)].

Definition net_opts : list (string * Z) :=
  [("qmin"%string, NET_QMIN h);
   ("min"%string, NET_MIN h); ("hour"%string, NET_HOUR h);
   ("day"%string, NET_DAY h); ("week"%string, NET_WEEK h);
   ("year"%string, NET_YEAR h)].

Definition disc_opts : list (string * Z) :=
  [("qmin"%string, DISC_QMIN h);
   ("min"%string, DISC_MIN h); ("hour"%string, DISC_HOUR h);
   ("day"%string, DISC_DAY h); ("week"%string, DISC_WEEK h);
   ("year"%string, DISC_YEAR h)].

Definition link_opts : list (string * Z) :=
  [("ip"%string, LINK_IP h); ("state"%string, LINK_STATE h);
   ("access"%string, LINK_ACCESS h)].

(** The [host] category has no option keyword. *)
Definition host_opts : list (string * Z) := [].

Definition procs_opts : list (string * Z) :=
  [("qmin_bars"%string, PROCS_QMIN_BARS h); ("qmin"%string, PROCS_QMIN h);
   ("min"%string, PROCS_MIN h); ("hour"%string, PROCS_HOUR h);
   ("day"%string, PROCS_DAY h); ("week"%string, PROCS_WEEK h);
   ("year"%string, PROCS_YEAR h)].

Definition rprocs_opts : list (string * Z) :=
  [("qmin"%string, RPROCS_QMIN h); ("qmin_bars"%string, RPROCS_QMIN_BARS h);
   ("min"%string, RPROCS_MIN h); ("hour"%string, RPROCS_HOUR h);
   ("day"%string, RPROCS_DAY h); ("week"%string, RPROCS_WEEK h);
   ("year"%string, RPROCS_YEAR h)].

Definition files_opts : list (string * Z) :=
  [("qmin"%string, FILES_QMIN h); ("qmin_bars"%string, FILES_QMIN_BARS h);
   ("min"%string, FILES_MIN h); ("hour"%string, FILES_HOUR h);
   ("day"%string, FILES_DAY h); ("week"%string, FILES_WEEK h);
   ("year"%string, FILES_YEAR h)].

(** The option keywords of a category, as its loop tests them. *)
Definition opts_of (c : drawcat) : list (string * Z) :=
  match c with
  | DRAWCAT_CPU => cpu_opts
  | DRAWCAT_MEM => mem_opts
  | DRAWCAT_NET => net_opts
  | DRAWCAT_DISC => disc_opts
  | DRAWCAT_LINK => link_opts
  | DRAWCAT_HOST => host_opts
  | DRAWCAT_PROCS => procs_opts
  | DRAWCAT_RPROCS => rprocs_opts
  | DRAWCAT_FILES => files_opts
  end.

(** [reallocarray], [boxsz++] and [memset]: a zeroed box is appended. *)
Definition box_append : M unit :=
  with_draw (fun d =>
    {| box := box d ++ [{| cat := DRAWCAT_zero h; args := 0 |}];
       header := header d; errlog := errlog d |}).

(** The chain of category tests of [parse_layout_host], each with its
    option loop: [Some r] when [parse_layout_host] returns [r] from inside
    it. *)
Definition box_def : M (option bool) :=
  b <- tok_eq_adv "cpu";;
  if b then b_set_cat DRAWCAT_CPU;;; parse_opts cpu_opts else
  b <- tok_eq_adv "mem";;
  if b then b_set_cat DRAWCAT_MEM;;; parse_opts mem_opts else
  b <- tok_eq_adv "net";;
  if b then b_set_cat DRAWCAT_NET;;; parse_opts net_opts else
  b <- tok_eq_adv "disc";;
  if b then b_set_cat DRAWCAT_DISC;;; parse_opts disc_opts else
  b <- tok_eq_adv "link";;
  if b then b_set_cat DRAWCAT_LINK;;; parse_opts link_opts else
  b <- tok_eq_adv "host";;
  if b then
    b_set_cat DRAWCAT_HOST;;;
    b_set_args (HOST_ACCESS h);;;
    parse_opts host_opts
  else
  b <- tok_eq_adv "nprocs";;
  if b then b_set_cat DRAWCAT_PROCS;;; parse_opts procs_opts else
  b <- tok_eq_adv "rprocs";;
  if b then b_set_cat DRAWCAT_RPROCS;;; parse_opts rprocs_opts else
  b <- tok_eq_adv "nfiles";;
  if b then b_set_cat DRAWCAT_FILES;;; parse_opts files_opts else
  r <- tok_unknown;;
  ret (Some r).

(** What follows an item in the loops of [parse_layout_host] and
    [parse_layout]: leave the loop at [}], else require [;] and leave the
    loop at a [}] behind it. *)
Definition item_end : M (ctl unit bool) :=
  b <- tok_eq "}";;
  if b then ret (Break tt) else
  b <- tok_expect_adv ";";;
  if negb b then ret (Return false) else
  b <- tok_eq "}";;
  if b then ret (Break tt) else
  ret (Next tt).

Definition layout_host_body : M (ctl unit bool) :=
  box_append;;;
  r <- box_def;;
  match r with
  | Some r => ret (Return r)
  | None => item_end
  end.

Definition parse_layout_host : M bool :=
  b <- tok_expect_adv "{";;
  if negb b then ret false else
  b <- tok_eq "}";;
  if b then ret true else
  r <- while_loop (fun _ => in_range) (fun _ => layout_host_body) tt;;
  match r with
  | inr r => ret r
  | inl _ =>
      b <- tok_expect_adv "}";;
      if negb b then ret false else
      ret true
  end.

(** The chain of keyword tests of the loop of [parse_layout]: [Some r]
    when [parse_layout] returns [r] from inside it. *)
Definition layout_item : M (option bool) :=
  b <- tok_eq_adv "header";;
  if b then
    with_draw (fun d => {| box := box d; header := 1; errlog := errlog d |});;;
    ret None
  else
  b <- tok_eq_adv "errlog";;
  if b then
    t <- tok_cur;;
    let (v, er) := strtonum t 0 INT_MAX in
    with_draw (fun d => {| box := box d; header := header d; errlog := v |});;;
    match er with
    | Some e => warnx (bad_layout_errlog e);;; ret (Some false)
    | None => pos_incr;;; ret None
    end
  else
  b <- tok_eq_adv "host";;
  if b then
    b <- parse_layout_host;;
    if negb b then ret (Some false) else ret None
  else
  r <- tok_unknown;;
  ret (Some r).

Definition layout_body : M (ctl unit bool) :=
  r <- layout_item;;
  match r with
  | Some r => ret (Return r)
  | None => item_end
  end.

Definition parse_layout : M bool :=
  b <- tok_expect_adv "{";;
  if negb b then ret false else
  b <- tok_eq_adv "}";;
  if b then ret true else
  s <- get;;
  match cdraw (cfg s) with
  | Some _ => warnx layout_already_specified;;; ret false
  | None =>
      set_draw (Some {| box := []; header := 0; errlog := 0 |});;;
      r <- while_loop (fun _ => in_range) (fun _ => layout_body) tt;;
      match r with
      | inr r => ret r
      | inl _ =>
          b <- tok_expect_adv "}";;
          if negb b then ret false else
          tok_expect_adv ";"
      end
  end.

(** One iteration of the loop of [parse_servers]; the local [count] is
    threaded through.  A zeroed entry is appended ([reallocarray],
    [memset], [urlsz++]), then [urls[urlsz - 1].url] is set. *)
Definition servers_body (count : nat) : M (ctl nat bool) :=
  b <- tok_eq ";";;
  if b then ret (Break count) else
  b <- tok_eq "{";;
  if b then ret (Break count) else
  s <- get;;
  set_urls (urls (cfg s) ++ [{| url := None; nwaittime := 0 |}]);;;
  t <- tok_cur;;
  s <- get;;
  set_urls (list_upd (urls (cfg s)) (length (urls (cfg s)) - 1)
              (fun u => {| url := Some t; nwaittime := nwaittime u |}));;;
  pos_incr;;;
  ret (Next (S count)).

Definition parse_servers : M bool :=
  r <- while_loop (fun _ => in_range) servers_body 0%nat;;
  match r with
  | inr r => ret r
  | inl count =>
      if (count =? 0)%nat then warnx no_servers_in_statement;;; ret false else
      b <- tok_nadv;;
      if negb b then ret false else
      b <- tok_eq_adv "{";;
      if b then
        b <- parse_server_args count;;
        if negb b then ret false else
        b <- tok_expect ";";;
        if negb b then ret false else
        pos_incr;;;
        ret true
      else
        pos_incr;;;
        ret true
  end.

(** One iteration of the top-level loop of [config_parse]. *)
Definition statement : M (ctl unit bool) :=
  b <- tok_eq_adv "servers";;
  if b then
    b <- parse_servers;;
    if negb b then ret (Break tt) else ret (Next tt)
  else
  b <- tok_eq_adv "layout";;
  if b then
    b <- parse_layout;;
    if negb b then ret (Break tt) else ret (Next tt)
  else
  b <- tok_eq_adv "waittime";;
  if b then
    b <- parse_waittime;;
    if negb b then ret (Break tt) else ret (Next tt)
  else
  _ <- tok_unknown;;
  ret (Break tt).

Definition config_loop : M (unit + bool) :=
  while_loop (fun _ => in_range) (fun _ => statement) tt.

End Parser.

(** The [for] loop of [config_cmdline], run [n] more times from index [i]:
    [urls[i].url = strdup(argv[i])]. *)
Fixpoint cmdline_urls (n i : nat) (argv : list string) (us : list nconfig)
    : list nconfig :=
  match n with
  | O => us
  | S n' =>
      cmdline_urls n' (S i) argv
        (list_upd us i (fun u => {| url := nth_error argv i;
                                    nwaittime := nwaittime u |}))
  end.

(** [config_cmdline]: [argc] is the length of [argv]; [calloc] gives
    [argc] zeroed entries. *)
Definition config_cmdline (argv : list string) : M bool :=
  assert (negb (length argv =? 0)%nat);;;
  if (length argv =? 0)%nat then ret true else
  set_urls (repeat {| url := None; nwaittime := 0 |} (length argv));;;
  s <- get;;
  set_urls (cmdline_urls (length (urls (cfg s))) 0 argv (urls (cfg s)));;;
  ret true.

(** What [open], [fstat], [malloc] and [mmap] make of the path. *)
Inductive file : Type :=
| NoEnt                     (* [open] fails with ENOENT *)
| IOFail                    (* any other failure of the four calls *)
| Mapped (buf : string).    (* the content of the file, of at least one
                               byte: [mmap] fails on a length of 0 *)

(** The state after the two [memset]s and the default. *)
Definition state0 : state :=
  {| pos := 0;
     cfg := {| urls := []; waittime := 60; cdraw := None |};
     log := [] |}.

(** The part of [config_parse] after the tokenizer. *)
Definition config_tokens (h : slant_h) (toks : list string)
    (argv : list string) : M bool :=
  _ <- config_loop h toks;;
  s <- get;;
  if negb (pos s =? toksz toks)%nat then ret false else
  if (length argv =? 0)%nat then ret true else
  set_urls [];;;
  config_cmdline argv.

Definition config_parse (h : slant_h) (fn : file) (argv : list string)
    : outcome bool :=
  match fn with
  | NoEnt => config_cmdline argv state0
  | IOFail => (warnx warn_errno;;; ret false) state0
  | Mapped buf => config_tokens h (tokenize buf) argv state0
  end.

(** ** Notions used to state the properties *)

(** The tokens from the cursor on. *)
Definition remaining (toks : list string) (s : state) : list string :=
  skipn (pos s) toks.

(** [iterates toks body s s']: a loop [while (p->pos < p->toksz) body],
    started in [s], is at the head of an iteration in [s']. *)
Inductive iterates (toks : list string) (body : M (ctl unit bool))
    : state -> state -> Prop :=
| iterates_here s : iterates toks body s s
| iterates_next s s' s'' :
    in_range toks s = true ->
    body s = Ret (Next tt) s' ->
    iterates toks body s' s'' ->
    iterates toks body s s''.

(** [reach h toks s s']: the top-level loop of [config_parse], started in
    [s], is at the head of an iteration in [s']. *)
Definition reach (h : slant_h) (toks : list string) : state -> state -> Prop :=
  iterates toks (statement h toks).

(** The error reported by a failed parse: the last diagnostic. *)
Definition reported (s : state) : option error_kind :=
  option_map kind_of (last (map Some (log s)) None).

(** The union of a list of flags. *)
Definition or_all (l : list Z) : Z := fold_left Z.lor l 0.

(** The flag of an option keyword in a table, as the chain of tests finds
    it. *)
Fixpoint flag_of (tbl : list (string * Z)) (kw : string) : option Z :=
  match tbl with
  | [] => None
  | (k, f) :: tbl' => if (kw =? k)%string then Some f else flag_of tbl' kw
  end.

Definition flags_of (tbl : list (string * Z)) (kws : list string) : list Z :=
  flat_map (fun kw => match flag_of tbl kw with Some f => [f] | None => [] end) kws.

Definition is_opt (tbl : list (string * Z)) (kw : string) : bool :=
  match flag_of tbl kw with Some _ => true | None => false end.

(** The bits legal for a category, and the boxes that carry only such
    bits; a [host] box carries exactly its fixed flag. *)
Definition legal_mask (h : slant_h) (c : drawcat) : Z :=
  or_all (map snd (opts_of h c)).

Definition box_legal (h : slant_h) (b : drawbox) : bool :=
  match cat b with
  | DRAWCAT_HOST => args b =? HOST_ACCESS h
  | c => Z.land (args b) (legal_mask h c) =? args b
  end.

Definition cfg_legal (h : slant_h) (c : config) : bool :=
  match cdraw c with
  | None => true
  | Some d => forallb (box_legal h) (box d)
  end.

(** The keyword that opens a box of a category. *)
Definition cat_keyword (c : drawcat) : string :=
  match c with
  | DRAWCAT_CPU => "cpu"
  | DRAWCAT_MEM => "mem"
  | DRAWCAT_NET => "net"
  | DRAWCAT_DISC => "disc"
  | DRAWCAT_LINK => "link"
  | DRAWCAT_HOST => "host"
  | DRAWCAT_PROCS => "nprocs"
  | DRAWCAT_RPROCS => "rprocs"
  | DRAWCAT_FILES => "nfiles"
  end.

(** The args a fresh box of a category has before its option loop. *)
Definition init_args (h : slant_h) (c : drawcat) : Z :=
  match c with
  | DRAWCAT_HOST => HOST_ACCESS h
  | _ => 0
  end.

(** The tokens of the block of a [servers] statement: each item is the
    number token of a [waittime] and whether a [;] follows it. *)
Definition server_arg_toks (it : string * bool) : list string :=
  "waittime"%string :: fst it :: (if snd it then [";"%string] else []).

(** The waittime the block leaves: that of its last item, 0 without one. *)
Definition block_waittime (items : list (string * bool)) : Z :=
  fold_left (fun _ it => fst (strtonum (fst it) 15 INT_MAX)) items 0.

Definition is_terminator (t : string) : bool :=
  ((t =? ";") || (t =? "{"))%string.

(** The entry [parse_servers] and [config_cmdline] make of an address. *)
Definition entry (w : Z) (a : string) : nconfig :=
  {| url := Some a; nwaittime := w |}.

(** Weakest precondition: [m] run in [s] returns with [Q], or stops on a
    fault of the program; it never runs out of fuel. *)
Definition wp {A} (m : M A) (Q : A -> state -> Prop) (s : state) : Prop :=
  match m s with
  | Ret a s' => Q a s'
  | Crash f => f <> OutOfFuel
  end.

(** Modelled from the spec: slant.h is missing from the sources; following
    the option tables of the specification, each option keyword sets
    exactly one bit of its category and [host] carries one fixed access
    flag.  Used where a concrete header is needed. *)
Definition spec_h : slant_h := {|
  DRAWCAT_zero := DRAWCAT_CPU;
  CPU_QMIN_BARS := 64; CPU_QMIN := 1; CPU_MIN := 2; CPU_HOUR := 4;
  CPU_DAY := 8; CPU_WEEK := 16; CPU_YEAR := 32;
  MEM_QMIN_BARS := 64; MEM_QMIN := 1; MEM_MIN := 2; MEM_HOUR := 4;
  MEM_DAY := 8; MEM_WEEK := 16; MEM_YEAR := 32;
  NET_QMIN := 1; NET_MIN := 2; NET_HOUR := 4;
  NET_DAY := 8; NET_WEEK := 16; NET_YEAR := 32;
  DISC_QMIN := 1; DISC_MIN := 2; DISC_HOUR := 4;
  DISC_DAY := 8; DISC_WEEK := 16; DISC_YEAR := 32;
  LINK_IP := 1; LINK_STATE := 2; LINK_ACCESS := 4;
  HOST_ACCESS := 1;
  PROCS_QMIN_BARS := 64; PROCS_QMIN := 1; PROCS_MIN := 2; PROCS_HOUR := 4;
  PROCS_DAY := 8; PROCS_WEEK := 16; PROCS_YEAR := 32;
  RPROCS_QMIN_BARS := 64; RPROCS_QMIN := 1; RPROCS_MIN := 2; RPROCS_HOUR := 4;
  RPROCS_DAY := 8; RPROCS_WEEK := 16; RPROCS_YEAR := 32;
  FILES_QMIN_BARS := 64; FILES_QMIN := 1; FILES_MIN := 2; FILES_HOUR := 4;
  FILES_DAY := 8; FILES_WEEK := 16; FILES_YEAR := 32
|}.

Definition is_unknown (d : diag) : bool :=
  match d with
  | unknown_token _ => true
  | _ => false
  end.

(** The states of the configuration between two boxes, with a fresh box
    whose category is not yet set, and inside the option loop of a box of
    category [k]. *)
Definition boxes_legal (h : slant_h) (c : config) : Prop :=
  cfg_legal h c = true.

(** The last box satisfies [Pb] and those before it are legal. *)
Definition last_box (h : slant_h) (Pb : drawbox -> Prop) (c : config) : Prop :=
  exists d bs b,
    cdraw c = Some d /\ box d = bs ++ [b] /\
    forallb (box_legal h) bs = true /\ Pb b.

Definition box_pending (h : slant_h) : config -> Prop :=
  last_box h (fun b => b = {| cat := DRAWCAT_zero h; args := 0 |}).

Definition box_open (h : slant_h) (k : drawcat) : config -> Prop :=
  last_box h (fun b => cat b = k /\ box_legal h b = true).

(** What a piece of the parser that ends in [s'] with [ok] (a failure
    otherwise) has done since [s]: the cursor has not moved back; nothing
    is logged unless it fails, and then one diagnostic, an unknown token
    only with the cursor on a token; a layout once allocated stays; and
    from a configuration with [P] it leads to one with [P'], or fails with
    the cursor on a token. *)
Definition post (toks : list string) (P P' : config -> Prop)
    (s : state) (ok : bool) (s' : state) : Prop :=
  (pos s <= pos s')%nat /\
  (if ok then log s' = log s
   else exists d, log s' = log s ++ [d] /\
                  (is_unknown d = true -> (pos s' < toksz toks)%nat)) /\
  (cdraw (cfg s) <> None -> cdraw (cfg s') <> None) /\
  (P (cfg s) -> P' (cfg s') \/ (ok = false /\ (pos s' < toksz toks)%nat)).

Definition opt_ok (o : option bool) : bool :=
  match o with
  | None => true
  | Some r => r
  end.

Definition ctl_ok {A} (c : ctl A bool) : bool :=
  match c with
  | Return r => r
  | _ => true
  end.

Definition is_next {A R} (c : ctl A R) : bool :=
  match c with
  | Next _ => true
  | _ => false
  end.

(** ** Notions used to state the properties of the tokenizer *)

(** Every character of [s] satisfies [p]. *)
Fixpoint str_forall (p : ascii -> bool) (s : string) : bool :=
  match s with
  | EmptyString => true
  | String c s' => p c && str_forall p s'
  end.

Definition is_nul (c : ascii) : bool := (nat_of_ascii c =? 0)%nat.

(** A character that can be part of a token: no delimiter of [strsep] and
    not the NUL that ends the buffer. *)
Definition token_char (c : ascii) : bool := negb (is_delim c) && negb (is_nul c).

(** A string that can be a token: not empty, of token characters. *)
Definition clean_token (t : string) : bool :=
  negb (t =? EmptyString)%string && str_forall token_char t.

(** [s] without its delimiters. *)
Fixpoint strip_delims (s : string) : string :=
  match s with
  | EmptyString => EmptyString
  | String c s' => if is_delim c then strip_delims s' else String c (strip_delims s')
  end.

(** ** Notions used to state what every parse guarantees *)

(** [safe m Q s]: [m] run in [s] returns with [Q], or stops on an
    assertion or on a read past the end of the tokens; it never
    dereferences [cfg->draw] while NULL and never runs out of fuel. *)
Definition safe {A} (m : M A) (Q : A -> state -> Prop) (s : state) : Prop :=
  match m s with
  | Ret a s' => Q a s'
  | Crash f => f = AssertFail \/ f = OutOfBounds
  end.

(** The diagnostic of the end of the tokens, and the diagnostics that can
    come with the cursor at the end of the tokens. *)
Definition at_end (d : diag) : bool :=
  match d with
  | unexpected_eof => true
  | _ => false
  end.

Definition may_end (d : diag) : bool :=
  match d with
  | unexpected_eof | no_servers_in_statement => true
  | _ => false
  end.

(** The values a configuration can hold: a waittime is within
    [15, INT_MAX], or 0 (an override that is not set, a global waittime
    that failed to convert); every entry has its address; [header] is a
    flag and [errlog] is within [0, INT_MAX]. *)
Definition in_wait_range (w : Z) : bool := (15 <=? w) && (w <=? INT_MAX).

Definition wait_ok (w : Z) : bool := (w =? 0) || in_wait_range w.

Definition url_ok (u : nconfig) : bool :=
  match url u with
  | Some _ => wait_ok (nwaittime u)
  | None => false
  end.

Definition draw_ok (d : draw) : bool :=
  ((header d =? 0) || (header d =? 1))
  && ((0 <=? errlog d) && (errlog d <=? INT_MAX)).

Definition cfg_ok (c : config) : bool :=
  forallb url_ok (urls c) && wait_ok (waittime c)
  && match cdraw c with
     | Some d => draw_ok d
     | None => true
     end.

(** The ranges alone, whatever the addresses are. *)
Definition cfg_ranges (c : config) : bool :=
  forallb (fun u => wait_ok (nwaittime u)) (urls c) && wait_ok (waittime c)
  && match cdraw c with
     | Some d => draw_ok d
     | None => true
     end.

(** What a piece of the parser that ends in [s'] with [ok] (a failure
    otherwise) has done since [s]: the cursor has not moved back and has
    not passed the end of the tokens; nothing is logged unless it fails,
    and then one diagnostic, that of the end of the tokens only with the
    cursor at the end, and any other than that and the one of a [servers]
    without hosts only with the cursor on a token; a layout once allocated
    stays; the values of the configuration stay as they can be; and a
    global waittime that is in range stays so unless the piece fails with
    the cursor on a token. *)
Definition effect (toks : list string) (s : state) (ok : bool) (s' : state)
    : Prop :=
  (pos s <= pos s')%nat /\
  ((pos s <= toksz toks)%nat -> (pos s' <= toksz toks)%nat) /\
  (if ok then log s' = log s
   else exists d, log s' = log s ++ [d] /\
                  (at_end d = true -> (toksz toks <= pos s')%nat) /\
                  (may_end d = false -> (pos s' < toksz toks)%nat)) /\
  (cdraw (cfg s) <> None -> cdraw (cfg s') <> None) /\
  (cfg_ok (cfg s) = true -> cfg_ok (cfg s') = true) /\
  (in_wait_range (waittime (cfg s)) = true ->
   in_wait_range (waittime (cfg s')) = true \/
   (ok = false /\ (pos s' < toksz toks)%nat)).

(** ** The [layout] statement, as a list of items

    The items of a block as the loops of [parse_layout] and
    [parse_layout_host] take them: separated by [;], with a [;] that may
    follow the last one. *)

(** An item of the block of a [layout] statement: [header], [errlog] with
    its number token, or a [host] block with its box definitions (the
    category and the option keywords of each) and whether a [;] follows the
    last of them. *)
Inductive litem : Type :=
| LHeader
| LErrlog (num : string)
| LHost (boxes : list (drawcat * list string)) (semi : bool).

(** The tokens of a list of items, each with the tokens [f] gives it. *)
Fixpoint sep_toks {A} (f : A -> list string) (l : list A) (semi : bool)
    : list string :=
  match l with
  | [] => []
  | x :: l' =>
      match l' with
      | [] => f x ++ (if semi then [";"%string] else [])
      | _ :: _ => f x ++ ";"%string :: sep_toks f l' semi
      end
  end.

Definition box_toks (b : drawcat * list string) : list string :=
  cat_keyword (fst b) :: snd b.

Definition item_toks (it : litem) : list string :=
  match it with
  | LHeader => ["header"%string]
  | LErrlog num => ["errlog"%string; num]
  | LHost boxes semi =>
      "host"%string :: "{"%string :: sep_toks box_toks boxes semi ++ ["}"%string]
  end.

Definition layout_toks (items : list litem) (semi : bool) : list string :=
  "layout"%string :: "{"%string :: sep_toks item_toks items semi
    ++ ["}"%string; ";"%string].

(** The items the parser takes: option keywords of the category of their
    box, a number within [0, INT_MAX], a [host] block that is not empty. *)
Definition box_valid (h : slant_h) (b : drawcat * list string) : bool :=
  forallb (is_opt (opts_of h (fst b))) (snd b).

Definition item_valid (h : slant_h) (it : litem) : bool :=
  match it with
  | LHeader => true
  | LErrlog num =>
      match snd (strtonum num 0 INT_MAX) with
      | None => true
      | Some _ => false
      end
  | LHost boxes _ =>
      match boxes with
      | [] => false
      | _ :: _ => forallb (box_valid h) boxes
      end
  end.

(** What the items make of the layout. *)
Definition box_of (h : slant_h) (b : drawcat * list string) : drawbox :=
  {| cat := fst b;
     args := fold_left Z.lor (flags_of (opts_of h (fst b)) (snd b))
               (init_args h (fst b)) |}.

Definition box_draw (h : slant_h) (d : draw) (b : drawcat * list string) : draw :=
  {| box := box d ++ [box_of h b]; header := header d; errlog := errlog d |}.

Definition item_draw (h : slant_h) (d : draw) (it : litem) : draw :=
  match it with
  | LHeader => {| box := box d; header := 1; errlog := errlog d |}
  | LErrlog num =>
      {| box := box d; header := header d;
         errlog := fst (strtonum num 0 INT_MAX) |}
  | LHost boxes _ => fold_left (box_draw h) boxes d
  end.

Definition layout_draw (h : slant_h) (items : list litem) : draw :=
  fold_left (item_draw h) items {| box := []; header := 0; errlog := 0 |}.

(** The boxes an item adds, and whether it is [header]. *)
Definition item_boxes (h : slant_h) (it : litem) : list drawbox :=
  match it with
  | LHost boxes _ => map (box_of h) boxes
  | _ => []
  end.

Definition is_header (it : litem) : bool :=
  match it with
  | LHeader => true
  | _ => false
  end.

(** The tokens of items that are each followed by a [;]. *)
Definition pre_toks (items : list litem) : list string :=
  flat_map (fun it => item_toks it ++ [";"%string]) items.

(** ** A configuration file, as a list of statements *)







(** ** Notions used to state what a parse that succeeds has read *)


(** The token at position [n] is [t]. *)
Definition at_tok (toks : list string) (n : nat) (t : string) : Prop :=
  exists r, skipn n toks = t :: r.

(** * Properties *)

(** ** The cursor seen as the list of remaining tokens *)

Section Cursor.

Context {A : Type}.
Implicit Types l : list A.

Lemma nth_error_skipn_hd l (n : nat) :
  nth_error l n = hd_error (skipn n l).
Proof.
  revert n. induction l as [|t l IH]; intros [|n]; simpl; auto.
Qed.

Lemma skipn_S_tl l (n : nat) : skipn (S n) l = tl (skipn n l).
Proof.
  revert n. induction l as [|t l IH]; intros [|n]; try reflexivity.
  exact (IH n).
Qed.

Lemma ltb_length_skipn l (n : nat) :
  (n <? length l)%nat = match skipn n l with [] => false | _ => true end.
Proof.
  revert n. induction l as [|t l IH]; intros [|n]; simpl; auto.
  rewrite <- IH. reflexivity.
Qed.

Lemma leb_length_skipn l (n : nat) :
  (length l <=? n)%nat = match skipn n l with [] => true | _ => false end.
Proof.
  rewrite Nat.leb_antisym, ltb_length_skipn. destruct (skipn n l); reflexivity.
Qed.

Lemma skipn_cons_lt l (n : nat) t l' : skipn n l = t :: l' -> (n < length l)%nat.
Proof.
  intros H. apply Nat.ltb_lt. rewrite ltb_length_skipn, H. reflexivity.
Qed.

Lemma skipn_add_app l (n : nat) (l1 l2 : list A) :
  skipn n l = l1 ++ l2 -> skipn (n + length l1) l = l2.
Proof.
  intros H. rewrite Nat.add_comm, <- skipn_skipn, H.
  rewrite skipn_app, skipn_all, Nat.sub_diag. reflexivity.
Qed.

End Cursor.

(** ** Running the cursor primitives

    Each primitive, run on an explicit state, as a function of the
    tokens that remain. *)

Arguments bind {A B} m k s /.
Arguments ret {A} a s /.
Arguments crash {A} f s /.
Arguments get s /.
Arguments assert b s /.
Arguments set_pos n s /.
Arguments set_cfg c s /.
Arguments warnx d s /.
Arguments pos_incr s /.
Arguments set_waittime w s /.
Arguments set_urls us s /.
Arguments set_draw d s /.
Arguments with_draw f s /.
Arguments with_b f s /.
Arguments b_set_cat c s /.
Arguments b_set_args v s /.
Arguments b_or_args flag s /.
Arguments box_append h s /.
Arguments at_pos n s /.
Arguments with_cfg c s /.
Arguments logged d s /.

Arguments tok_cur : simpl never.
Arguments tok_unknown : simpl never.
Arguments tok_nadv : simpl never.
Arguments tok_expect : simpl never.
Arguments tok_expect_adv : simpl never.
Arguments tok_eq : simpl never.
Arguments tok_eq_adv : simpl never.
Arguments tok_adv : simpl never.
Arguments in_range : simpl never.
Arguments server_args_cond : simpl never.
Arguments while_loop : simpl never.
Arguments server_args_body : simpl never.
Arguments servers_body : simpl never.
Arguments parse_waittime : simpl never.
Arguments parse_server_args : simpl never.
Arguments parse_servers : simpl never.
Arguments parse_opts : simpl never.
Arguments box_def : simpl never.
Arguments item_end : simpl never.
Arguments layout_host_body : simpl never.
Arguments parse_layout_host : simpl never.
Arguments layout_item : simpl never.
Arguments layout_body : simpl never.
Arguments parse_layout : simpl never.
Arguments statement : simpl never.
Arguments config_loop : simpl never.
Arguments config_cmdline : simpl never.
Arguments config_tokens : simpl never.
Arguments skipn : simpl never.
Arguments strtonum : simpl never.
Arguments String.eqb : simpl nomatch.

Section Run.

Variable toks : list string.


Lemma in_range_run n c lg :
  in_range toks (Build_state n c lg) =
  match skipn n toks with [] => false | _ => true end.
Proof. unfold in_range, toksz; cbn [pos]. apply ltb_length_skipn. Qed.

Lemma tok_cur_run n c lg :
  tok_cur toks (Build_state n c lg) =
  match skipn n toks with
  | t :: _ => Ret t (Build_state n c lg)
  | [] => Crash OutOfBounds
  end.
Proof.
  unfold tok_cur; cbn. rewrite nth_error_skipn_hd.
  destruct (skipn n toks); reflexivity.
Qed.

Lemma tok_unknown_run n c lg :
  tok_unknown toks (Build_state n c lg) =
  match skipn n toks with
  | t :: _ => Ret false (Build_state n c (lg ++ [unknown_token t]))
  | [] => Crash OutOfBounds
  end.
Proof.
  unfold tok_unknown; cbn. rewrite tok_cur_run.
  destruct (skipn n toks); reflexivity.
Qed.

Lemma tok_nadv_run n c lg :
  tok_nadv toks (Build_state n c lg) =
  match skipn n toks with
  | _ :: _ => Ret true (Build_state n c lg)
  | [] => Ret false (Build_state n c (lg ++ [unexpected_eof]))
  end.
Proof.
  unfold tok_nadv, toksz; cbn [bind get pos]. rewrite leb_length_skipn.
  destruct (skipn n toks); reflexivity.
Qed.

Lemma tok_expect_run v n c lg :
  tok_expect toks v (Build_state n c lg) =
  match skipn n toks with
  | t :: _ => if (t =? v)%string then Ret true (Build_state n c lg)
              else Ret false (Build_state n c (lg ++ [expected_have v t]))
  | [] => Ret false (Build_state n c (lg ++ [unexpected_eof]))
  end.
Proof.
  unfold tok_expect; cbn. rewrite tok_nadv_run.
  destruct (skipn n toks) eqn:E; cbn; [reflexivity|].
  rewrite tok_cur_run, E. destruct (_ =? _)%string; reflexivity.
Qed.

Lemma tok_expect_adv_run v n c lg :
  tok_expect_adv toks v (Build_state n c lg) =
  match skipn n toks with
  | t :: _ => if (t =? v)%string then Ret true (Build_state (S n) c lg)
              else Ret false (Build_state n c (lg ++ [expected_have v t]))
  | [] => Ret false (Build_state n c (lg ++ [unexpected_eof]))
  end.
Proof.
  unfold tok_expect_adv; cbn. rewrite tok_expect_run.
  destruct (skipn n toks); [reflexivity|].
  destruct (_ =? _)%string; reflexivity.
Qed.

Lemma tok_eq_run v n c lg :
  tok_eq toks v (Build_state n c lg) =
  match skipn n toks with
  | t :: _ => Ret (t =? v)%string (Build_state n c lg)
  | [] => Crash AssertFail
  end.
Proof.
  unfold tok_eq; cbn. rewrite in_range_run.
  destruct (skipn n toks) eqn:E; cbn; [reflexivity|].
  rewrite tok_cur_run, E. reflexivity.
Qed.

Lemma tok_eq_adv_run v n c lg :
  tok_eq_adv toks v (Build_state n c lg) =
  match skipn n toks with
  | t :: _ => if (t =? v)%string then Ret true (Build_state (S n) c lg)
              else Ret false (Build_state n c lg)
  | [] => Crash AssertFail
  end.
Proof.
  unfold tok_eq_adv; cbn. rewrite in_range_run.
  destruct (skipn n toks) eqn:E; cbn; [reflexivity|].
  rewrite tok_cur_run, E. destruct (_ =? _)%string; reflexivity.
Qed.

Lemma tok_adv_run n c lg :
  tok_adv toks (Build_state n c lg) = tok_nadv toks (Build_state (S n) c lg).
Proof. reflexivity. Qed.

Lemma server_args_cond_run n c lg :
  server_args_cond toks (Build_state n c lg) =
  match skipn n toks with
  | t :: _ => negb (t =? "}")%string
  | [] => false
  end.
Proof.
  unfold server_args_cond; cbn [pos]. rewrite nth_error_skipn_hd.
  destruct (skipn n toks); reflexivity.
Qed.

(** A loop entered with enough fuel for the tokens that remain. *)
Lemma while_loop_run {A R} (cond : A -> state -> bool)
    (body : A -> M (ctl A R)) (a : A) n c lg :
  while_loop toks cond body a (Build_state n c lg) =
  while_fuel (S (length (skipn n toks))) cond body a (Build_state n c lg).
Proof.
  unfold while_loop, toksz; cbn [pos]. now rewrite length_skipn.
Qed.

End Run.



(** Symbolic execution of straight-line code: [H] gives the tokens that
    remain at some position. *)
Ltac run_prims :=
  rewrite ?tok_adv_run;
  rewrite ?tok_cur_run, ?tok_unknown_run, ?tok_nadv_run, ?tok_expect_run,
    ?tok_expect_adv_run, ?tok_eq_run, ?tok_eq_adv_run, ?in_range_run,
    ?server_args_cond_run.

Ltac exec H :=
  repeat (progress (cbn; run_prims; rewrite ?skipn_S_tl; rewrite ?H; cbn [tl])).

Section Waittime.
Variable h : slant_h.
Variable toks : list string.

Lemma parse_waittime_ok n c lg N v rest :
  skipn n toks = N :: ";"%string :: rest ->
  strtonum N 15 INT_MAX = (v, None) ->
  parse_waittime toks {| pos := n; cfg := c; log := lg |} =
  Ret true {| pos := S (S n); cfg := cfg_waittime v c; log := lg |}.
Proof.
  intros H Hv. unfold parse_waittime. exec H. rewrite Hv. exec H.
  reflexivity.
Qed.

Lemma parse_waittime_bad n c lg N e rest :
  skipn n toks = N :: rest ->
  snd (strtonum N 15 INT_MAX) = Some e ->
  parse_waittime toks {| pos := n; cfg := c; log := lg |} =
  Ret false {| pos := n; cfg := cfg_waittime (fst (strtonum N 15 INT_MAX)) c;
               log := lg ++ [bad_global_waittime e] |}.
Proof.
  intros H Hv. unfold parse_waittime. exec H.
  destruct (strtonum N 15 INT_MAX) as [v er]. cbn in Hv. subst er. exec H.
  reflexivity.
Qed.
End Waittime.

(** ** Lists updated by index *)

Lemma list_upd_app {A} (l1 l2 : list A) (x : A) (f : A -> A) :
  list_upd (l1 ++ x :: l2) (length l1) f = l1 ++ f x :: l2.
Proof.
  induction l1 as [|y l1 IH]; cbn; [reflexivity|]. now rewrite IH.
Qed.

Lemma list_upd_last {A} (l : list A) (x : A) (f : A -> A) :
  list_upd (l ++ [x]) (length (l ++ [x]) - 1) f = l ++ [f x].
Proof.
  rewrite length_app; cbn. replace (length l + 1 - 1)%nat with (length l) by lia.
  apply list_upd_app.
Qed.

Lemma length_list_upd {A} (l : list A) i (f : A -> A) :
  length (list_upd l i f) = length l.
Proof.
  revert i; induction l as [|x l IH]; intros [|i]; cbn; auto.
Qed.

(** The [for] loop of [parse_server_args] rewrites the [k] entries that
    precede the last [i] ones. *)
Lemma apply_waittime_app (w : Z) (k : nat) :
  forall (i : nat) (old mid done : list nconfig),
    length mid = k -> length done = i ->
    apply_waittime k i w (old ++ mid ++ done) =
    old ++ map (fun u => {| url := url u; nwaittime := w |}) mid ++ done.
Proof.
  induction k as [|k IH]; intros i old mid done Hm Hd.
  - destruct mid; [reflexivity | discriminate].
  - destruct (exists_last (l := mid)) as [mid' [x ->]].
    { intros ->; discriminate. }
    rewrite length_app in Hm; cbn in Hm.
    cbn [apply_waittime].
    replace (length (old ++ (mid' ++ [x]) ++ done) - 1 - i)%nat
      with (length (old ++ mid')).
    2:{ rewrite !length_app; cbn. lia. }
    replace (old ++ (mid' ++ [x]) ++ done) with ((old ++ mid') ++ x :: done).
    2:{ rewrite <- !app_assoc. reflexivity. }
    rewrite list_upd_app.
    rewrite <- app_assoc.
    rewrite (IH (S i) old mid' (_ :: done)); cbn; try lia.
    rewrite map_app; cbn. rewrite <- !app_assoc. reflexivity.
Qed.

Lemma apply_waittime_last (w : Z) (old new : list nconfig) :
  apply_waittime (length new) 0 w (old ++ new) =
  old ++ map (fun u => {| url := url u; nwaittime := w |}) new.
Proof.
  rewrite <- (app_nil_r new) at 2.
  rewrite (apply_waittime_app w (length new) 0 old new []); auto.
  now rewrite app_nil_r.
Qed.

(** The [for] loop of [config_cmdline] fills the zeroed entries with the
    arguments, one by one. *)
Lemma cmdline_urls_app (rest : list string) :
  forall done : list string,
    cmdline_urls (length rest) (length done) (done ++ rest)
      (map (entry 0) done
         ++ repeat {| url := None; nwaittime := 0 |} (length rest)) =
    map (entry 0) (done ++ rest).
Proof.
  induction rest as [|a rest IH]; intros done; cbn [length cmdline_urls repeat].
  - now rewrite !app_nil_r.
  - match goal with
    | |- context [list_upd (?l1 ++ ?x :: ?l2) _ ?f] =>
        pose proof (list_upd_app l1 l2 x f) as Hu
    end.
    rewrite length_map in Hu. rewrite Hu. cbn [nwaittime].
    rewrite nth_error_app2, Nat.sub_diag by lia. cbn [nth_error].
    specialize (IH (done ++ [a])).
    rewrite length_app, map_app, <- !app_assoc in IH. cbn in IH.
    rewrite Nat.add_1_r in IH. exact IH.
Qed.

Lemma cmdline_urls_all (argv : list string) :
  cmdline_urls (length argv) 0 argv
    (repeat {| url := None; nwaittime := 0 |} (length argv)) =
  map (entry 0) argv.
Proof. exact (cmdline_urls_app argv []). Qed.

(** ** strtonum *)

Lemma strtonum_ok numstr lo hi v :
  strtonum numstr lo hi = (v, None) ->
  strtoll_all numstr = Some v /\ lo <= v <= hi.
Proof.
  unfold strtonum. destruct (hi <? lo); [discriminate|].
  destruct (strtoll_all numstr) as [ll|]; [|discriminate].
  destruct (ll <? lo) eqn:E1; [discriminate|].
  destruct (hi <? ll) eqn:E2; [discriminate|].
  intros [= ->]. apply Z.ltb_ge in E1, E2. auto.
Qed.

Lemma strtonum_in_range numstr lo hi v :
  strtoll_all numstr = Some v -> lo <= v <= hi ->
  strtonum numstr lo hi = (v, None).
Proof.
  intros E [H1 H2]. unfold strtonum. rewrite E.
  replace (hi <? lo) with false by (symmetry; apply Z.ltb_ge; lia).
  replace (v <? lo) with false by (symmetry; apply Z.ltb_ge; lia).
  replace (hi <? v) with false by (symmetry; apply Z.ltb_ge; lia).
  reflexivity.
Qed.

Lemma strtonum_small numstr lo hi v :
  lo <= hi -> strtoll_all numstr = Some v -> v < lo ->
  strtonum numstr lo hi = (0, Some too_small).
Proof.
  intros L E H. unfold strtonum. rewrite E.
  replace (hi <? lo) with false by (symmetry; apply Z.ltb_ge; lia).
  replace (v <? lo) with true by (symmetry; apply Z.ltb_lt; lia).
  reflexivity.
Qed.

Lemma strtonum_large numstr lo hi v :
  lo <= hi -> strtoll_all numstr = Some v -> hi < v ->
  strtonum numstr lo hi = (0, Some too_large).
Proof.
  intros L E H. unfold strtonum. rewrite E.
  replace (hi <? lo) with false by (symmetry; apply Z.ltb_ge; lia).
  replace (v <? lo) with false by (symmetry; apply Z.ltb_ge; lia).
  replace (hi <? v) with true by (symmetry; apply Z.ltb_lt; lia).
  reflexivity.
Qed.

Lemma strtonum_invalid numstr lo hi :
  strtoll_all numstr = None ->
  strtonum numstr lo hi = (0, Some invalid).
Proof.
  intros E. unfold strtonum. rewrite E. destruct (hi <? lo); reflexivity.
Qed.

(** ** The [servers] statement *)

Section Servers.

Variable toks : list string.

Lemma cfg_urls_id c : cfg_urls (urls c) c = c.
Proof. destruct c; reflexivity. Qed.

(** The loop of [parse_servers] on a run of host tokens closed by a
    terminator. *)
Lemma servers_loop hosts :
  forall fuel n c lg count term rest,
    skipn n toks = hosts ++ term :: rest ->
    is_terminator term = true ->
    Forall (fun t => is_terminator t = false) hosts ->
    (length hosts < fuel)%nat ->
    while_fuel fuel (fun _ => in_range toks) (servers_body toks) count
      (Build_state n c lg) =
    Ret (inl (count + length hosts)%nat)
      (Build_state (n + length hosts)
         (cfg_urls (urls c ++ map (entry 0) hosts) c) lg).
Proof.
  induction hosts as [|t hosts IH]; intros fuel n c lg count term rest H Ht Hh Hf.
  - destruct fuel as [|fuel]; [cbn in Hf; lia|].
    cbn in H. cbn [while_fuel]. unfold servers_body at 1. exec H.
    unfold is_terminator in Ht.
    rewrite app_nil_r, cfg_urls_id, !Nat.add_0_r.
    destruct (term =? ";")%string; exec H; [reflexivity|].
    cbn in Ht. rewrite Ht. reflexivity.
  - destruct fuel as [|fuel]; [cbn in Hf; lia|].
    cbn in H, Hf. inversion Hh as [|? ? Ht0 Hh']; subst.
    unfold is_terminator in Ht0. apply orb_false_iff in Ht0 as [T1 T2].
    cbn [while_fuel]. unfold servers_body at 1.
    exec H. rewrite T1. exec H. rewrite T2. exec H.
    rewrite list_upd_last. cbn [nwaittime].
    assert (H' : skipn (S n) toks = hosts ++ term :: rest).
    { rewrite skipn_S_tl, H. reflexivity. }
    rewrite (IH fuel (S n) _ lg (S count) term rest H' Ht); auto; try lia.
    cbn. rewrite <- app_assoc. cbn.
    replace (S (count + length hosts)) with (count + S (length hosts))%nat by lia.
    replace (S (n + length hosts)) with (n + S (length hosts))%nat by lia.
    reflexivity.
Qed.

Lemma server_arg_toks_head (items : list (string * bool)) rest :
  exists t l, flat_map server_arg_toks items ++ "}"%string :: rest = t :: l /\
              (t =? ";")%string = false.
Proof.
  destruct items as [|[num semi] items]; cbn; eauto.
Qed.

(** The loop of [parse_server_args] on a block of [waittime] items. *)
Lemma server_args_loop items :
  forall fuel n c lg w0 rest,
    skipn n toks = flat_map server_arg_toks items ++ "}"%string :: rest ->
    Forall (fun it => snd (strtonum (fst it) 15 INT_MAX) = None) items ->
    (length items < fuel)%nat ->
    while_fuel fuel (fun _ => server_args_cond toks) (server_args_body toks) w0
      (Build_state n c lg) =
    Ret (inl (fold_left (fun _ it => fst (strtonum (fst it) 15 INT_MAX)) items w0))
      (Build_state (n + length (flat_map server_arg_toks items)) c lg).
Proof.
  induction items as [|[num semi] items IH]; intros fuel n c lg w0 rest H Hi Hf.
  - destruct fuel as [|fuel]; [cbn in Hf; lia|].
    cbn in H. exec H. rewrite Nat.add_0_r. reflexivity.
  - destruct fuel as [|fuel]; [cbn in Hf; lia|].
    cbn in Hf. inversion Hi as [|? ? Hnum Hi']; subst. cbn [fst] in Hnum.
    cbn [fold_left fst]. cbn [flat_map] in *.
    destruct (strtonum num 15 INT_MAX) as [v er] eqn:Ev. cbn in Hnum. subst er.
    destruct semi; cbn in H.
    + cbn [while_fuel]. unfold server_args_body at 1. exec H. rewrite Ev. exec H.
      assert (H' : skipn (S (S (S n))) toks =
                   flat_map server_arg_toks items ++ "}"%string :: rest).
      { rewrite !skipn_S_tl, H. reflexivity. }
      rewrite (IH fuel _ c lg v rest H'); auto; try lia.
      f_equal; f_equal; cbn; rewrite ?length_app; cbn; lia.
    + destruct (server_arg_toks_head items rest) as [t [l [E Et]]].
      rewrite E in H.
      cbn [while_fuel]. unfold server_args_body at 1. exec H. rewrite Ev. exec H.
      rewrite Et. exec H.
      assert (H' : skipn (S (S n)) toks =
                   flat_map server_arg_toks items ++ "}"%string :: rest).
      { rewrite !skipn_S_tl, H, E. reflexivity. }
      rewrite (IH fuel _ c lg v rest H'); auto; try lia.
      f_equal; f_equal; cbn; rewrite ?length_app; cbn; lia.
Qed.

Lemma length_flat_map_server_args (items : list (string * bool)) :
  (length items <= length (flat_map server_arg_toks items))%nat.
Proof.
  induction items as [|it items IH]; cbn; [lia|].
  rewrite length_app. lia.
Qed.

Lemma parse_server_args_block items n c lg count rest :
  skipn n toks = flat_map server_arg_toks items ++ "}"%string :: rest ->
  Forall (fun it => snd (strtonum (fst it) 15 INT_MAX) = None) items ->
  (count <= length (urls c))%nat ->
  parse_server_args toks count (Build_state n c lg) =
  Ret true
    (Build_state (S (n + length (flat_map server_arg_toks items)))
       (if block_waittime items =? 0 then c
        else cfg_urls (apply_waittime count 0 (block_waittime items) (urls c)) c)
       lg).
Proof.
  intros H Hi Hc. unfold parse_server_args.
  cbn [bind]. rewrite while_loop_run.
  rewrite (server_args_loop items _ n c lg 0 rest H Hi).
  2:{ rewrite H, length_app. pose proof (length_flat_map_server_args items). lia. }
  fold (block_waittime items).
  assert (H' : skipn (n + length (flat_map server_arg_toks items)) toks = "}"%string :: rest).
  { apply skipn_add_app. exact H. }
  exec H'.
  apply Nat.leb_le in Hc. rewrite Hc. cbn.
  destruct (block_waittime items =? 0); reflexivity.
Qed.



Lemma parse_servers_block n c lg hosts items rest :
  skipn n toks =
    hosts ++ "{"%string :: flat_map server_arg_toks items
          ++ "}"%string :: ";"%string :: rest ->
  hosts <> [] ->
  Forall (fun t => is_terminator t = false) hosts ->
  Forall (fun it => snd (strtonum (fst it) 15 INT_MAX) = None) items ->
  parse_servers toks (Build_state n c lg) =
  Ret true
    (Build_state
       (n + length hosts + length (flat_map server_arg_toks items) + 3)
       (cfg_urls (urls c ++ map (entry (block_waittime items)) hosts) c) lg).
Proof.
  intros H Hne Hh Hi. unfold parse_servers. cbn [bind]. rewrite while_loop_run.
  rewrite (servers_loop hosts _ n c lg 0%nat "{"%string _ H); auto.
  2:{ rewrite H, length_app. cbn. lia. }
  assert (H1 : skipn (n + length hosts) toks =
               "{"%string :: flat_map server_arg_toks items
                 ++ "}"%string :: ";"%string :: rest).
  { apply skipn_add_app. exact H. }
  assert (H2 : skipn (S (n + length hosts)) toks =
               flat_map server_arg_toks items ++ "}"%string :: ";"%string :: rest).
  { rewrite skipn_S_tl, H1. reflexivity. }
  assert (H3 : skipn (S (S (n + length hosts)
                      + length (flat_map server_arg_toks items))) toks =
               [";"%string] ++ rest).
  { change (S (S (n + length hosts) + length (flat_map server_arg_toks items)))
      with (S (S (n + length hosts) + length (flat_map server_arg_toks items))).
    rewrite skipn_S_tl.
    rewrite (skipn_add_app _ _ _ _ H2). reflexivity. }
  assert (Hc : (0 + length hosts =? 0)%nat = false).
  { destruct hosts; [congruence | reflexivity]. }
  rewrite Hc. cbn [Nat.add].
  set (m := (n + length hosts)%nat) in *.
  set (k := length (flat_map server_arg_toks items)) in *.
  exec H1.
  rewrite (parse_server_args_block items _ _ lg (length hosts) _ H2 Hi).
  2:{ cbn. rewrite length_app, length_map. lia. }
  fold k.
  cbn [bind negb]. rewrite tok_expect_run, H3. cbn.
  f_equal. f_equal; [lia|].
  destruct (block_waittime items =? 0) eqn:E.
  - apply Z.eqb_eq in E. rewrite E. reflexivity.
  - cbn. rewrite <- (length_map (entry 0) hosts), apply_waittime_last, map_map.
    reflexivity.
Qed.

End Servers.

(** ** A weakest-precondition calculus for the parser monad *)

Section Hoare.

Variable toks : list string.

Lemma wp_ret {A} (a : A) (Q : A -> state -> Prop) s : Q a s -> wp (ret a) Q s.
Proof. intros H; exact H. Qed.

Lemma wp_bind {A B} (m : M A) (k : A -> M B) (Q : B -> state -> Prop) s :
  wp m (fun a s' => wp (k a) Q s') s -> wp (bind m k) Q s.
Proof.
  unfold wp, bind. destruct (m s) as [a s'|f]; auto.
Qed.

Lemma wp_mono {A} (m : M A) (Q Q' : A -> state -> Prop) s :
  wp m Q s -> (forall a s', Q a s' -> Q' a s') -> wp m Q' s.
Proof.
  unfold wp. destruct (m s) as [a s'|f]; auto.
Qed.

Lemma wp_ret_inv {A} (m : M A) (Q : A -> state -> Prop) s a s' :
  wp m Q s -> m s = Ret a s' -> Q a s'.
Proof. unfold wp. intros H E. now rewrite E in H. Qed.

Lemma wp_get (Q : state -> state -> Prop) s : Q s s -> wp get Q s.
Proof. intros H; exact H. Qed.

Lemma wp_warnx d (Q : unit -> state -> Prop) s :
  Q tt (logged d s) -> wp (warnx d) Q s.
Proof. intros H; exact H. Qed.

Lemma wp_pos_incr (Q : unit -> state -> Prop) s :
  Q tt (at_pos (S (pos s)) s) -> wp pos_incr Q s.
Proof. intros H; exact H. Qed.

Lemma wp_set_cfg c (Q : unit -> state -> Prop) s :
  Q tt (with_cfg c s) -> wp (set_cfg c) Q s.
Proof. intros H; exact H. Qed.

Lemma wp_set_waittime w (Q : unit -> state -> Prop) s :
  Q tt (with_cfg (cfg_waittime w (cfg s)) s) -> wp (set_waittime w) Q s.
Proof. intros H; exact H. Qed.

Lemma wp_set_urls us (Q : unit -> state -> Prop) s :
  Q tt (with_cfg (cfg_urls us (cfg s)) s) -> wp (set_urls us) Q s.
Proof. intros H; exact H. Qed.

Lemma wp_set_draw d (Q : unit -> state -> Prop) s :
  Q tt (with_cfg (cfg_draw d (cfg s)) s) -> wp (set_draw d) Q s.
Proof. intros H; exact H. Qed.

Lemma wp_with_draw f (Q : unit -> state -> Prop) s :
  (forall d, cdraw (cfg s) = Some d ->
             Q tt (with_cfg (cfg_draw (Some (f d)) (cfg s)) s)) ->
  wp (with_draw f) Q s.
Proof.
  unfold wp, with_draw. intros H.
  destruct (cdraw (cfg s)) as [d|]; [apply H; reflexivity | discriminate].
Qed.

Lemma wp_assert b (Q : unit -> state -> Prop) s :
  (b = true -> Q tt s) -> wp (assert b) Q s.
Proof.
  unfold wp, assert. destruct b; cbn; [auto | discriminate].
Qed.

Lemma wp_tok_cur (Q : string -> state -> Prop) s :
  (forall t, nth_error toks (pos s) = Some t -> Q t s) ->
  wp (tok_cur toks) Q s.
Proof.
  unfold wp, tok_cur. intros H.
  destruct (nth_error toks (pos s)); [auto | discriminate].
Qed.

Lemma nth_error_in_range s t :
  nth_error toks (pos s) = Some t -> (pos s < toksz toks)%nat.
Proof.
  intros H. apply nth_error_Some. congruence.
Qed.

Lemma wp_tok_unknown (Q : bool -> state -> Prop) s :
  (forall t, (pos s < toksz toks)%nat -> Q false (logged (unknown_token t) s)) ->
  wp (tok_unknown toks) Q s.
Proof.
  intros H. unfold tok_unknown. apply wp_bind, wp_tok_cur. intros t Ht.
  apply wp_bind, wp_warnx, wp_ret, H. eapply nth_error_in_range; eauto.
Qed.

Lemma wp_tok_nadv (Q : bool -> state -> Prop) s :
  ((pos s < toksz toks)%nat -> Q true s) ->
  ((toksz toks <= pos s)%nat -> Q false (logged unexpected_eof s)) ->
  wp (tok_nadv toks) Q s.
Proof.
  intros H1 H2. unfold tok_nadv. apply wp_bind, wp_get.
  destruct (Nat.leb_spec (toksz toks) (pos s)).
  - apply wp_bind, wp_warnx, wp_ret. auto.
  - apply wp_ret. auto.
Qed.

Lemma wp_tok_expect v (Q : bool -> state -> Prop) s :
  ((pos s < toksz toks)%nat -> Q true s) ->
  ((pos s < toksz toks)%nat -> forall t, Q false (logged (expected_have v t) s)) ->
  ((toksz toks <= pos s)%nat -> Q false (logged unexpected_eof s)) ->
  wp (tok_expect toks v) Q s.
Proof.
  intros H1 H2 H3. unfold tok_expect. apply wp_bind, wp_tok_nadv; intros Hr; cbn.
  - apply wp_bind, wp_tok_cur. intros t Ht.
    destruct (t =? v)%string; [apply wp_ret; auto|].
    apply wp_bind, wp_warnx, wp_ret. auto.
  - apply wp_ret. auto.
Qed.

Lemma wp_tok_expect_adv v (Q : bool -> state -> Prop) s :
  ((pos s < toksz toks)%nat -> Q true (at_pos (S (pos s)) s)) ->
  ((pos s < toksz toks)%nat -> forall t, Q false (logged (expected_have v t) s)) ->
  ((toksz toks <= pos s)%nat -> Q false (logged unexpected_eof s)) ->
  wp (tok_expect_adv toks v) Q s.
Proof.
  intros H1 H2 H3. unfold tok_expect_adv.
  apply wp_bind, wp_tok_expect; intros; try intros ?.
  - apply wp_bind, wp_pos_incr, wp_ret. auto.
  - apply wp_ret. auto.
  - apply wp_ret. auto.
Qed.

Lemma wp_tok_eq v (Q : bool -> state -> Prop) s :
  ((pos s < toksz toks)%nat -> forall b, Q b s) ->
  wp (tok_eq toks v) Q s.
Proof.
  intros H. unfold tok_eq. apply wp_bind, wp_get, wp_bind, wp_assert.
  intros Hr. apply Nat.ltb_lt in Hr.
  apply wp_bind, wp_tok_cur. intros t _. apply wp_ret. auto.
Qed.

Lemma wp_tok_eq_adv v (Q : bool -> state -> Prop) s :
  ((pos s < toksz toks)%nat -> Q true (at_pos (S (pos s)) s)) ->
  ((pos s < toksz toks)%nat -> Q false s) ->
  wp (tok_eq_adv toks v) Q s.
Proof.
  intros H1 H2. unfold tok_eq_adv. apply wp_bind, wp_get, wp_bind, wp_assert.
  intros Hr. apply Nat.ltb_lt in Hr.
  apply wp_bind, wp_tok_cur. intros t _.
  destruct (t =? v)%string.
  - apply wp_bind, wp_pos_incr, wp_ret. auto.
  - apply wp_ret. auto.
Qed.

Lemma wp_tok_adv (Q : bool -> state -> Prop) s :
  wp (tok_nadv toks) Q (at_pos (S (pos s)) s) -> wp (tok_adv toks) Q s.
Proof.
  intros H. unfold tok_adv. apply wp_bind, wp_pos_incr. exact H.
Qed.

(** Loops: an invariant that every iteration which goes on keeps while
    advancing the cursor. *)
Lemma wp_while_fuel {A R} (cond : A -> state -> bool)
    (body : A -> M (ctl A R)) (I : A -> state -> Prop)
    (Q : A + R -> state -> Prop) :
  (forall a s, I a s -> cond a s = true ->
     (pos s < toksz toks)%nat /\
     wp (body a)
       (fun c s' => match c with
                    | Next a' => I a' s' /\ (pos s < pos s')%nat
                    | Break a' => Q (inl a') s'
                    | Return r => Q (inr r) s'
                    end) s) ->
  (forall a s, I a s -> cond a s = false -> Q (inl a) s) ->
  forall fuel a s, (toksz toks - pos s < fuel)%nat -> I a s ->
    wp (while_fuel fuel cond body a) Q s.
Proof.
  intros Hbody Hexit. induction fuel as [|fuel IH]; intros a s Hf Hi; [lia|].
  unfold wp. cbn [while_fuel].
  destruct (cond a s) eqn:Ec; [|apply Hexit; auto].
  destruct (Hbody a s Hi Ec) as [Hr Hb]. unfold wp in Hb.
  destruct (body a s) as [[a'|a'|r] s'|f]; auto.
  destruct Hb as [Hi' Hlt]. apply IH; auto. lia.
Qed.

Lemma wp_while {A R} (cond : A -> state -> bool)
    (body : A -> M (ctl A R)) (I : A -> state -> Prop)
    (Q : A + R -> state -> Prop) :
  (forall a s, I a s -> cond a s = true ->
     (pos s < toksz toks)%nat /\
     wp (body a)
       (fun c s' => match c with
                    | Next a' => I a' s' /\ (pos s < pos s')%nat
                    | Break a' => Q (inl a') s'
                    | Return r => Q (inr r) s'
                    end) s) ->
  (forall a s, I a s -> cond a s = false -> Q (inl a) s) ->
  forall a s, I a s -> wp (while_loop toks cond body a) Q s.
Proof.
  intros Hbody Hexit a s Hi. unfold while_loop.
  eapply wp_while_fuel; eauto.
Qed.

(** Once the body is known to advance, fuel beyond [toksz - pos] is not
    looked at. *)
Lemma while_fuel_enough {A R} (cond : A -> state -> bool)
    (body : A -> M (ctl A R)) :
  (forall a s, cond a s = true ->
     (pos s < toksz toks)%nat /\
     wp (body a)
       (fun c s' => match c with
                    | Next _ => (pos s < pos s')%nat
                    | _ => True
                    end) s) ->
  forall f1 f2 a s,
    (toksz toks - pos s < f1)%nat -> (toksz toks - pos s < f2)%nat ->
    while_fuel f1 cond body a s = while_fuel f2 cond body a s.
Proof.
  intros Hbody. induction f1 as [|f1 IH]; intros f2 a s H1 H2; [lia|].
  destruct f2 as [|f2]; [lia|]. cbn [while_fuel].
  destruct (cond a s) eqn:Ec; [|reflexivity].
  destruct (Hbody a s Ec) as [Hr Hb]. unfold wp in Hb.
  destruct (body a s) as [[a'|a'|r] s'|f]; auto.
  apply IH; lia.
Qed.

End Hoare.

(** ** Unions of flags *)

Lemma fold_lor_testbit (l : list Z) (a : Z) (i : Z) :
  Z.testbit (fold_left Z.lor l a) i =
  Z.testbit a i || existsb (fun f => Z.testbit f i) l.
Proof.
  revert a; induction l as [|f l IH]; intros a; cbn.
  - now rewrite orb_false_r.
  - rewrite IH, Z.lor_spec, orb_assoc. reflexivity.
Qed.

Lemma or_all_testbit (l : list Z) (i : Z) :
  Z.testbit (or_all l) i = existsb (fun f => Z.testbit f i) l.
Proof.
  unfold or_all. rewrite fold_lor_testbit, Z.bits_0. reflexivity.
Qed.

Lemma land_or_all_in (l : list Z) (f : Z) :
  In f l -> Z.land f (or_all l) = f.
Proof.
  intros Hin. apply Z.bits_inj'. intros i _.
  rewrite Z.land_spec, or_all_testbit.
  destruct (Z.testbit f i) eqn:E; [|reflexivity]. cbn.
  apply existsb_exists. eauto.
Qed.

Lemma land_lor_mask (a f m : Z) :
  Z.land a m = a -> Z.land f m = f -> Z.land (Z.lor a f) m = Z.lor a f.
Proof.
  intros Ha Hf. rewrite Z.land_lor_distr_l, Ha, Hf. reflexivity.
Qed.

Section Legal.

Variable h : slant_h.

Lemma box_legal_or (k : drawcat) (f : Z) (b : drawbox) :
  In f (map snd (opts_of h k)) ->
  cat b = k -> box_legal h b = true ->
  box_legal h {| cat := cat b; args := Z.lor (args b) f |} = true.
Proof.
  intros Hin Hk Hb. unfold box_legal in *. cbn [cat args].
  rewrite Hk in *.
  assert (Hf : Z.land f (legal_mask h k) = f) by (apply land_or_all_in; exact Hin).
  destruct k; try (apply Z.eqb_eq; apply Z.eqb_eq in Hb; apply land_lor_mask; assumption).
  destruct Hin.
Qed.

Lemma box_legal_fresh (k : drawcat) :
  box_legal h {| cat := k; args := init_args h k |} = true.
Proof.
  unfold box_legal; destruct k; cbn; try reflexivity. apply Z.eqb_refl.
Qed.

Lemma box_open_legal k c : box_open h k c -> boxes_legal h c.
Proof.
  intros (d & bs & b & Hd & Hb & Hbs & _ & Hl).
  unfold boxes_legal, cfg_legal. rewrite Hd, Hb, forallb_app, Hbs. cbn.
  now rewrite Hl.
Qed.

Lemma last_box_mono (Pb Pb' : drawbox -> Prop) c :
  (forall b, Pb b -> Pb' b) -> last_box h Pb c -> last_box h Pb' c.
Proof.
  intros H (d & bs & b & Hd & Hb & Hbs & HP). exists d, bs, b. auto.
Qed.

(** An update through [b]. *)
Lemma last_box_upd (Pb : drawbox -> Prop) (f : drawbox -> drawbox) c d :
  last_box h Pb c -> cdraw c = Some d ->
  last_box h (fun b' => exists b, Pb b /\ b' = f b)
    (cfg_draw (Some {| box := list_upd (box d) (length (box d) - 1) f;
                       header := header d; errlog := errlog d |}) c).
Proof.
  intros (d' & bs & b & Hd & Hb & Hbs & HP) E.
  rewrite E in Hd. injection Hd as <-.
  exists {| box := list_upd (box d) (length (box d) - 1) f;
            header := header d; errlog := errlog d |}, bs, (f b).
  cbn. rewrite Hb, list_upd_last. repeat split; eauto.
Qed.

(** [box_append] after complete boxes. *)
Lemma box_pending_append c d :
  boxes_legal h c -> cdraw c = Some d ->
  box_pending h
    (cfg_draw (Some {| box := box d ++ [{| cat := DRAWCAT_zero h; args := 0 |}];
                       header := header d; errlog := errlog d |}) c).
Proof.
  unfold boxes_legal, cfg_legal. intros HL E. rewrite E in HL.
  eexists _, (box d), _. cbn. repeat split; eauto.
Qed.

(** An update of [cfg->draw] that leaves the boxes alone. *)
Lemma boxes_legal_same_box c d d' :
  boxes_legal h c -> cdraw c = Some d -> box d' = box d ->
  boxes_legal h (cfg_draw (Some d') c).
Proof.
  unfold boxes_legal, cfg_legal. intros HL E Hb. rewrite E in HL. cbn.
  now rewrite Hb.
Qed.

Lemma boxes_legal_cdraw c c' :
  cdraw c' = cdraw c -> boxes_legal h c -> boxes_legal h c'.
Proof.
  unfold boxes_legal, cfg_legal. now intros ->.
Qed.

End Legal.

(** ** What every piece of the parser guarantees *)

Ltac wp_step :=
  cbn [negb];
  lazymatch goal with
  | |- wp (bind _ _) _ _ => apply wp_bind
  | |- wp (ret _) _ _ => apply wp_ret
  | |- wp get _ _ => apply wp_get
  | |- wp (warnx _) _ _ => apply wp_warnx
  | |- wp pos_incr _ _ => apply wp_pos_incr
  | |- wp (set_waittime _) _ _ => apply wp_set_waittime
  | |- wp (set_urls _) _ _ => apply wp_set_urls
  | |- wp (set_draw _) _ _ => apply wp_set_draw
  | |- wp (with_draw _) _ _ => apply wp_with_draw; intros ? ?
  | |- wp (b_or_args _) _ _ => unfold b_or_args, with_b
  | |- wp (b_set_cat _) _ _ => unfold b_set_cat, with_b
  | |- wp (b_set_args _) _ _ => unfold b_set_args, with_b
  | |- wp (box_append _) _ _ => unfold box_append
  | |- wp (assert _) _ _ => apply wp_assert; intros ?
  | |- wp (tok_cur _) _ _ => apply wp_tok_cur; intros ? ?
  | |- wp (tok_unknown _) _ _ => apply wp_tok_unknown; intros ? ?
  | |- wp (tok_nadv _) _ _ => apply wp_tok_nadv; intros ?
  | |- wp (tok_adv _) _ _ => apply wp_tok_adv
  | |- wp (tok_expect _ _) _ _ => apply wp_tok_expect; [intros ? | intros ? ? | intros ?]
  | |- wp (tok_expect_adv _ _) _ _ =>
      apply wp_tok_expect_adv; [intros ? | intros ? ? | intros ?]
  | |- wp (tok_eq _ _) _ _ => apply wp_tok_eq; intros ? [|]
  | |- wp (tok_eq_adv _ _) _ _ => apply wp_tok_eq_adv; intros ?
  | |- wp (if negb ?b then _ else _) _ _ => is_var b; destruct b
  | |- wp (if ?b then _ else _) _ _ =>
      lazymatch b with
      | true => fail
      | false => fail
      | _ => destruct b
      end
  | |- wp (let (_, _) := ?x in _) _ _ => destruct x
  | |- wp (match ?x with _ => _ end) _ _ => destruct x
  end.

Ltac wp_run := repeat wp_step.

Ltac post_simpl :=
  unfold post in *;
  cbn [pos cfg log at_pos logged with_cfg cfg_waittime cfg_urls cfg_draw
       urls waittime cdraw opt_ok ctl_ok is_next is_unknown] in *;
  unfold in_range in *;
  repeat match goal with
         | H : (_ <? _)%nat = true |- _ => apply Nat.ltb_lt in H
         | H : (_ <? _)%nat = false |- _ => apply Nat.ltb_ge in H
         end.

Ltac post_leaf :=
  post_simpl;
  repeat match goal with
         | H : true = false |- _ => discriminate H
         | H : false = true |- _ => discriminate H
         | H : _ /\ _ |- _ => destruct H
         | H : exists _, _ |- _ => destruct H
         | |- _ /\ _ => split
         | |- (_ <= _)%nat => lia
         | |- (_ < _)%nat => lia
         | |- exists d, _ = _ ++ [d] /\ _ =>
             eexists; split;
             [ first [ reflexivity
                     | repeat match goal with
                              | H : log _ = _ |- _ => rewrite H
                              end; reflexivity ]
             | cbn; intros; first [discriminate | lia | auto] ]
         | |- _ = _ => first [reflexivity | congruence]
         | |- _ <> _ => first [discriminate | congruence]
         | |- _ -> _ => intros
         | H : Some _ <> None -> _ |- _ =>
             specialize (H ltac:(discriminate))
         | H : ?x = ?x -> _ |- _ => specialize (H eq_refl)
         | |- if ?b then _ else _ => is_var b; destruct b
         | H : if ?b then _ else _ |- _ => is_var b; destruct b
         | H : ?A -> _, H' : ?A |- _ =>
             match type of A with Prop => specialize (H H') end
         | H : _ \/ _ |- _ => destruct H
         end.

(** A call of a piece of the parser whose specification is [spec]. *)
Ltac wp_call spec :=
  eapply wp_mono; [apply spec | cbv beta; intros ? ? ?].

Section Specs.

Variable h : slant_h.
Variable toks : list string.

Local Notation "'L'" := (boxes_legal h).

Lemma post_refl P s : post toks P P s true s.
Proof. post_simpl. intuition. Qed.

Lemma post_trans P1 P2 P3 s s1 s2 ok :
  post toks P1 P2 s true s1 -> post toks P2 P3 s1 ok s2 ->
  post toks P1 P3 s ok s2.
Proof.
  post_simpl. intros (A1 & A2 & A3 & A4) (B1 & B2 & B3 & B4).
  repeat split.
  - lia.
  - destruct ok; [congruence|].
    destruct B2 as (d & E & U). exists d. split; [congruence | exact U].
  - auto.
  - intros HP. destruct (A4 HP) as [H2|[H2 _]]; [auto | discriminate].
Qed.

Lemma post_weaken (P P' P'' : config -> Prop) s ok s' :
  (forall c, P' c -> P'' c) ->
  post toks P P' s ok s' -> post toks P P'' s ok s'.
Proof.
  post_simpl. intros H (A1 & A2 & A3 & A4). repeat split; auto.
  intros HP. destruct (A4 HP); auto.
Qed.

(** A loop whose body keeps [P]. *)
Lemma wp_while_post {A} (P : config -> Prop) (cond : A -> state -> bool)
    (body : A -> M (ctl A bool)) :
  (forall a s, cond a s = true -> (pos s < toksz toks)%nat) ->
  (forall a s,
     wp (body a)
       (fun c s' => post toks P P s (ctl_ok c) s' /\
                    (is_next c = true -> (pos s < pos s')%nat)) s) ->
  forall a0 s0,
    wp (while_loop toks cond body a0)
      (fun r s' => post toks P P s0
                     (match r with inl _ => true | inr r => r end) s') s0.
Proof.
  intros Hc Hb a0 s0.
  apply (wp_while toks cond body (fun _ s => post toks P P s0 true s)).
  - intros a s Hi Ec. split; [eauto|].
    eapply wp_mono; [apply Hb|]. intros [a'|a'|r] s' [Hp Hn]; cbn in *.
    + split; [eapply post_trans; eauto | auto].
    + eapply post_trans; eauto.
    + eapply post_trans; eauto.
  - auto.
  - apply post_refl.
Qed.

Lemma in_range_lt s : in_range toks s = true -> (pos s < toksz toks)%nat.
Proof. unfold in_range. apply Nat.ltb_lt. Qed.

Lemma spec_parse_waittime s :
  wp (parse_waittime toks) (fun r s' => post toks L L s r s') s.
Proof.
  unfold parse_waittime. wp_run; post_leaf; auto.
Qed.

(** *** [servers] *)

Lemma spec_server_args_body w s :
  wp (server_args_body toks w)
    (fun c s' => post toks L L s (ctl_ok c) s' /\
                 (is_next c = true -> (pos s < pos s')%nat)) s.
Proof.
  unfold server_args_body. wp_run; post_leaf; auto.
Qed.

Lemma server_args_cond_lt s :
  server_args_cond toks s = true -> (pos s < toksz toks)%nat.
Proof.
  unfold server_args_cond. destruct (nth_error toks (pos s)) eqn:E; [|discriminate].
  intros _. eapply nth_error_in_range; eauto.
Qed.

Lemma spec_parse_server_args count s :
  wp (parse_server_args toks count) (fun r s' => post toks L L s r s') s.
Proof.
  unfold parse_server_args. apply wp_bind.
  wp_call (wp_while_post L (fun _ : Z => server_args_cond toks)
             (server_args_body toks)
             (fun _ => server_args_cond_lt) spec_server_args_body).
  destruct a; [|apply wp_ret; assumption].
  wp_run; post_leaf; auto.
Qed.

Lemma spec_servers_body count s :
  wp (servers_body toks count)
    (fun c s' => post toks L L s (ctl_ok c) s' /\
                 (is_next c = true -> (pos s < pos s')%nat)) s.
Proof.
  unfold servers_body. wp_run; post_leaf; auto; try discriminate.
Qed.

Lemma spec_parse_servers s :
  wp (parse_servers toks) (fun r s' => post toks L L s r s') s.
Proof.
  unfold parse_servers. apply wp_bind.
  wp_call (wp_while_post L (fun _ : nat => in_range toks)
             (servers_body toks)
             (fun _ => in_range_lt) spec_servers_body).
  destruct a as [count|r]; [|apply wp_ret; assumption].
  wp_run.
  all: try solve [post_leaf; auto].
  all: wp_call spec_parse_server_args.
  all: wp_run; post_leaf; auto.
Qed.

(** *** [layout] *)

(** Chains of updates through [b]. *)
Ltac last_box_chain :=
  unfold box_pending, box_open in *;
  repeat match goal with
         | H : last_box h ?P ?c |- context [list_upd (box ?d) _ ?f] =>
             let E := fresh "E" in
             let H' := fresh "Hlb" in
             assert (E : cdraw c = Some d)
               by (first [assumption | cbn; assumption]);
             pose proof (last_box_upd h P f c d H E) as H';
             clear H E
         end;
  try (eapply last_box_mono; [|eassumption]; cbv beta;
       intros; repeat match goal with
                      | H : exists _, _ |- _ => destruct H
                      | H : _ /\ _ |- _ => destruct H
                      | H : ?x = _ |- _ =>
                          is_var x;
                          match type of x with drawbox => subst x end
                      end; cbn [cat args]).

Lemma spec_opt_chain k tbl s :
  (forall kw f, In (kw, f) tbl -> In f (map snd (opts_of h k))) ->
  wp (opt_chain toks tbl)
    (fun c s' => post toks (box_open h k) (box_open h k) s (ctl_ok c) s' /\
                 (is_next c = true -> (pos s < pos s')%nat)) s.
Proof.
  induction tbl as [|[kw f] tbl IH]; intros Hin; cbn [opt_chain].
  - wp_run; post_leaf; auto; discriminate.
  - apply wp_bind, wp_tok_eq_adv; intros Hr; cbn.
    + wp_run. post_leaf; try discriminate. left. last_box_chain.
      split; [assumption|]. eapply box_legal_or; eauto.
      apply (Hin kw f). left; reflexivity.
    + apply IH. intros kw' f' H'. apply (Hin kw' f'). right; exact H'.
Qed.

Lemma spec_parse_opts k s :
  wp (parse_opts toks (opts_of h k))
    (fun o s' => post toks (box_open h k) (box_open h k) s (opt_ok o) s') s.
Proof.
  unfold parse_opts. apply wp_bind.
  wp_call (wp_while_post (box_open h k) (fun _ : unit => in_range toks)
             (fun _ => opt_chain toks (opts_of h k))
             (fun _ => in_range_lt)
             (fun _ s => spec_opt_chain k (opts_of h k) s
                (fun kw f H => in_map snd _ _ H))).
  destruct a as [[]|r]; apply wp_ret; assumption.
Qed.

(** One branch of [box_def], from the update of [b->cat] on. *)
Ltac box_branch k :=
  wp_run; wp_call (spec_parse_opts k);
  post_leaf; auto;
  match goal with
  | H : box_open h k ?c -> _ |- _ =>
      let HP := fresh "HP" in
      assert (HP : box_open h k c);
      [ last_box_chain; split; [reflexivity | exact (box_legal_fresh h k)]
      | destruct (H HP) as [?|[? ?]];
        [ left; eapply box_open_legal; eassumption | right; auto ] ]
  end.

Lemma spec_box_def s :
  wp (box_def h toks)
    (fun o s' => post toks (box_pending h) L s (opt_ok o) s' /\
                 (o = None -> (pos s < pos s')%nat)) s.
Proof.
  unfold box_def.
  apply wp_bind, wp_tok_eq_adv; intros ?; cbv beta iota.
  { box_branch DRAWCAT_CPU. }
  apply wp_bind, wp_tok_eq_adv; intros ?; cbv beta iota.
  { box_branch DRAWCAT_MEM. }
  apply wp_bind, wp_tok_eq_adv; intros ?; cbv beta iota.
  { box_branch DRAWCAT_NET. }
  apply wp_bind, wp_tok_eq_adv; intros ?; cbv beta iota.
  { box_branch DRAWCAT_DISC. }
  apply wp_bind, wp_tok_eq_adv; intros ?; cbv beta iota.
  { box_branch DRAWCAT_LINK. }
  apply wp_bind, wp_tok_eq_adv; intros ?; cbv beta iota.
  { box_branch DRAWCAT_HOST. }
  apply wp_bind, wp_tok_eq_adv; intros ?; cbv beta iota.
  { box_branch DRAWCAT_PROCS. }
  apply wp_bind, wp_tok_eq_adv; intros ?; cbv beta iota.
  { box_branch DRAWCAT_RPROCS. }
  apply wp_bind, wp_tok_eq_adv; intros ?; cbv beta iota.
  { box_branch DRAWCAT_FILES. }
  wp_run; post_leaf; auto; discriminate.
Qed.

Lemma spec_item_end (P : config -> Prop) s :
  wp (item_end toks) (fun c s' => post toks P P s (ctl_ok c) s') s.
Proof.
  unfold item_end. wp_run; post_leaf; auto.
Qed.

Lemma spec_layout_host_body s :
  wp (layout_host_body h toks)
    (fun c s' => post toks L L s (ctl_ok c) s' /\
                 (is_next c = true -> (pos s < pos s')%nat)) s.
Proof.
  unfold layout_host_body. apply wp_bind. unfold box_append.
  apply wp_with_draw. intros d E. apply wp_bind.
  wp_call spec_box_def.
  pose proof (fun HL => box_pending_append h (cfg s) d HL E) as HP.
  destruct a as [r|]; [apply wp_ret | wp_call (spec_item_end L)].
  - post_leaf; auto.
  - destruct a; post_leaf; auto; try discriminate.
Qed.

Lemma spec_parse_layout_host s :
  wp (parse_layout_host h toks) (fun r s' => post toks L L s r s') s.
Proof.
  unfold parse_layout_host.
  apply wp_bind, wp_tok_expect_adv; [intros ? | intros ? ? | intros ?];
    cbn [negb]; try solve [wp_run; post_leaf; auto].
  apply wp_bind, wp_tok_eq; intros ? [|]; [wp_run; post_leaf; auto|].
  apply wp_bind.
  wp_call (wp_while_post L (fun _ : unit => in_range toks)
             (fun _ => layout_host_body h toks)
             (fun _ => in_range_lt) (fun _ => spec_layout_host_body)).
  destruct a as [[]|r]; [|apply wp_ret; post_leaf; auto].
  wp_run; post_leaf; auto.
Qed.

Lemma spec_layout_item s :
  wp (layout_item h toks)
    (fun o s' => post toks L L s (opt_ok o) s' /\
                 (o = None -> (pos s < pos s')%nat)) s.
Proof.
  unfold layout_item. wp_run.
  all: try wp_call spec_parse_layout_host.
  all: wp_run; post_leaf; auto; try discriminate.
  all: try (left; eapply boxes_legal_same_box; eauto).
Qed.

Lemma spec_layout_body s :
  wp (layout_body h toks)
    (fun c s' => post toks L L s (ctl_ok c) s' /\
                 (is_next c = true -> (pos s < pos s')%nat)) s.
Proof.
  unfold layout_body. apply wp_bind. wp_call spec_layout_item.
  destruct a as [r|]; [apply wp_ret | wp_call (spec_item_end L)].
  - post_leaf; auto; discriminate.
  - destruct a; post_leaf; auto; try discriminate.
Qed.

Lemma spec_parse_layout s :
  wp (parse_layout h toks) (fun r s' => post toks L L s r s') s.
Proof.
  unfold parse_layout.
  apply wp_bind, wp_tok_expect_adv; [intros ? | intros ? ? | intros ?];
    cbn [negb]; try solve [wp_run; post_leaf; auto].
  apply wp_bind, wp_tok_eq_adv; intros ?; [wp_run; post_leaf; auto|].
  apply wp_bind, wp_get. cbv beta.
  destruct (cdraw (cfg (at_pos (S (pos s)) s))) eqn:Ed;
    [wp_run; post_leaf; auto|].
  apply wp_bind, wp_set_draw, wp_bind.
  wp_call (wp_while_post L (fun _ : unit => in_range toks)
             (fun _ => layout_body h toks)
             (fun _ => in_range_lt) (fun _ => spec_layout_body)).
  all: match goal with
       | H : post _ _ _ _ _ _ |- _ =>
           destruct H as (Hp1 & Hp2 & Hp3 & Hp4);
           specialize (Hp4 eq_refl)
       end.
  all: destruct a as [[]|r]; [|apply wp_ret; post_leaf; auto].
  all: wp_run; post_leaf; auto.
Qed.

(** *** The top level *)

Lemma spec_statement s :
  wp (statement h toks)
    (fun c s' => post toks L L s (is_next c) s' /\
                 (is_next c = true -> (pos s < pos s')%nat) /\
                 (forall r, c <> Return r)) s.
Proof.
  unfold statement.
  apply wp_bind, wp_tok_eq_adv; intros ?; cbv beta iota.
  { apply wp_bind. wp_call spec_parse_servers. wp_run; post_leaf; auto; discriminate. }
  apply wp_bind, wp_tok_eq_adv; intros ?; cbv beta iota.
  { apply wp_bind. wp_call spec_parse_layout. wp_run; post_leaf; auto; discriminate. }
  apply wp_bind, wp_tok_eq_adv; intros ?; cbv beta iota.
  { apply wp_bind. wp_call spec_parse_waittime. wp_run; post_leaf; auto; discriminate. }
  wp_run; post_leaf; auto; discriminate.
Qed.

Lemma spec_config_loop s :
  wp (config_loop h toks) (fun _ s' => exists ok, post toks L L s ok s') s.
Proof.
  unfold config_loop.
  apply (wp_while toks _ _ (fun _ s1 => post toks L L s true s1)).
  - intros [] s1 Hi Ec. split; [apply in_range_lt; exact Ec|].
    wp_call spec_statement. destruct H as (Hp & Hn & Hr).
    destruct a as [[]|[]|r]; cbn in *.
    + split; [eapply post_trans; eauto | auto].
    + exists false. eapply post_trans; eauto.
    + destruct (Hr r eq_refl).
  - intros [] s1 Hi _. exists true. exact Hi.
  - apply post_refl.
Qed.

End Specs.

(** ** Loops seen as sequences of iterations *)

Lemma while_fuel_next {A R} (cond : A -> state -> bool)
    (body : A -> M (ctl A R)) f a a' s s' :
  cond a s = true -> body a s = Ret (Next a') s' ->
  while_fuel (S f) cond body a s = while_fuel f cond body a' s'.
Proof. intros Hc Hb. cbn [while_fuel]. now rewrite Hc, Hb. Qed.

Section Iterate.

Variable toks : list string.
Variable body : M (ctl unit bool).

(** The body advances the cursor when it asks for another iteration. *)
Hypothesis body_advances :
  forall s, wp body (fun c s' => is_next c = true -> (pos s < pos s')%nat) s.

Let loop := while_loop toks (fun _ : unit => in_range toks) (fun _ => body) tt.

Lemma body_progress :
  forall (a : unit) s, in_range toks s = true ->
    (pos s < toksz toks)%nat /\
    wp body
      (fun c s' => match c with
                   | Next _ => (pos s < pos s')%nat
                   | _ => True
                   end) s.
Proof.
  intros _ s Hr. split; [apply in_range_lt; exact Hr|].
  eapply wp_mono; [apply body_advances|].
  intros [[]|[]|r] s' Hn; cbn in *; auto.
Qed.

Lemma loop_next s s' :
  in_range toks s = true -> body s = Ret (Next tt) s' -> loop s = loop s'.
Proof.
  intros Hr E.
  pose proof (wp_ret_inv _ _ _ _ _ (body_advances s) E eq_refl) as Hlt.
  pose proof (in_range_lt toks s Hr) as Hs.
  unfold loop, while_loop.
  rewrite (while_fuel_next _ _ _ tt tt s s' Hr E).
  apply (while_fuel_enough toks _ _ body_progress); lia.
Qed.

Lemma loop_iterates s s' : iterates toks body s s' -> loop s = loop s'.
Proof.
  induction 1 as [|s s1 s2 Hr E _ IH]; [reflexivity|].
  rewrite <- IH. apply loop_next; assumption.
Qed.

Lemma loop_break s s' :
  in_range toks s = true -> body s = Ret (Break tt) s' ->
  loop s = Ret (inl tt) s'.
Proof.
  intros Hr E. unfold loop, while_loop. cbn [while_fuel]. now rewrite Hr, E.
Qed.

Lemma loop_return s s' r :
  in_range toks s = true -> body s = Ret (Return r) s' ->
  loop s = Ret (inr r) s'.
Proof.
  intros Hr E. unfold loop, while_loop. cbn [while_fuel]. now rewrite Hr, E.
Qed.

Lemma loop_crash s f :
  in_range toks s = true -> body s = Crash f -> loop s = Crash f.
Proof.
  intros Hr E. unfold loop, while_loop. cbn [while_fuel]. now rewrite Hr, E.
Qed.

Lemma loop_eof s : in_range toks s = false -> loop s = Ret (inl tt) s.
Proof.
  intros Hr. unfold loop, while_loop. cbn [while_fuel]. now rewrite Hr.
Qed.

Lemma iterates_trans s1 s2 s3 :
  iterates toks body s1 s2 -> iterates toks body s2 s3 ->
  iterates toks body s1 s3.
Proof.
  induction 1; intros; [assumption|].
  eapply iterates_next; [eassumption | eassumption | auto].
Qed.

(** What every iteration keeps, the iterations keep. *)
Lemma iterates_post (P : config -> Prop) s s' :
  (forall s, wp body (fun c s' => post toks P P s (ctl_ok c) s') s) ->
  iterates toks body s s' -> post toks P P s true s'.
Proof.
  intros Hb. induction 1 as [|s s1 s2 Hr E _ IH]; [apply post_refl|].
  eapply post_trans; [|exact IH].
  exact (wp_ret_inv _ _ _ _ _ (Hb s) E).
Qed.

End Iterate.

(** ** The top-level loop *)

Section TopLevel.

Variable h : slant_h.
Variable toks : list string.

Lemma statement_advances s :
  wp (statement h toks)
    (fun c s' => is_next c = true -> (pos s < pos s')%nat) s.
Proof.
  eapply wp_mono; [apply spec_statement|]. cbv beta. tauto.
Qed.

Lemma reach_here s : reach h toks s s.
Proof. apply iterates_here. Qed.

Lemma reach_next s s' s'' :
  in_range toks s = true ->
  statement h toks s = Ret (Next tt) s' ->
  reach h toks s' s'' ->
  reach h toks s s''.
Proof. apply iterates_next. Qed.

Lemma reach_trans s1 s2 s3 :
  reach h toks s1 s2 -> reach h toks s2 s3 -> reach h toks s1 s3.
Proof. apply iterates_trans. Qed.

Lemma reach_step s1 s2 s3 :
  reach h toks s1 s2 -> in_range toks s2 = true ->
  statement h toks s2 = Ret (Next tt) s3 -> reach h toks s1 s3.
Proof.
  intros H Hr E. eapply reach_trans; [exact H|].
  eapply reach_next; [exact Hr | exact E | apply reach_here].
Qed.

Lemma config_loop_reach s s' :
  reach h toks s s' -> config_loop h toks s = config_loop h toks s'.
Proof. apply (loop_iterates toks _ statement_advances). Qed.

Lemma config_loop_break s s' :
  in_range toks s = true ->
  statement h toks s = Ret (Break tt) s' ->
  config_loop h toks s = Ret (inl tt) s'.
Proof. apply loop_break. Qed.

Lemma config_loop_crash s f :
  in_range toks s = true ->
  statement h toks s = Crash f ->
  config_loop h toks s = Crash f.
Proof. apply loop_crash. Qed.

Lemma config_loop_eof s :
  in_range toks s = false -> config_loop h toks s = Ret (inl tt) s.
Proof. apply loop_eof. Qed.

(** A failing statement with the cursor off the end fails the parse. *)
Lemma config_tokens_fail argv s0 s s' :
  reach h toks s0 s ->
  in_range toks s = true ->
  statement h toks s = Ret (Break tt) s' ->
  pos s' <> toksz toks ->
  config_tokens h toks argv s0 = Ret false s'.
Proof.
  intros Hre Hr E Hp. unfold config_tokens. cbn [bind].
  rewrite (config_loop_reach _ _ Hre), (config_loop_break _ _ Hr E). cbn.
  apply Nat.eqb_neq in Hp. now rewrite Hp.
Qed.

(** The loop that comes to the end of the tokens succeeds. *)
Lemma config_tokens_end s0 s :
  reach h toks s0 s ->
  pos s = toksz toks ->
  config_tokens h toks [] s0 = Ret true s.
Proof.
  intros Hre Hp. unfold config_tokens. cbn [bind].
  rewrite (config_loop_reach _ _ Hre), config_loop_eof.
  2:{ unfold in_range. apply Nat.ltb_ge. lia. }
  cbn. rewrite Hp, Nat.eqb_refl. reflexivity.
Qed.

Lemma config_tokens_crash argv s0 s f :
  reach h toks s0 s ->
  in_range toks s = true ->
  statement h toks s = Crash f ->
  config_tokens h toks argv s0 = Crash f.
Proof.
  intros Hre Hr E. unfold config_tokens. cbn [bind].
  now rewrite (config_loop_reach _ _ Hre), (config_loop_crash _ _ Hr E).
Qed.

(** A layout once allocated stays, statement after statement. *)
Lemma reach_draw s s' :
  reach h toks s s' -> cdraw (cfg s) <> None -> cdraw (cfg s') <> None.
Proof.
  unfold reach.
  induction 1 as [|s s1 s2 Hr E _ IH]; [auto|]. intros Hd. apply IH.
  pose proof (wp_ret_inv _ _ _ _ _ (spec_statement h toks s) E) as H.
  cbn in H. destruct H as ((_ & _ & Hp & _) & _). auto.
Qed.

(** Every statement leaves the boxes legal. *)
Lemma reach_legal s s' :
  reach h toks s s' -> boxes_legal h (cfg s) -> boxes_legal h (cfg s').
Proof.
  unfold reach.
  induction 1 as [|s s1 s2 Hr E _ IH]; [auto|]. intros Hd. apply IH.
  pose proof (wp_ret_inv _ _ _ _ _ (spec_statement h toks s) E) as H.
  cbn in H. destruct H as ((_ & _ & _ & Hp) & _).
  destruct (Hp Hd) as [?|[? _]]; [assumption | discriminate].
Qed.

(** *** Statements on known tokens *)

Lemma statement_waittime_ok n c lg N v rest :
  skipn n toks = "waittime"%string :: N :: ";"%string :: rest ->
  strtonum N 15 INT_MAX = (v, None) ->
  statement h toks (Build_state n c lg) =
  Ret (Next tt) (Build_state (n + 3) (cfg_waittime v c) lg).
Proof.
  intros H Hv. unfold statement. exec H.
  assert (H' : skipn (S n) toks = N :: ";"%string :: rest).
  { rewrite skipn_S_tl, H. reflexivity. }
  rewrite (parse_waittime_ok toks _ c lg N v rest H' Hv). cbn.
  replace (n + 3)%nat with (S (S (S n))) by lia. reflexivity.
Qed.

Lemma statement_waittime_bad n c lg N e rest :
  skipn n toks = "waittime"%string :: N :: rest ->
  snd (strtonum N 15 INT_MAX) = Some e ->
  statement h toks (Build_state n c lg) =
  Ret (Break tt)
    (Build_state (S n) (cfg_waittime (fst (strtonum N 15 INT_MAX)) c)
       (lg ++ [bad_global_waittime e])).
Proof.
  intros H He. unfold statement. exec H.
  assert (H' : skipn (S n) toks = N :: rest).
  { rewrite skipn_S_tl, H. reflexivity. }
  rewrite (parse_waittime_bad toks _ c lg N e rest H' He). reflexivity.
Qed.



Lemma statement_servers_block n c lg hosts items rest :
  skipn n toks =
    "servers"%string :: hosts ++ "{"%string :: flat_map server_arg_toks items
          ++ "}"%string :: ";"%string :: rest ->
  hosts <> [] ->
  Forall (fun t => is_terminator t = false) hosts ->
  Forall (fun it => snd (strtonum (fst it) 15 INT_MAX) = None) items ->
  statement h toks (Build_state n c lg) =
  Ret (Next tt)
    (Build_state
       (n + length hosts + length (flat_map server_arg_toks items) + 4)
       (cfg_urls (urls c ++ map (entry (block_waittime items)) hosts) c) lg).
Proof.
  intros H Hne Hh Hi. unfold statement. exec H.
  assert (H' : skipn (S n) toks =
               hosts ++ "{"%string :: flat_map server_arg_toks items
                 ++ "}"%string :: ";"%string :: rest).
  { rewrite skipn_S_tl, H. reflexivity. }
  rewrite (parse_servers_block toks _ c lg hosts items rest H' Hne Hh Hi). cbn.
  do 2 f_equal. lia.
Qed.

Lemma statement_layout_empty n c lg rest :
  skipn n toks = "layout"%string :: "{"%string :: "}"%string :: rest ->
  statement h toks (Build_state n c lg) =
  Ret (Next tt) (Build_state (n + 3) c lg).
Proof.
  intros H. unfold statement. exec H. unfold parse_layout. exec H.
  replace (n + 3)%nat with (S (S (S n))) by lia. reflexivity.
Qed.

Lemma statement_layout_dup n c lg t rest d :
  skipn n toks = "layout"%string :: "{"%string :: t :: rest ->
  (t =? "}")%string = false ->
  cdraw c = Some d ->
  statement h toks (Build_state n c lg) =
  Ret (Break tt) (Build_state (S (S n)) c (lg ++ [layout_already_specified])).
Proof.
  intros H Ht Hd. unfold statement. exec H. unfold parse_layout. exec H.
  rewrite Ht. exec H. rewrite Hd. reflexivity.
Qed.

(** A [layout] statement whose block is not empty allocates the layout
    before it looks at the items. *)
Lemma statement_layout_alloc n c lg t rest ctl s' :
  skipn n toks = "layout"%string :: "{"%string :: t :: rest ->
  (t =? "}")%string = false ->
  cdraw c = None ->
  statement h toks (Build_state n c lg) = Ret ctl s' ->
  cdraw (cfg s') <> None.
Proof.
  intros H Ht Hd. unfold statement. exec H.
  destruct (parse_layout h toks _) as [r s1|f] eqn:E; [|discriminate].
  assert (Hs1 : cdraw (cfg s1) <> None).
  { revert E. unfold parse_layout. exec H. rewrite Ht. exec H. rewrite Hd.
    cbn.
    match goal with
    | |- context [while_loop toks ?cond ?body ?a ?s] =>
        pose proof (wp_while_post toks (boxes_legal h) cond body
                      (fun _ => in_range_lt toks)
                      (fun _ => spec_layout_body h toks) a s) as Hw;
        unfold wp in Hw;
        destruct (while_loop toks cond body a s) as [[[]|r0] s2|f] eqn:Ew
    end.
    3: intros; discriminate.
    - destruct Hw as (_ & _ & Hp & _). cbn in Hp.
      specialize (Hp ltac:(discriminate)). cbn [bind].
      destruct (tok_expect_adv toks "}" s2) as [b s3|f] eqn:E1;
        [|intros; discriminate].
      pose proof (wp_ret_inv _ _ _ _ _
        (wp_tok_expect_adv toks "}" (fun _ s' => cfg s' = cfg s2) s2
           (fun _ => eq_refl) (fun _ _ => eq_refl) (fun _ => eq_refl)) E1) as C1.
      cbn in C1. destruct b; cbn.
      + destruct (tok_expect_adv toks ";" s3) as [b' s4|f] eqn:E2;
          [|intros; discriminate].
        pose proof (wp_ret_inv _ _ _ _ _
          (wp_tok_expect_adv toks ";" (fun _ s' => cfg s' = cfg s3) s3
             (fun _ => eq_refl) (fun _ _ => eq_refl) (fun _ => eq_refl)) E2) as C2.
        cbn in C2. intros [= <- <-]. congruence.
      + intros [= <- <-]. congruence.
    - destruct Hw as (_ & _ & Hp & _). cbn in Hp.
      specialize (Hp ltac:(discriminate)). intros [= <- <-]. exact Hp. }
  destruct r; cbn; intros [= <- <-]; exact Hs1.
Qed.

End TopLevel.

(** ** Box definitions on known tokens *)

Section Boxes.

Variable h : slant_h.
Variable toks : list string.

Lemma cfg_draw_id c d : cdraw c = Some d -> cfg_draw (Some d) c = c.
Proof. destruct c; cbn; now intros ->. Qed.

Lemma draw_box_id d bs b :
  box d = bs ++ [b] ->
  {| box := bs ++ [{| cat := cat b; args := args b |}];
     header := header d; errlog := errlog d |} = d.
Proof. destruct d, b; cbn; now intros ->. Qed.

Lemma opt_chain_hit tbl :
  forall n c lg kw l f d bs b,
    skipn n toks = kw :: l ->
    flag_of tbl kw = Some f ->
    cdraw c = Some d -> box d = bs ++ [b] ->
    opt_chain toks tbl (Build_state n c lg) =
    Ret (Next tt)
      (Build_state (S n)
         (cfg_draw
            (Some {| box := bs ++ [{| cat := cat b; args := Z.lor (args b) f |}];
                     header := header d; errlog := errlog d |}) c) lg).
Proof.
  induction tbl as [|[k f0] tbl IH]; intros n c lg kw l f d bs b H Hf Hd Hb;
    [discriminate|].
  cbn [opt_chain flag_of] in *. exec H.
  destruct (kw =? k)%string.
  - injection Hf as ->. exec H. rewrite Hd, Hb, list_upd_last. reflexivity.
  - eapply IH; eauto.
Qed.

Lemma opt_chain_miss tbl :
  forall n c lg t l,
    skipn n toks = t :: l ->
    flag_of tbl t = None ->
    opt_chain toks tbl (Build_state n c lg) =
    if ((t =? ";") || (t =? "}"))%string
    then Ret (Break tt) (Build_state n c lg)
    else Ret (Return false) (Build_state n c (lg ++ [unknown_token t])).
Proof.
  induction tbl as [|[k f0] tbl IH]; intros n c lg t l H Hf.
  - cbn [opt_chain]. exec H. destruct (t =? ";")%string; exec H; [reflexivity|].
    destruct (t =? "}")%string; exec H; reflexivity.
  - cbn [opt_chain flag_of] in *. exec H.
    destruct (t =? k)%string; [discriminate|]. eapply IH; eauto.
Qed.

(** An option loop on a run of option keywords of its table closed by a
    token that is none. *)
Lemma opts_loop tbl kws :
  forall fuel n c lg d bs b t rest,
    skipn n toks = kws ++ t :: rest ->
    Forall (fun kw => is_opt tbl kw = true) kws ->
    flag_of tbl t = None ->
    cdraw c = Some d -> box d = bs ++ [b] ->
    (length kws < fuel)%nat ->
    while_fuel fuel (fun _ : unit => in_range toks)
      (fun _ => opt_chain toks tbl) tt (Build_state n c lg) =
    let c1 :=
      cfg_draw
        (Some {| box := bs ++ [{| cat := cat b;
                                  args := fold_left Z.lor (flags_of tbl kws) (args b) |}];
                 header := header d; errlog := errlog d |}) c in
    if ((t =? ";") || (t =? "}"))%string
    then Ret (inl tt) (Build_state (n + length kws) c1 lg)
    else Ret (inr false)
           (Build_state (n + length kws) c1 (lg ++ [unknown_token t])).
Proof.
  induction kws as [|kw kws IH];
    intros fuel n c lg d bs b t rest H Hk Ht Hd Hb Hf;
    (destruct fuel as [|fuel]; [cbn in Hf; lia|]).
  - cbn in H. cbn [while_fuel]. exec H.
    rewrite (opt_chain_miss tbl n c lg t rest H Ht).
    cbn [flags_of flat_map fold_left length].
    rewrite (draw_box_id d bs b Hb), (cfg_draw_id c d Hd), Nat.add_0_r.
    destruct ((t =? ";") || (t =? "}"))%string; reflexivity.
  - cbn in H, Hf. inversion Hk as [|? ? Hkw Hk']; subst.
    unfold is_opt in Hkw. destruct (flag_of tbl kw) as [f|] eqn:Ef; [|discriminate].
    cbn [while_fuel]. exec H.
    rewrite (opt_chain_hit tbl n c lg kw _ f d bs b H Ef Hd Hb).
    assert (H' : skipn (S n) toks = kws ++ t :: rest).
    { rewrite skipn_S_tl, H. reflexivity. }
    erewrite (IH fuel (S n) _ lg _ bs _ t rest H' Hk' Ht);
      [ | cbn; reflexivity | cbn; reflexivity | lia ].
    cbn [cat args header errlog]. unfold flags_of. cbn [flat_map].
    rewrite Ef. cbn [app fold_left length].
    replace (S n + length kws)%nat with (n + S (length kws))%nat by lia.
    reflexivity.
Qed.

Lemma parse_opts_run tbl kws n c lg d bs b t rest :
  skipn n toks = kws ++ t :: rest ->
  Forall (fun kw => is_opt tbl kw = true) kws ->
  flag_of tbl t = None ->
  cdraw c = Some d -> box d = bs ++ [b] ->
  parse_opts toks tbl (Build_state n c lg) =
  let c1 :=
    cfg_draw
      (Some {| box := bs ++ [{| cat := cat b;
                                args := fold_left Z.lor (flags_of tbl kws) (args b) |}];
               header := header d; errlog := errlog d |}) c in
  if ((t =? ";") || (t =? "}"))%string
  then Ret None (Build_state (n + length kws) c1 lg)
  else Ret (Some false)
         (Build_state (n + length kws) c1 (lg ++ [unknown_token t])).
Proof.
  intros H Hk Ht Hd Hb. unfold parse_opts. cbn [bind].
  rewrite while_loop_run.
  rewrite (opts_loop tbl kws _ n c lg d bs b t rest H Hk Ht Hd Hb).
  2:{ rewrite H, length_app. cbn. lia. }
  cbv zeta. destruct ((t =? ";") || (t =? "}"))%string; reflexivity.
Qed.

(** A box definition: the fresh box, its category keyword and its option
    loop. *)
Lemma box_def_run k kws n c lg d t rest :
  skipn n toks = cat_keyword k :: kws ++ t :: rest ->
  Forall (fun kw => is_opt (opts_of h k) kw = true) kws ->
  flag_of (opts_of h k) t = None ->
  cdraw c = Some d ->
  (box_append h;;; box_def h toks) (Build_state n c lg) =
  let c1 :=
    cfg_draw
      (Some {| box := box d ++ [{| cat := k;
                                   args := fold_left Z.lor
                                             (flags_of (opts_of h k) kws)
                                             (init_args h k) |}];
               header := header d; errlog := errlog d |}) c in
  if ((t =? ";") || (t =? "}"))%string
  then Ret None (Build_state (S n + length kws) c1 lg)
  else Ret (Some false)
         (Build_state (S n + length kws) c1 (lg ++ [unknown_token t])).
Proof.
  intros H Hk Ht Hd.
  assert (H' : skipn (S n) toks = kws ++ t :: rest).
  { rewrite skipn_S_tl, H. reflexivity. }
  cbn [bind box_append with_draw set_draw set_cfg with_cfg cfg pos log].
  rewrite Hd. unfold box_def.
  destruct k; cbn [cat_keyword] in H; exec H;
    repeat (rewrite list_upd_last; cbn);
    cbn [opts_of] in Hk, Ht.
  all: match goal with
       | |- parse_opts toks ?tbl ?s = _ =>
           erewrite (parse_opts_run tbl kws _ _ _ _ (box d) _ t rest H' Hk Ht);
           [ | cbn; reflexivity | cbn; reflexivity ]
       | |- _ => idtac
       end.
  all: try reflexivity.
Qed.

Lemma layout_host_body_eq s :
  layout_host_body h toks s =
  match (box_append h;;; box_def h toks) s with
  | Ret (Some r) s' => Ret (Return r) s'
  | Ret None s' => item_end toks s'
  | Crash f => Crash f
  end.
Proof.
  unfold layout_host_body. cbn [bind].
  destruct (box_append h s) as [[] s1|f]; [|reflexivity].
  destruct (box_def h toks s1) as [[r|] s2|f]; reflexivity.
Qed.

End Boxes.

(** ** The whole parse *)

Lemma reported_last s d :
  reported (logged d s) = Some (kind_of d).
Proof.
  unfold reported, logged; cbn [log]. rewrite map_app. cbn [map].
  rewrite last_last. reflexivity.
Qed.

Lemma reported_app lg d n c :
  reported (Build_state n c (lg ++ [d])) = Some (kind_of d).
Proof.
  unfold reported; cbn [log]. rewrite map_app. cbn [map].
  rewrite last_last. reflexivity.
Qed.

Lemma remaining_skip toks s l1 l2 :
  remaining toks s = l1 ++ l2 ->
  skipn (pos s + length l1) toks = l2.
Proof. apply skipn_add_app. Qed.

Lemma remaining_in_range toks s t l :
  remaining toks s = t :: l -> in_range toks s = true.
Proof.
  unfold remaining, in_range, toksz. intros H.
  apply Nat.ltb_lt. eapply skipn_cons_lt; eauto.
Qed.

Lemma skipn_cons_neq {A} (l : list A) n t l' :
  skipn n l = t :: l' -> n <> length l.
Proof. intros H. apply skipn_cons_lt in H. lia. Qed.

Section Whole.

Variable h : slant_h.

(** The loop never runs out of fuel, and what it guarantees. *)
Lemma config_loop_post toks s u s' :
  config_loop h toks s = Ret u s' ->
  exists ok, post toks (boxes_legal h) (boxes_legal h) s ok s'.
Proof.
  intros E. exact (wp_ret_inv _ _ _ _ _ (spec_config_loop h toks s) E).
Qed.

Lemma config_cmdline_run argv s :
  argv <> [] ->
  config_cmdline argv s =
  Ret true (with_cfg (cfg_urls (map (entry 0) argv) (cfg s)) s).
Proof.
  intros Hne. unfold config_cmdline.
  assert (Hl : (length argv =? 0)%nat = false).
  { destruct argv; [congruence | reflexivity]. }
  rewrite Hl. destruct s as [n c lg]. cbn.
  rewrite repeat_length, cmdline_urls_all. reflexivity.
Qed.

Lemma config_tokens_run toks argv s :
  config_tokens h toks argv s =
  match config_loop h toks s with
  | Ret _ s1 =>
      if negb (pos s1 =? toksz toks)%nat then Ret false s1
      else match argv with
           | [] => Ret true s1
           | _ => Ret true (with_cfg (cfg_urls (map (entry 0) argv) (cfg s1)) s1)
           end
  | Crash f => Crash f
  end.
Proof.
  unfold config_tokens. cbn [bind].
  destruct (config_loop h toks s) as [u s1|f]; [|reflexivity]. cbn.
  destruct (pos s1 =? toksz toks)%nat; cbn; [|reflexivity].
  destruct argv as [|a argv]; [reflexivity|].
  cbn [length Nat.eqb bind set_urls set_cfg].
  rewrite config_cmdline_run by discriminate. reflexivity.
Qed.

Lemma config_tokens_legal toks argv s r s' :
  config_tokens h toks argv s = Ret r s' ->
  boxes_legal h (cfg s) -> r = true -> boxes_legal h (cfg s').
Proof.
  rewrite config_tokens_run.
  destruct (config_loop h toks s) as [u s1|f] eqn:E; [|discriminate].
  destruct (config_loop_post _ _ _ _ E) as (ok & _ & _ & _ & HL).
  destruct (Nat.eqb_spec (pos s1) (toksz toks)) as [Hp|Hp]; cbn.
  2:{ intros [= <- <-]; discriminate. }
  intros Hr HL0 _. destruct (HL HL0) as [H1|[_ H1]]; [|lia].
  destruct argv; injection Hr as <- <-; [exact H1|].
  eapply boxes_legal_cdraw; [|exact H1]. reflexivity.
Qed.

Lemma config_tokens_unknown toks argv s r s' t :
  config_tokens h toks argv s = Ret r s' ->
  log s = [] ->
  In (unknown_token t) (log s') ->
  r = false /\ reported s' = Some UnknownToken.
Proof.
  rewrite config_tokens_run.
  destruct (config_loop h toks s) as [u s1|f] eqn:E; [|discriminate].
  destruct (config_loop_post _ _ _ _ E) as (ok & _ & Hlog & _ & _).
  intros Hr Hl Hin. rewrite Hl in Hlog.
  assert (Hs1 : In (unknown_token t) (log s1)).
  { destruct (negb _); [injection Hr as <- <-; exact Hin|].
    destruct argv; injection Hr as <- <-; exact Hin. }
  destruct ok; [rewrite Hlog in Hs1; destruct Hs1|].
  destruct Hlog as (d & Hd & Hu). rewrite Hd in Hs1. cbn in Hs1.
  destruct Hs1 as [->|[]]. specialize (Hu eq_refl).
  destruct (Nat.eqb_spec (pos s1) (toksz toks)) as [Hp|Hp]; [lia|]. cbn in Hr.
  injection Hr as <- <-. split; [reflexivity|].
  unfold reported. rewrite Hd. cbn [app map last option_map]. reflexivity.
Qed.

Lemma config_tokens_total toks argv s :
  config_tokens h toks argv s <> Crash OutOfFuel.
Proof.
  rewrite config_tokens_run. pose proof (spec_config_loop h toks s) as H.
  unfold wp in H. destruct (config_loop h toks s) as [u s1|f].
  - destruct (negb _); [discriminate|]. destruct argv; discriminate.
  - congruence.
Qed.

End Whole.

(** * The claims *)

(** The waittime a block of valid items leaves is in range. *)
Lemma block_waittime_range (items : list (string * bool)) :
  items <> [] ->
  Forall (fun it => snd (strtonum (fst it) 15 INT_MAX) = None) items ->
  15 <= block_waittime items <= INT_MAX.
Proof.
  intros Hne Hi. destruct (exists_last Hne) as (items' & [num semi] & ->).
  unfold block_waittime. rewrite fold_left_app. cbn.
  apply Forall_app in Hi as [_ Hl]. inversion Hl as [|? ? Hnum _]; subst.
  cbn in Hnum. destruct (strtonum num 15 INT_MAX) as [v er] eqn:E.
  cbn in *. subst er. apply strtonum_ok in E. tauto.
Qed.

(** C1.  A [servers] statement that declares the hosts [hosts] and closes
    with a block of [waittime] items appends one entry per host behind the
    entries that were there, which stay as they were, and every new entry
    carries the waittime the block set last; with an empty block that is
    the 0 of an unset override, so that no entry is modified. *)
Theorem servers_block_waittime (h : slant_h) (toks : list string) (s : state)
    (hosts : list string) (items : list (string * bool)) (rest : list string) :
  remaining toks s =
    "servers"%string :: hosts ++ "{"%string :: flat_map server_arg_toks items
      ++ "}"%string :: ";"%string :: rest ->
  hosts <> [] ->
  Forall (fun t => is_terminator t = false) hosts ->
  Forall (fun it => snd (strtonum (fst it) 15 INT_MAX) = None) items ->
  exists s',
    statement h toks s = Ret (Next tt) s' /\
    urls (cfg s') = urls (cfg s) ++ map (entry (block_waittime items)) hosts /\
    waittime (cfg s') = waittime (cfg s) /\
    cdraw (cfg s') = cdraw (cfg s) /\
    log s' = log s /\
    pos s' = (pos s + length hosts
              + length (flat_map server_arg_toks items) + 4)%nat /\
    (items = [] -> block_waittime items = 0) /\
    (items <> [] -> 15 <= block_waittime items <= INT_MAX).
Proof.
  intros H Hne Hh Hi. destruct s as [n c lg]. unfold remaining in H; cbn [pos] in H.
  eexists. split.
  { apply (statement_servers_block h toks n c lg hosts items rest H Hne Hh Hi). }
  cbn. do 4 (split; [reflexivity|]). split; [lia|].
  split; [intros ->; reflexivity|].
  intros Hitems. exact (block_waittime_range items Hitems Hi).
Qed.

Lemma servers_block_waittime_witness :
  exists s',
    statement spec_h
      ["servers"; "x"; ";"; "servers"; "a"; "b"; "c"; "{"; "waittime"; "30";
       ";"; "}"; ";"]%string
      {| pos := 3;
         cfg := {| urls := [entry 0 "x"]; waittime := 60; cdraw := None |};
         log := [] |} = Ret (Next tt) s' /\
    urls (cfg s') = [entry 0 "x"; entry 30 "a"; entry 30 "b"; entry 30 "c"].
Proof.
  destruct (servers_block_waittime spec_h
    ["servers"; "x"; ";"; "servers"; "a"; "b"; "c"; "{"; "waittime"; "30";
       ";"; "}"; ";"]%string
    {| pos := 3;
       cfg := {| urls := [entry 0 "x"]; waittime := 60; cdraw := None |};
       log := [] |}
    ["a"; "b"; "c"]%string [("30"%string, true)] [])
    as (s' & E & U & _).
  - reflexivity.
  - discriminate.
  - repeat constructor.
  - repeat constructor.
  - exists s'. split; [exact E | exact U].
Defined.

(** C5.  When the file does not exist and arguments are given, the parse
    succeeds with one entry per argument, in order, each with an unset
    override, no layout and the default waittime of 60. *)
Theorem noent_cmdline (h : slant_h) (argv : list string) :
  argv <> [] ->
  config_parse h NoEnt argv =
  Ret true
    {| pos := 0;
       cfg := {| urls := map (entry 0) argv; waittime := 60; cdraw := None |};
       log := [] |}.
Proof.
  intros Hne. unfold config_parse. rewrite config_cmdline_run by exact Hne.
  reflexivity.
Qed.

Lemma noent_cmdline_witness :
  ["h1"; "h2"]%string <> [] /\
  config_parse spec_h NoEnt ["h1"; "h2"]%string =
  Ret true
    {| pos := 0;
       cfg := {| urls := [entry 0 "h1"; entry 0 "h2"]; waittime := 60;
                 cdraw := None |};
       log := [] |}.
Proof.
  split; [discriminate|].
  apply (noent_cmdline spec_h ["h1"; "h2"]%string). discriminate.
Defined.

(** C4.  When the file parses and arguments are given, the result is that
    of the parse without arguments with the server list replaced by one
    entry per argument, in order, each with an unset override; the layout
    and the global waittime of the file are kept. *)
Theorem cmdline_replaces_servers (h : slant_h) (buf : string)
    (argv : list string) (s : state) :
  argv <> [] ->
  config_parse h (Mapped buf) [] = Ret true s ->
  exists s',
    config_parse h (Mapped buf) argv = Ret true s' /\
    urls (cfg s') = map (entry 0) argv /\
    cdraw (cfg s') = cdraw (cfg s) /\
    waittime (cfg s') = waittime (cfg s).
Proof.
  intros Hne. unfold config_parse. rewrite !config_tokens_run.
  destruct (config_loop h (tokenize buf) state0) as [u s1|f]; [|discriminate].
  destruct (negb _); [discriminate|]. intros [= <-].
  destruct argv as [|a argv]; [congruence|].
  eexists. split; [reflexivity|]. cbn. auto.
Qed.

Lemma cmdline_replaces_servers_witness :
  exists s',
    config_parse spec_h (Mapped "waittime 30 ; servers x y ; layout { header ; } ;")
      ["z"%string] = Ret true s' /\
    urls (cfg s') = [entry 0 "z"] /\
    cdraw (cfg s') = Some {| box := []; header := 1; errlog := 0 |} /\
    waittime (cfg s') = 30.
Proof.
  destruct (cmdline_replaces_servers spec_h
              "waittime 30 ; servers x y ; layout { header ; } ;"
              ["z"%string]
              {| pos := 13;
                 cfg := {| urls := [entry 0 "x"; entry 0 "y"]; waittime := 30;
                           cdraw := Some {| box := []; header := 1; errlog := 0 |} |};
                 log := [] |})
    as (s' & E & U & D & W).
  - discriminate.
  - vm_compute. reflexivity.
  - exists s'. repeat split; assumption.
Defined.

(** C9.  The cursor is read past the end of the tokens, or an assertion
    on the cursor fails, when the file ends after [waittime], after
    [errlog] or after a box category. *)
Theorem cursor_overrun (h : slant_h) (argv : list string) :
  config_parse h (Mapped "waittime") argv = Crash AssertFail /\
  config_parse h (Mapped "layout { errlog") argv = Crash OutOfBounds /\
  config_parse h (Mapped "layout { host { cpu") argv = Crash AssertFail.
Proof.
  repeat split; vm_compute; reflexivity.
Qed.

(** C6.  A top-level [waittime N ;] whose token [N] converts to an integer
    in [15, INT_MAX] sets the global waittime to that integer, which is
    the waittime of the result when the statement ends the file; when [N]
    does not convert, or converts to an integer below 15 or above
    [INT_MAX], the parse fails with InvalidRange. *)
Theorem waittime_statement (h : slant_h) (toks : list string) (s0 s : state)
    (N : string) (rest : list string) :
  reach h toks s0 s ->
  remaining toks s = "waittime"%string :: N :: rest ->
  (forall n rest',
     strtoll_all N = Some n -> 15 <= n <= INT_MAX ->
     rest = ";"%string :: rest' ->
     exists s',
       statement h toks s = Ret (Next tt) s' /\
       waittime (cfg s') = n /\
       urls (cfg s') = urls (cfg s) /\ cdraw (cfg s') = cdraw (cfg s) /\
       log s' = log s /\ pos s' = (pos s + 3)%nat /\
       (rest' = [] -> config_tokens h toks [] s0 = Ret true s')) /\
  (strtoll_all N = None \/
   (exists n, strtoll_all N = Some n /\ (n < 15 \/ INT_MAX < n)) ->
   forall argv,
     exists sf,
       config_tokens h toks argv s0 = Ret false sf /\
       reported sf = Some InvalidRange /\
       pos sf = S (pos s)).
Proof.
  intros Hre H. pose proof (remaining_in_range _ _ _ _ H) as Hin.
  destruct s as [n c lg]. unfold remaining in H; cbn [pos] in H. split.
  - intros v rest' Hv Hrange ->.
    pose proof (strtonum_in_range N 15 INT_MAX v Hv Hrange) as E.
    pose proof (statement_waittime_ok h toks n c lg N v rest' H E) as Hs.
    eexists. split; [exact Hs|]. cbn. repeat split; auto.
    intros ->. apply config_tokens_end.
    + eapply reach_step; eauto.
    + cbn. unfold toksz.
      apply (f_equal (@length string)) in H.
      rewrite length_skipn in H. cbn in H. lia.
  - intros Hbad argv.
    assert (He : exists e, snd (strtonum N 15 INT_MAX) = Some e).
    { destruct Hbad as [E|(v & E & [Hv|Hv])].
      - rewrite (strtonum_invalid N 15 INT_MAX E). cbn; eauto.
      - rewrite (strtonum_small N 15 INT_MAX v); cbn; eauto.
        unfold INT_MAX; lia.
      - rewrite (strtonum_large N 15 INT_MAX v); cbn; eauto.
        unfold INT_MAX; lia. }
    destruct He as (e & He).
    pose proof (statement_waittime_bad h toks n c lg N e rest H He) as Hs.
    eexists. split; [|split].
    + eapply config_tokens_fail; eauto. cbn.
      assert (H' : skipn (S n) toks = N :: rest).
      { rewrite skipn_S_tl, H. reflexivity. }
      apply skipn_cons_neq in H'. exact H'.
    + apply reported_app.
    + reflexivity.
Qed.

Lemma waittime_statement_witness :
  (exists s',
     statement spec_h ["waittime"; "30"; ";"]%string state0 = Ret (Next tt) s' /\
     waittime (cfg s') = 30 /\
     config_tokens spec_h ["waittime"; "30"; ";"]%string [] state0 = Ret true s') /\
  (exists sf,
     config_tokens spec_h ["waittime"; "14"; ";"]%string [] state0 = Ret false sf /\
     reported sf = Some InvalidRange).
Proof.
  split.
  - destruct (waittime_statement spec_h ["waittime"; "30"; ";"]%string
                state0 state0 "30" [";"%string]) as [Hok _].
    + apply reach_here.
    + reflexivity.
    + destruct (Hok 30 [] eq_refl) as (s' & E & C & _ & _ & _ & _ & T).
      * unfold INT_MAX; lia.
      * reflexivity.
      * exists s'. repeat split; auto.
  - destruct (waittime_statement spec_h ["waittime"; "14"; ";"]%string
                state0 state0 "14" [";"%string]) as [_ Hbad].
    + apply reach_here.
    + reflexivity.
    + destruct (Hbad (or_intror (ex_intro _ 14 (conj eq_refl (or_introl eq_refl)))) [])
        as (sf & E & R & _).
      exists sf. split; assumption.
Defined.



(** C2, as stated, fails: two empty [layout { }] statements are accepted,
    reporting nothing and leaving the layout absent. *)
Lemma layout_empty_twice_accepted :
  config_parse spec_h (Mapped "layout { } layout { }") [] =
  Ret true
    {| pos := 6;
       cfg := {| urls := []; waittime := 60; cdraw := None |};
       log := [] |}.
Proof. vm_compute. reflexivity. Qed.

(** C2, amended.  A [layout] statement whose block is not empty and that
    comes after a [layout] statement whose block was not empty either fails
    the parse with DuplicateSection, on that second statement; an empty
    [layout { }] is passed over, leaving the configuration as it was. *)
Theorem layout_twice (h : slant_h) (toks : list string) :
  (forall (s0 s1 s1' s2 : state) (t1 t2 : string) (rest1 rest2 : list string),
     reach h toks s0 s1 ->
     remaining toks s1 = "layout"%string :: "{"%string :: t1 :: rest1 ->
     t1 <> "}"%string ->
     statement h toks s1 = Ret (Next tt) s1' ->
     reach h toks s1' s2 ->
     remaining toks s2 = "layout"%string :: "{"%string :: t2 :: rest2 ->
     t2 <> "}"%string ->
     forall argv,
       exists sf,
         config_tokens h toks argv s0 = Ret false sf /\
         reported sf = Some DuplicateSection /\
         pos sf = (pos s2 + 2)%nat /\ cfg sf = cfg s2) /\
  (forall s rest,
     remaining toks s = "layout"%string :: "{"%string :: "}"%string :: rest ->
     statement h toks s =
     Ret (Next tt) {| pos := pos s + 3; cfg := cfg s; log := log s |}).
Proof.
  split.
  - intros s0 s1 s1' s2 t1 t2 rest1 rest2 Hre1 H1 Ht1 E1 Hre2 H2 Ht2 argv.
    pose proof (remaining_in_range _ _ _ _ H1) as Hin1.
    pose proof (remaining_in_range _ _ _ _ H2) as Hin2.
    apply String.eqb_neq in Ht1, Ht2.
    assert (Hd1 : cdraw (cfg s1') <> None).
    { destruct s1 as [n c lg]. unfold remaining in H1; cbn [pos] in H1.
      destruct (cdraw c) as [d|] eqn:Ed.
      - rewrite (statement_layout_dup h toks n c lg t1 rest1 d H1 Ht1 Ed) in E1.
        discriminate.
      - exact (statement_layout_alloc h toks n c lg t1 rest1 _ _ H1 Ht1 Ed E1). }
    pose proof (reach_draw h toks _ _ Hre2 Hd1) as Hd2.
    destruct s2 as [n c lg]. unfold remaining in H2; cbn [pos] in H2.
    cbn [cfg] in Hd2. destruct (cdraw c) as [d|] eqn:Ed; [|congruence].
    pose proof (statement_layout_dup h toks n c lg t2 rest2 d H2 Ht2 Ed) as Hs.
    eexists. split; [|split; [|split]].
    + eapply config_tokens_fail; [| exact Hin2 | exact Hs |].
      * eapply reach_trans; [exact Hre1|].
        eapply reach_next; [exact Hin1 | exact E1 | exact Hre2].
      * cbn.
        assert (H' : skipn (S (S n)) toks = t2 :: rest2).
        { rewrite !skipn_S_tl, H2. reflexivity. }
        apply skipn_cons_neq in H'. exact H'.
    + apply reported_app.
    + cbn. lia.
    + reflexivity.
  - intros [n c lg] rest H. unfold remaining in H; cbn [pos] in H.
    apply (statement_layout_empty h toks n c lg rest H).
Qed.

Lemma layout_twice_witness :
  (exists sf,
     config_tokens spec_h
       ["layout"; "{"; "header"; "}"; ";"; "layout"; "{"; "header"; "}"; ";"]%string
       [] state0 = Ret false sf /\
     reported sf = Some DuplicateSection /\ pos sf = 7%nat) /\
  statement spec_h
    ["layout"; "{"; "header"; "}"; ";"; "layout"; "{"; "}"; "layout"; "{"; "}"]%string
    {| pos := 8;
       cfg := {| urls := []; waittime := 60;
                 cdraw := Some {| box := []; header := 1; errlog := 0 |} |};
       log := [] |} =
  Ret (Next tt)
    {| pos := 11;
       cfg := {| urls := []; waittime := 60;
                 cdraw := Some {| box := []; header := 1; errlog := 0 |} |};
       log := [] |}.
Proof.
  split.
  - destruct (layout_twice spec_h
      ["layout"; "{"; "header"; "}"; ";"; "layout"; "{"; "header"; "}"; ";"]%string)
      as [Hdup _].
    destruct (Hdup state0 state0
      {| pos := 5;
         cfg := {| urls := []; waittime := 60;
                   cdraw := Some {| box := []; header := 1; errlog := 0 |} |};
         log := [] |}
      {| pos := 5;
         cfg := {| urls := []; waittime := 60;
                   cdraw := Some {| box := []; header := 1; errlog := 0 |} |};
         log := [] |}
      "header"%string "header"%string
      ["}"; ";"; "layout"; "{"; "header"; "}"; ";"]%string
      ["}"; ";"]%string) with (argv := @nil string) as (sf & E & R & P & _).
    + apply reach_here.
    + reflexivity.
    + discriminate.
    + vm_compute. reflexivity.
    + apply reach_here.
    + reflexivity.
    + discriminate.
    + exists sf. repeat split; assumption.
  - destruct (layout_twice spec_h
      ["layout"; "{"; "header"; "}"; ";"; "layout"; "{"; "}"; "layout"; "{"; "}"]%string)
      as [_ Hempty].
    apply (Hempty
      {| pos := 8;
         cfg := {| urls := []; waittime := 60;
                   cdraw := Some {| box := []; header := 1; errlog := 0 |} |};
         log := [] |} []).
    reflexivity.
Defined.

(** C3, as stated, fails: a file that declares an empty [layout { }]
    yields the configuration of a file that never declares a layout, with
    no layout. *)
Lemma layout_empty_absent :
  exists s s0,
    config_parse spec_h (Mapped "layout { }") [] = Ret true s /\
    config_parse spec_h (Mapped "waittime 60 ;") [] = Ret true s0 /\
    cfg s = cfg s0 /\ cdraw (cfg s) = None.
Proof.
  eexists _, _. repeat split; vm_compute; reflexivity.
Qed.

(** The empty [host { }] block of C3 on a whole file: [parse_layout_host]
    returns with the cursor still on the [}] of the block, which
    [parse_layout] takes for its own. *)
Example layout_empty_host_rejected :
  config_parse spec_h (Mapped "layout { host { } } ;") [] =
  Ret false
    {| pos := 5;
       cfg := {| urls := []; waittime := 60;
                 cdraw := Some {| box := []; header := 0; errlog := 0 |} |};
       log := [expected_have ";" "}"] |}.
Proof. vm_compute. reflexivity. Qed.

(** C3, amended.  [parse_layout_host] accepts an empty [{ }] block and adds
    no box; an empty [layout { }] statement leaves the configuration as it
    was, so that a file that declares nothing else has no layout, as a
    file without [layout]; the layout is present after a [layout]
    statement whose block is not empty. *)
Theorem layout_empty_blocks (h : slant_h) (toks : list string) (s : state)
    (rest : list string) :
  (remaining toks s = "{"%string :: "}"%string :: rest ->
   exists s',
     parse_layout_host h toks s = Ret true s' /\
     cfg s' = cfg s /\ log s' = log s) /\
  (remaining toks s = "layout"%string :: "{"%string :: "}"%string :: rest ->
   exists s',
     statement h toks s = Ret (Next tt) s' /\
     cfg s' = cfg s /\ log s' = log s) /\
  (exists sf,
     config_parse h (Mapped "layout { }") [] = Ret true sf /\
     cfg sf = cfg state0 /\ cdraw (cfg sf) = None) /\
  (forall t c s',
     remaining toks s = "layout"%string :: "{"%string :: t :: rest ->
     t <> "}"%string ->
     cdraw (cfg s) = None ->
     statement h toks s = Ret c s' ->
     cdraw (cfg s') <> None).
Proof.
  destruct s as [n c lg]. unfold remaining; cbn [pos cfg log].
  split; [|split; [|split]].
  - intros H. eexists. split.
    + unfold parse_layout_host. exec H. reflexivity.
    + split; reflexivity.
  - intros H. eexists. split.
    + apply (statement_layout_empty h toks n c lg rest H).
    + split; reflexivity.
  - eexists. split; [vm_compute; reflexivity|]. split; reflexivity.
  - intros t ctl s' H Ht Hd E. apply String.eqb_neq in Ht.
    exact (statement_layout_alloc h toks n c lg t rest _ _ H Ht Hd E).
Qed.

Lemma layout_empty_blocks_witness :
  (exists s',
     parse_layout_host spec_h ["host"; "{"; "}"]%string
       {| pos := 1;
          cfg := {| urls := []; waittime := 60;
                    cdraw := Some {| box := []; header := 0; errlog := 0 |} |};
          log := [] |} = Ret true s' /\
     cdraw (cfg s') = Some {| box := []; header := 0; errlog := 0 |}) /\
  (exists s',
     statement spec_h ["layout"; "{"; "header"; "}"; ";"]%string state0
       = Ret (Next tt) s' /\
     cdraw (cfg s') <> None).
Proof.
  split.
  - destruct (layout_empty_blocks spec_h ["host"; "{"; "}"]%string
                {| pos := 1;
                   cfg := {| urls := []; waittime := 60;
                             cdraw := Some {| box := []; header := 0; errlog := 0 |} |};
                   log := [] |} []) as (Hhost & _).
    destruct (Hhost eq_refl) as (s' & E & C & _).
    exists s'. split; [exact E|]. rewrite C. reflexivity.
  - destruct (layout_empty_blocks spec_h
                ["layout"; "{"; "header"; "}"; ";"]%string state0
                ["}"; ";"]%string) as (_ & _ & _ & Halloc).
    eexists. split; [vm_compute; reflexivity|].
    eapply (Halloc "header"%string); [reflexivity | discriminate | reflexivity|].
    vm_compute. reflexivity.
Defined.

(** The loops of [parse_layout] and [parse_layout_host] do not go on from
    a [}]. *)
Lemma layout_body_brace (h : slant_h) (toks : list string) n c lg rest s' :
  skipn n toks = "}"%string :: rest ->
  layout_body h toks (Build_state n c lg) <> Ret (Next tt) s'.
Proof.
  intros H. unfold layout_body, layout_item. exec H. discriminate.
Qed.

Lemma layout_host_body_brace (h : slant_h) (toks : list string) n c lg rest s' :
  skipn n toks = "}"%string :: rest ->
  layout_host_body h toks (Build_state n c lg) <> Ret (Next tt) s'.
Proof.
  intros H. unfold layout_host_body. cbn.
  destruct (cdraw c); [|discriminate]. cbn. unfold box_def. exec H.
  discriminate.
Qed.

Lemma layout_body_advances (h : slant_h) (toks : list string) s :
  wp (layout_body h toks)
    (fun c s' => is_next c = true -> (pos s < pos s')%nat) s.
Proof.
  eapply wp_mono; [apply spec_layout_body|]. cbv beta. tauto.
Qed.

Lemma layout_host_body_advances (h : slant_h) (toks : list string) s :
  wp (layout_host_body h toks)
    (fun c s' => is_next c = true -> (pos s < pos s')%nat) s.
Proof.
  eapply wp_mono; [apply spec_layout_host_body|]. cbv beta. tauto.
Qed.

(** Where a loop has gone on from, there was no [}]. *)
Lemma iterates_from_brace (toks : list string) (body : M (ctl unit bool))
    n c lg s' t rest (kw : string) rest' :
  (forall l s'', skipn n toks = "}"%string :: l ->
                 body (Build_state n c lg) <> Ret (Next tt) s'') ->
  iterates toks body (Build_state n c lg) s' ->
  skipn n toks = t :: rest ->
  remaining toks s' = kw :: rest' ->
  (kw =? "}")%string = false ->
  (t =? "}")%string = false.
Proof.
  intros Hb Hit H H' Hkw. inversion Hit as [|? s1 ? Hr E Hit']; subst.
  - unfold remaining in H'; cbn [pos] in H'. congruence.
  - destruct (String.eqb_spec t "}") as [->|]; [|reflexivity].
    destruct (Hb rest s1 H E).
Qed.

(** C8.  After a parse that succeeds every box carries only bits of the
    options of its category, a [host] box exactly its fixed flag.  A box
    definition whose options are followed by a token that is neither an
    option keyword of the category nor [;] nor [}] makes
    [parse_layout_host] return a failure on that token with the diagnostic
    of an unknown token; wherever that box definition stands in a [host]
    block of a [layout] statement of the file, the parse then fails with
    UnknownToken; and whenever an unknown token is reported at all the
    parse has failed with UnknownToken. *)
Theorem box_options_legal (h : slant_h) (fn : file) (toks argv : list string)
    (r : bool) (sf s0 s sl sb : state) (k : drawcat) (kws : list string)
    (t : string) (rest rest1 rest2 : list string) :
  (config_parse h fn argv = Ret true sf -> cfg_legal h (cfg sf) = true) /\
  (forall u, config_parse h fn argv = Ret r sf ->
             In (unknown_token u) (log sf) ->
             r = false /\ reported sf = Some UnknownToken) /\
  (remaining toks sb = cat_keyword k :: kws ++ t :: rest ->
   Forall (fun kw => is_opt (opts_of h k) kw = true) kws ->
   is_opt (opts_of h k) t = false ->
   t <> ";"%string -> t <> "}"%string ->
   (cdraw (cfg sb) <> None ->
    exists sb',
      layout_host_body h toks sb = Ret (Return false) sb' /\
      log sb' = log sb ++ [unknown_token t] /\
      remaining toks sb' = t :: rest) /\
   (reach h toks s0 s ->
    remaining toks s = "layout"%string :: "{"%string :: rest1 ->
    cdraw (cfg s) = None ->
    iterates toks (layout_body h toks)
      {| pos := S (S (pos s));
         cfg := cfg_draw (Some {| box := []; header := 0; errlog := 0 |}) (cfg s);
         log := log s |} sl ->
    remaining toks sl = "host"%string :: "{"%string :: rest2 ->
    iterates toks (layout_host_body h toks) (at_pos (S (S (pos sl))) sl) sb ->
    exists sf',
      config_tokens h toks argv s0 = Ret false sf' /\
      reported sf' = Some UnknownToken /\
      log sf' = log sb ++ [unknown_token t])).
Proof.
  split; [|split].
  - destruct fn as [| |buf]; unfold config_parse.
    + intros E. assert (Hc : cdraw (cfg sf) = None).
      { revert E. unfold config_cmdline. destruct argv; [discriminate|].
        cbn. intros [= <-]. reflexivity. }
      unfold cfg_legal. now rewrite Hc.
    + discriminate.
    + intros E.
      apply (config_tokens_legal h _ _ _ _ _ E); reflexivity.
  - intros u. destruct fn as [| |buf]; unfold config_parse.
    + unfold config_cmdline. destruct argv; [discriminate|].
      cbn. intros [= <- <-] [].
    + cbn. intros [= <- <-] [E|[]]. discriminate.
    + intros E Hin.
      apply (config_tokens_unknown h _ _ _ _ _ u E); [reflexivity | exact Hin].
  - intros Hb Hk Ht Hsemi Hbrace.
    assert (Hf : flag_of (opts_of h k) t = None).
    { unfold is_opt in Ht. destruct (flag_of (opts_of h k) t); congruence. }
    apply String.eqb_neq in Hsemi, Hbrace.
    assert (Hor : ((t =? ";") || (t =? "}"))%string = false).
    { now rewrite Hsemi, Hbrace. }
    assert (Hk0 : (cat_keyword k =? "}")%string = false)
      by (destruct k; reflexivity).
    assert (Hlocal : cdraw (cfg sb) <> None ->
              exists sb',
                layout_host_body h toks sb = Ret (Return false) sb' /\
                log sb' = log sb ++ [unknown_token t] /\
                remaining toks sb' = t :: rest).
    { intros Hd. destruct sb as [n c lg].
      unfold remaining in Hb; cbn [pos cfg log] in *.
      destruct (cdraw c) as [d|] eqn:Ed; [|congruence].
      rewrite layout_host_body_eq.
      rewrite (box_def_run h toks k kws n c lg d t rest Hb Hk Hf Ed).
      cbv zeta. rewrite Hor.
      eexists. split; [reflexivity|]. split; [reflexivity|].
      unfold remaining; cbn [pos].
      replace (S n + length kws)%nat with (n + length (cat_keyword k :: kws))%nat
        by (cbn; lia).
      apply skipn_add_app. exact Hb. }
    split; [exact Hlocal|].
    intros Hre H Hd Hit1 Hsl Hit2.
    pose proof (remaining_in_range _ _ _ _ H) as Hin.
    pose proof (remaining_in_range _ _ _ _ Hsl) as Hinl.
    pose proof (remaining_in_range _ _ _ _ Hb) as Hinb.
    (* the layout stays allocated up to the box definition *)
    pose proof (iterates_post toks _ (boxes_legal h) _ _
                  (fun s => wp_mono _ _ _ _ (spec_layout_body h toks s)
                              (fun _ _ H => proj1 H)) Hit1)
      as (_ & _ & Hp1 & _).
    pose proof (iterates_post toks _ (boxes_legal h) _ _
                  (fun s => wp_mono _ _ _ _ (spec_layout_host_body h toks s)
                              (fun _ _ H => proj1 H)) Hit2)
      as (Hpos2 & _ & Hp2 & _).
    cbn [cfg cfg_draw cdraw at_pos] in Hp1, Hp2.
    specialize (Hp1 ltac:(discriminate)). specialize (Hp2 Hp1).
    destruct (Hlocal Hp2) as (sb' & Eb & Lb & Rb).
    destruct s as [n c lg]. unfold remaining in H; cbn [pos cfg log] in *.
    destruct sl as [nl cl lgl]. unfold remaining in Hsl; cbn [pos cfg log] in *.
    unfold at_pos in Hit2; cbn [pos cfg log] in Hit2.
    (* neither block is empty *)
    destruct rest1 as [|t1 rest1].
    { exfalso. inversion Hit1 as [|? s1 ? Hr E Hit']; subst.
      - rewrite !skipn_S_tl, H in Hsl. discriminate.
      - rewrite in_range_run, !skipn_S_tl, H in Hr. discriminate. }
    assert (Ht1 : (t1 =? "}")%string = false).
    { eapply (iterates_from_brace toks (layout_body h toks)); try exact Hit1.
      - intros l s'' Hl. eapply layout_body_brace; exact Hl.
      - rewrite !skipn_S_tl, H. reflexivity.
      - unfold remaining; cbn [pos]. exact Hsl.
      - reflexivity. }
    destruct rest2 as [|t2 rest2].
    { exfalso. inversion Hit2 as [|? s1 ? Hr E Hit']; subst.
      - unfold remaining in Hb; cbn [pos] in Hb.
        rewrite !skipn_S_tl, Hsl in Hb. discriminate.
      - rewrite in_range_run, !skipn_S_tl, Hsl in Hr. discriminate. }
    assert (Ht2 : (t2 =? "}")%string = false).
    { eapply (iterates_from_brace toks (layout_host_body h toks)); try exact Hit2.
      - intros l s'' Hl. eapply layout_host_body_brace; exact Hl.
      - rewrite !skipn_S_tl, Hsl. reflexivity.
      - exact Hb.
      - exact Hk0. }
    (* the loop of [parse_layout_host] returns the failure *)
    assert (Ehost : parse_layout_host h toks (Build_state (S nl) cl lgl)
                    = Ret false sb').
    { unfold parse_layout_host. exec Hsl. rewrite Ht2. cbn.
      rewrite (loop_iterates toks _ (layout_host_body_advances h toks) _ _ Hit2).
      rewrite (loop_return toks _ sb sb' false Hinb Eb). reflexivity. }
    assert (Elay : layout_body h toks (Build_state nl cl lgl)
                   = Ret (Return false) sb').
    { unfold layout_body, layout_item. exec Hsl. rewrite Ehost. reflexivity. }
    assert (Estmt : statement h toks (Build_state n c lg) = Ret (Break tt) sb').
    { unfold statement. exec H. unfold parse_layout. exec H. rewrite Ht1.
      exec H. rewrite Hd. cbn.
      rewrite (loop_iterates toks _ (layout_body_advances h toks) _ _ Hit1).
      rewrite (loop_return toks _ _ sb' false Hinl Elay). reflexivity. }
    exists sb'. split; [|split].
    + eapply config_tokens_fail; [exact Hre | exact Hin | exact Estmt |].
      unfold remaining in Rb. eapply skipn_cons_neq. exact Rb.
    + unfold reported. rewrite Lb, map_app. cbn [map]. rewrite last_last.
      reflexivity.
    + exact Lb.
Qed.

Lemma box_options_legal_witness :
  (exists sf,
     config_parse spec_h
       (Mapped "layout { host { cpu hour day ; mem min ; } ; } ;") [] = Ret true sf /\
     cfg_legal spec_h (cfg sf) = true) /\
  (exists sf,
     config_tokens spec_h
       (tokenize "layout { header ; host { cpu hour ; mem foo ; } ; } ;")
       [] state0 = Ret false sf /\
     reported sf = Some UnknownToken /\ log sf = [unknown_token "foo"]).
Proof.
  split.
  - eexists. split; [vm_compute; reflexivity|].
    refine (proj1 (box_options_legal spec_h
      (Mapped "layout { host { cpu hour day ; mem min ; } ; } ;") [] []
      true _ state0 state0 state0 state0 DRAWCAT_CPU [] EmptyString [] [] []) _).
    vm_compute. reflexivity.
  - pose (toks := tokenize "layout { header ; host { cpu hour ; mem foo ; } ; } ;").
    pose (d1 := {| box := []; header := 1; errlog := 0 |}).
    pose (d2 := {| box := [{| cat := DRAWCAT_CPU; args := 4 |}];
                   header := 1; errlog := 0 |}).
    pose (sl := {| pos := 4;
                   cfg := {| urls := []; waittime := 60; cdraw := Some d1 |};
                   log := [] |}).
    pose (sb := {| pos := 9;
                   cfg := {| urls := []; waittime := 60; cdraw := Some d2 |};
                   log := [] |}).
    destruct (box_options_legal spec_h NoEnt toks [] true state0 state0 state0
      sl sb DRAWCAT_MEM [] "foo" [";"; "}"; ";"; "}"; ";"]%string
      (skipn 2 toks) (skipn 6 toks)) as (_ & _ & Hunk).
    destruct Hunk as (_ & Hfile).
    + reflexivity.
    + constructor.
    + reflexivity.
    + discriminate.
    + discriminate.
    + destruct Hfile as (sf & E & R & L).
      * apply reach_here.
      * reflexivity.
      * reflexivity.
      * eapply iterates_next; [reflexivity | vm_compute; reflexivity |].
        apply iterates_here.
      * reflexivity.
      * eapply iterates_next; [reflexivity | vm_compute; reflexivity |].
        apply iterates_here.
      * exists sf. repeat split; assumption.
Defined.

(** The example of C8 in the specification: [foo;] is one token, and
    unknown. *)
Example layout_unknown_option :
  config_parse spec_h (Mapped "layout { host { cpu foo; } }") [] =
  Ret false
    {| pos := 5;
       cfg := {| urls := []; waittime := 60;
                 cdraw := Some {| box := [{| cat := DRAWCAT_CPU; args := 0 |}];
                                  header := 0; errlog := 0 |} |};
       log := [unknown_token "foo;"] |}.
Proof. vm_compute. reflexivity. Qed.

(** Unions of flags depend on the set of the flags only. *)
Lemma fold_lor_same_set (l1 l2 : list Z) (a : Z) :
  (forall f, In f l1 <-> In f l2) ->
  fold_left Z.lor l1 a = fold_left Z.lor l2 a.
Proof.
  intros H. apply Z.bits_inj'. intros i _. rewrite !fold_lor_testbit. f_equal.
  apply eq_true_iff_eq. rewrite !existsb_exists.
  split; intros (f & Hin & Hb); exists f; (split; [apply H; exact Hin | exact Hb]).
Qed.

Lemma in_flags_of tbl kws f :
  In f (flags_of tbl kws) <-> exists kw, In kw kws /\ flag_of tbl kw = Some f.
Proof.
  unfold flags_of. rewrite in_flat_map. split.
  - intros (kw & Hin & Hf). exists kw. split; [exact Hin|].
    destruct (flag_of tbl kw) as [f'|]; [|destruct Hf].
    destruct Hf as [->|[]]. reflexivity.
  - intros (kw & Hin & Hf). exists kw. split; [exact Hin|].
    rewrite Hf. left; reflexivity.
Qed.

Lemma flags_of_same_set tbl kws kws' a :
  incl kws kws' -> incl kws' kws ->
  fold_left Z.lor (flags_of tbl kws) a = fold_left Z.lor (flags_of tbl kws') a.
Proof.
  intros H1 H2. apply fold_lor_same_set. intros f. rewrite !in_flags_of.
  split; intros (kw & Hin & Hf); exists kw; split; auto.
Qed.

(** C10, as stated, fails: a [host] box lists no option keyword and its
    options are not the empty union. *)
Lemma host_box_not_empty_union :
  exists sf d b,
    config_parse spec_h (Mapped "layout { host { host } ; } ;") [] = Ret true sf /\
    cdraw (cfg sf) = Some d /\ box d = [b] /\ cat b = DRAWCAT_HOST /\
    args b <> or_all (flags_of (opts_of spec_h (cat b)) []).
Proof.
  eexists _, _, _. split; [vm_compute; reflexivity|].
  split; [reflexivity|]. split; [reflexivity|]. split; [reflexivity|].
  vm_compute. discriminate.
Qed.

(** C10, amended.  A box definition of a category other than [host]
    appends a box whose options are the union, from zero, of the flags of
    the option keywords it lists; a [host] box lists none and carries
    [HOST_ACCESS]; so two lists of option keywords with the same members,
    whatever their order and repetitions, give the same options. *)
Theorem box_options_union (h : slant_h) (toks : list string) (s : state)
    (k : drawcat) (kws : list string) (term : string) (rest : list string)
    (d : draw) :
  remaining toks s = cat_keyword k :: kws ++ term :: rest ->
  Forall (fun kw => is_opt (opts_of h k) kw = true) kws ->
  term = ";"%string \/ term = "}"%string ->
  cdraw (cfg s) = Some d ->
  exists b,
    (box_append h;;; box_def h toks) s =
    Ret None
      {| pos := S (pos s) + length kws;
         cfg := cfg_draw (Some {| box := box d ++ [b]; header := header d;
                                  errlog := errlog d |}) (cfg s);
         log := log s |} /\
    cat b = k /\
    (k <> DRAWCAT_HOST -> args b = or_all (flags_of (opts_of h k) kws)) /\
    (k = DRAWCAT_HOST -> kws = [] /\ args b = HOST_ACCESS h) /\
    (forall kws',
       incl kws kws' -> incl kws' kws ->
       or_all (flags_of (opts_of h k) kws') = or_all (flags_of (opts_of h k) kws)).
Proof.
  intros H Hk Hterm Hd. destruct s as [n c lg].
  unfold remaining in H; cbn [pos cfg log] in *.
  assert (Hf : flag_of (opts_of h k) term = None).
  { destruct Hterm as [-> | ->]; destruct k; reflexivity. }
  assert (Hor : ((term =? ";") || (term =? "}"))%string = true).
  { destruct Hterm as [-> | ->]; reflexivity. }
  eexists. split; [|split; [|split; [|split]]].
  - rewrite (box_def_run h toks k kws n c lg d term rest H Hk Hf Hd).
    cbv zeta. rewrite Hor. reflexivity.
  - reflexivity.
  - intros Hne. cbn [args]. unfold or_all. destruct k; try reflexivity.
    congruence.
  - intros ->. cbn [args init_args]. destruct kws as [|kw kws].
    + split; reflexivity.
    + inversion Hk as [|? ? Hkw _]. discriminate.
  - intros kws' H1 H2. unfold or_all. symmetry.
    apply flags_of_same_set; assumption.
Qed.

Lemma box_options_union_witness :
  exists b,
    (box_append spec_h;;; box_def spec_h ["cpu"; "day"; "hour"; "day"; ";"]%string)
      {| pos := 0;
         cfg := {| urls := []; waittime := 60;
                   cdraw := Some {| box := []; header := 0; errlog := 0 |} |};
         log := [] |} =
    Ret None
      {| pos := 4;
         cfg := {| urls := []; waittime := 60;
                   cdraw := Some {| box := [b]; header := 0; errlog := 0 |} |};
         log := [] |} /\
    args b = or_all [CPU_DAY spec_h; CPU_HOUR spec_h; CPU_DAY spec_h] /\
    or_all (flags_of (opts_of spec_h DRAWCAT_CPU) ["hour"; "day"]%string) = args b.
Proof.
  destruct (box_options_union spec_h ["cpu"; "day"; "hour"; "day"; ";"]%string
    {| pos := 0;
       cfg := {| urls := []; waittime := 60;
                 cdraw := Some {| box := []; header := 0; errlog := 0 |} |};
       log := [] |}
    DRAWCAT_CPU ["day"; "hour"; "day"]%string ";" []
    {| box := []; header := 0; errlog := 0 |})
    as (b & E & _ & Hu & _ & Hset).
  - reflexivity.
  - repeat constructor.
  - left; reflexivity.
  - reflexivity.
  - exists b. split; [exact E|]. split.
    + rewrite Hu by discriminate. reflexivity.
    + rewrite Hu by discriminate. apply Hset.
      * intros x [<-|[<-|[<-|[]]]]; cbn; auto.
      * intros x [<-|[<-|[]]]; cbn; auto.
Defined.

(** The parser never runs out of the fuel its loops are given: whatever
    the file, [config_parse] returns or stops on a fault of the program. *)
Theorem config_parse_total (h : slant_h) (fn : file) (argv : list string) :
  config_parse h fn argv <> Crash OutOfFuel.
Proof.
  destruct fn as [| |buf]; unfold config_parse.
  - unfold config_cmdline. destruct argv; discriminate.
  - discriminate.
  - apply config_tokens_total.
Qed.

(** * Further properties of the code *)

(** ** The tokenizer *)

Lemma str_forall_app p (a b : string) :
  str_forall p (a ++ b) = str_forall p a && str_forall p b.
Proof.
  induction a as [|c a IH]; cbn; [reflexivity|].
  rewrite IH. now rewrite andb_assoc.
Qed.

Lemma str_forall_impl (p q : ascii -> bool) s :
  (forall c, p c = true -> q c = true) ->
  str_forall p s = true -> str_forall q s = true.
Proof.
  intros H. induction s as [|c s IH]; cbn; [reflexivity|].
  intros E. apply andb_true_iff in E as [E1 E2].
  rewrite (H c E1), (IH E2). reflexivity.
Qed.

Lemma string_app_nil_r (s : string) : (s ++ EmptyString)%string = s.
Proof. induction s as [|c s IH]; cbn; [reflexivity | now rewrite IH]. Qed.

Lemma string_app_assoc (a b c : string) :
  ((a ++ b) ++ c)%string = (a ++ (b ++ c))%string.
Proof. induction a as [|x a IH]; cbn; [reflexivity | now rewrite IH]. Qed.

Lemma c_string_app (a b : string) :
  str_forall (fun c => negb (is_nul c)) a = true ->
  c_string (a ++ b) = (a ++ c_string b)%string.
Proof.
  induction a as [|c a IH]; cbn; [reflexivity|].
  intros E. apply andb_true_iff in E as [E1 E2]. unfold is_nul in E1.
  apply negb_true_iff in E1. rewrite E1, (IH E2). reflexivity.
Qed.

Lemma c_string_no_nul (s : string) :
  str_forall (fun c => negb (is_nul c)) (c_string s) = true.
Proof.
  induction s as [|c s IH]; cbn [c_string]; [reflexivity|].
  destruct (nat_of_ascii c =? 0)%nat eqn:E; [reflexivity|].
  cbn [str_forall]. unfold is_nul at 1. rewrite E, IH. reflexivity.
Qed.

Lemma c_string_id (s : string) :
  str_forall (fun c => negb (is_nul c)) s = true -> c_string s = s.
Proof.
  intros H. rewrite <- (string_app_nil_r s) at 1.
  rewrite (c_string_app s EmptyString H). cbn. apply string_app_nil_r.
Qed.

Lemma strsep_all_app_delim (a : string) (c : ascii) (b cur : string) :
  is_delim c = true ->
  strsep_all (a ++ String c b) cur = strsep_all a cur ++ strsep_all b EmptyString.
Proof.
  intros Hc. revert cur. induction a as [|x a IH]; intros cur; cbn.
  - rewrite Hc. reflexivity.
  - destruct (is_delim x); [now rewrite IH | apply IH].
Qed.

Lemma strsep_all_token (t cur : string) :
  str_forall (fun c => negb (is_delim c)) t = true ->
  strsep_all t cur = [(cur ++ t)%string].
Proof.
  revert cur. induction t as [|c t IH]; intros cur; cbn.
  - now rewrite string_app_nil_r.
  - intros E. apply andb_true_iff in E as [E1 E2].
    apply negb_true_iff in E1. rewrite E1, (IH _ E2), string_app_assoc.
    reflexivity.
Qed.

Lemma strsep_all_forall p (s cur : string) :
  str_forall p cur = true ->
  str_forall (fun c => is_delim c || p c) s = true ->
  Forall (fun t => str_forall p t = true) (strsep_all s cur).
Proof.
  revert cur. induction s as [|c s IH]; intros cur Hcur; cbn.
  - intros _. constructor; [exact Hcur | constructor].
  - intros E. apply andb_true_iff in E as [E1 E2].
    destruct (is_delim c) eqn:Ed.
    + constructor; [exact Hcur | apply IH; [reflexivity | exact E2]].
    + apply IH; [|exact E2]. rewrite str_forall_app, Hcur. cbn.
      cbn in E1. now rewrite E1.
Qed.

Lemma strip_delims_app (a b : string) :
  strip_delims (a ++ b) = (strip_delims a ++ strip_delims b)%string.
Proof.
  induction a as [|c a IH]; cbn; [reflexivity|].
  destruct (is_delim c); cbn; now rewrite IH.
Qed.

Lemma strip_delims_token (t : string) :
  str_forall (fun c => negb (is_delim c)) t = true -> strip_delims t = t.
Proof.
  induction t as [|c t IH]; cbn; [reflexivity|].
  intros E. apply andb_true_iff in E as [E1 E2].
  apply negb_true_iff in E1. now rewrite E1, (IH E2).
Qed.

Lemma concat_strsep_all (s cur : string) :
  fold_right append EmptyString (strsep_all s cur) = (cur ++ strip_delims s)%string.
Proof.
  revert cur. induction s as [|c s IH]; intros cur; cbn [strsep_all strip_delims].
  - reflexivity.
  - destruct (is_delim c).
    + cbn [fold_right]. now rewrite IH.
    + rewrite IH, string_app_assoc. reflexivity.
Qed.

Lemma concat_filter_nonempty (l : list string) :
  fold_right append EmptyString
    (filter (fun cp => negb (cp =? EmptyString)%string) l) =
  fold_right append EmptyString l.
Proof.
  induction l as [|x l IH]; [reflexivity|].
  cbn [filter]. destruct x as [|c x]; cbn [String.eqb negb fold_right].
  - exact IH.
  - now rewrite IH.
Qed.

Lemma tokenize_token (t : string) :
  clean_token t = true -> tokenize t = [t].
Proof.
  unfold clean_token, tokenize. intros E.
  apply andb_true_iff in E as [E1 E2].
  rewrite c_string_id.
  - rewrite strsep_all_token.
    + cbn [append filter]. now rewrite E1.
    + eapply str_forall_impl; [|exact E2].
      unfold token_char. intros c H. now apply andb_true_iff in H as [H _].
  - eapply str_forall_impl; [|exact E2].
    unfold token_char. intros c H. now apply andb_true_iff in H as [_ H].
Qed.

Lemma tokenize_app_delim (a b : string) (c : ascii) :
  str_forall (fun c => negb (is_nul c)) a = true ->
  is_delim c = true ->
  tokenize (a ++ String c b) = tokenize a ++ tokenize b.
Proof.
  intros Ha Hc. unfold tokenize.
  assert (Hn : (nat_of_ascii c =? 0)%nat = false).
  { unfold is_delim in Hc. destruct (nat_of_ascii c) as [|n]; [discriminate|reflexivity]. }
  rewrite (c_string_app a (String c b) Ha). cbn [c_string]. rewrite Hn.
  rewrite (strsep_all_app_delim a c (c_string b) EmptyString Hc), filter_app.
  now rewrite (c_string_id a Ha).
Qed.

Lemma c_string_app_nul (a b : string) (c : ascii) :
  is_nul c = true -> c_string (a ++ String c b) = c_string a.
Proof.
  intros Hc. induction a as [|x a IH]; cbn [append c_string].
  - unfold is_nul in Hc. now rewrite Hc.
  - destruct (nat_of_ascii x =? 0)%nat; [reflexivity | now rewrite IH].
Qed.

(** X1.  The tokens of a file are not empty and hold no space, tab, CR,
    LF or NUL; put end to end they are the file up to its first NUL with
    these four delimiters removed: the tokenizer drops white space and
    nothing else, and knows no quoting and no comment. *)
Theorem tokenize_tokens (buf : string) :
  Forall (fun t => clean_token t = true) (tokenize buf) /\
  fold_right append EmptyString (tokenize buf) = strip_delims (c_string buf).
Proof.
  split.
  - unfold tokenize. apply Forall_forall. intros t Ht.
    apply filter_In in Ht as [Ht Hne]. unfold clean_token. rewrite Hne. cbn.
    assert (H : Forall (fun t => str_forall token_char t = true)
                  (strsep_all (c_string buf) EmptyString)).
    { apply strsep_all_forall; [reflexivity|].
      eapply str_forall_impl; [|apply c_string_no_nul].
      intros c Hc. unfold token_char. rewrite Hc.
      destruct (is_delim c); reflexivity. }
    rewrite Forall_forall in H. exact (H t Ht).
  - unfold tokenize. rewrite concat_filter_nonempty, concat_strsep_all.
    reflexivity.
Qed.

(** X2.  A delimiter splits the file: the tokens of a text with no NUL
    followed by a space, tab, CR or LF and a second text are the tokens of
    the first followed by those of the second; so runs of delimiters count
    as one and a token never spans a delimiter. *)
Theorem tokenize_app (a b : string) (c : ascii) :
  str_forall (fun c => negb (is_nul c)) a = true ->
  is_delim c = true ->
  tokenize (a ++ String c b) = tokenize a ++ tokenize b.
Proof. apply tokenize_app_delim. Qed.

Lemma tokenize_app_witness :
  tokenize ("servers x" ++ String " " " y ;") = tokenize "servers x" ++ tokenize " y ;".
Proof. apply (tokenize_app "servers x" " y ;" " "); reflexivity. Defined.

(** X3.  The buffer is a C string: what follows the first NUL byte of the
    file is not tokenized. *)
Theorem tokenize_nul (a b : string) :
  tokenize (a ++ String Ascii.zero b) = tokenize a.
Proof.
  unfold tokenize. now rewrite (c_string_app_nul a b Ascii.zero eq_refl).
Qed.

Lemma tokenize_spaced (toks : list string) :
  Forall (fun t => clean_token t = true) toks ->
  tokenize (String.concat " " toks) = toks.
Proof.
  induction toks as [|t toks IH]; intros H; [reflexivity|].
  inversion H as [|? ? Ht Hl]; subst.
  destruct toks as [|t' toks]; [exact (tokenize_token t Ht)|].
  change (String.concat " " (t :: t' :: toks))
    with (t ++ String " " (String.concat " " (t' :: toks)))%string.
  rewrite tokenize_app_delim.
  - rewrite (tokenize_token t Ht), (IH Hl). reflexivity.
  - unfold clean_token in Ht. apply andb_true_iff in Ht as [_ Ht].
    eapply str_forall_impl; [|exact Ht].
    unfold token_char. intros c Hc. now apply andb_true_iff in Hc as [_ Hc].
  - reflexivity.
Qed.

(** X4.  Tokens written with one space between them are read back as they
    were: every list of strings that are not empty and hold no delimiter
    and no NUL is the token list of a file. *)
Theorem tokenize_concat (toks : list string) :
  Forall (fun t => clean_token t = true) toks ->
  tokenize (String.concat " " toks) = toks.
Proof. apply tokenize_spaced. Qed.

Lemma tokenize_concat_witness :
  tokenize (String.concat " " ["servers"; "a"; ";"]%string)
  = ["servers"; "a"; ";"]%string.
Proof.
  apply (tokenize_concat ["servers"; "a"; ";"]%string).
  repeat constructor.
Defined.

(** ** The file as a whole *)

Lemma tokenize_blank (buf : string) :
  str_forall is_delim buf = true -> tokenize buf = [].
Proof.
  intros Hb. destruct (tokenize_tokens buf) as [Hc Hs].
  assert (E : strip_delims (c_string buf) = EmptyString).
  { rewrite c_string_id.
    - clear Hc Hs. induction buf as [|c buf IH]; cbn in *; [reflexivity|].
      apply andb_true_iff in Hb as [H1 H2]. rewrite H1. exact (IH H2).
    - eapply str_forall_impl; [|exact Hb].
      intros c H. unfold is_nul. unfold is_delim in H.
      destruct (nat_of_ascii c); [discriminate | reflexivity]. }
  rewrite E in Hs. destruct (tokenize buf) as [|t l]; [reflexivity|].
  inversion Hc as [|? ? Ht _]; subst. unfold clean_token in Ht.
  destruct t; [discriminate | cbn in Hs; discriminate].
Qed.

(** X5.  A file of at least one byte that holds white space only (no
    token at all) is a valid configuration: the parse succeeds, reporting
    nothing, with the default waittime of 60, no layout, and for servers
    those of the command line, none without arguments.  (A file of no
    bytes is not mapped: [mmap] fails on it.) *)
Theorem blank_file (h : slant_h) (buf : string) (argv : list string) :
  buf <> EmptyString ->
  str_forall is_delim buf = true ->
  config_parse h (Mapped buf) argv =
  Ret true
    {| pos := 0;
       cfg := {| urls := map (entry 0) argv; waittime := 60; cdraw := None |};
       log := [] |}.
Proof.
  intros _ Hb. unfold config_parse. rewrite (tokenize_blank buf Hb).
  rewrite config_tokens_run, config_loop_eof by reflexivity.
  cbn. destruct argv; reflexivity.
Qed.

Lemma blank_file_witness :
  config_parse spec_h (Mapped (String " " (String (ascii_of_nat 10) EmptyString)))
    ["h1"%string] =
  Ret true
    {| pos := 0;
       cfg := {| urls := [entry 0 "h1"]; waittime := 60; cdraw := None |};
       log := [] |}.
Proof.
  apply (blank_file spec_h (String " " (String (ascii_of_nat 10) EmptyString))
           ["h1"%string]).
  - discriminate.
  - reflexivity.
Defined.



(** X7.  A token that opens no statement (none of [servers], [layout] and
    [waittime]) where a statement is expected fails the parse with
    UnknownToken: the token is reported, the cursor stays on it and the
    configuration is what the statements before it made. *)
Theorem unknown_statement (h : slant_h) (toks : list string) (s0 s : state)
    (t : string) (rest argv : list string) :
  reach h toks s0 s ->
  remaining toks s = t :: rest ->
  t <> "servers"%string -> t <> "layout"%string -> t <> "waittime"%string ->
  config_tokens h toks argv s0 =
    Ret false {| pos := pos s; cfg := cfg s; log := log s ++ [unknown_token t] |} /\
  reported {| pos := pos s; cfg := cfg s; log := log s ++ [unknown_token t] |}
    = Some UnknownToken.
Proof.
  intros Hre H N1 N2 N3. split; [|apply reported_app].
  apply (config_tokens_fail h toks argv s0 s); auto.
  - eapply remaining_in_range; eauto.
  - destruct s as [n c lg]. unfold remaining in H; cbn [pos] in H.
    apply String.eqb_neq in N1, N2, N3.
    unfold statement. exec H. rewrite N1. exec H. rewrite N2. exec H.
    rewrite N3. exec H. reflexivity.
  - cbn [pos]. eapply skipn_cons_neq. exact H.
Qed.

Lemma unknown_statement_witness :
  config_tokens spec_h ["waittime"; "30"; ";"; "server"; "a"; ";"]%string []
    state0 =
  Ret false
    {| pos := 3;
       cfg := {| urls := []; waittime := 30; cdraw := None |};
       log := [unknown_token "server"] |}.
Proof.
  refine (proj1 (unknown_statement spec_h
                   ["waittime"; "30"; ";"; "server"; "a"; ";"]%string state0
                   {| pos := 3;
                      cfg := {| urls := []; waittime := 30; cdraw := None |};
                      log := [] |}
                   "server" ["a"; ";"]%string [] _ eq_refl _ _ _));
    try discriminate.
  eapply reach_next; [reflexivity | reflexivity | apply reach_here].
Defined.

(** ** What every parse guarantees

    A second calculus, for [safe]: the rules of [wp] with the two faults of
    the cursor as the only ones allowed, so that an update through
    [cfg->draw] asks for the layout to be allocated. *)

Section SafeRules.

Variable toks : list string.

Lemma safe_ret {A} (a : A) (Q : A -> state -> Prop) s : Q a s -> safe (ret a) Q s.
Proof. intros H; exact H. Qed.

Lemma safe_bind {A B} (m : M A) (k : A -> M B) (Q : B -> state -> Prop) s :
  safe m (fun a s' => safe (k a) Q s') s -> safe (bind m k) Q s.
Proof.
  unfold safe, bind. destruct (m s) as [a s'|f]; auto.
Qed.

Lemma safe_mono {A} (m : M A) (Q Q' : A -> state -> Prop) s :
  safe m Q s -> (forall a s', Q a s' -> Q' a s') -> safe m Q' s.
Proof.
  unfold safe. destruct (m s) as [a s'|f]; auto.
Qed.

Lemma safe_ret_inv {A} (m : M A) (Q : A -> state -> Prop) s a s' :
  safe m Q s -> m s = Ret a s' -> Q a s'.
Proof. unfold safe. intros H E. now rewrite E in H. Qed.

Lemma safe_crash_inv {A} (m : M A) (Q : A -> state -> Prop) s f :
  safe m Q s -> m s = Crash f -> f = AssertFail \/ f = OutOfBounds.
Proof. unfold safe. intros H E. now rewrite E in H. Qed.

Lemma safe_get (Q : state -> state -> Prop) s : Q s s -> safe get Q s.
Proof. intros H; exact H. Qed.

Lemma safe_warnx d (Q : unit -> state -> Prop) s :
  Q tt (logged d s) -> safe (warnx d) Q s.
Proof. intros H; exact H. Qed.

Lemma safe_pos_incr (Q : unit -> state -> Prop) s :
  Q tt (at_pos (S (pos s)) s) -> safe pos_incr Q s.
Proof. intros H; exact H. Qed.

Lemma safe_set_waittime w (Q : unit -> state -> Prop) s :
  Q tt (with_cfg (cfg_waittime w (cfg s)) s) -> safe (set_waittime w) Q s.
Proof. intros H; exact H. Qed.

Lemma safe_set_urls us (Q : unit -> state -> Prop) s :
  Q tt (with_cfg (cfg_urls us (cfg s)) s) -> safe (set_urls us) Q s.
Proof. intros H; exact H. Qed.

Lemma safe_set_draw d (Q : unit -> state -> Prop) s :
  Q tt (with_cfg (cfg_draw d (cfg s)) s) -> safe (set_draw d) Q s.
Proof. intros H; exact H. Qed.

Lemma safe_with_draw f (Q : unit -> state -> Prop) s :
  cdraw (cfg s) <> None ->
  (forall d, cdraw (cfg s) = Some d ->
             Q tt (with_cfg (cfg_draw (Some (f d)) (cfg s)) s)) ->
  safe (with_draw f) Q s.
Proof.
  unfold safe, with_draw. intros Hd H.
  destruct (cdraw (cfg s)) as [d|]; [apply H; reflexivity | congruence].
Qed.

Lemma safe_assert b (Q : unit -> state -> Prop) s :
  (b = true -> Q tt s) -> safe (assert b) Q s.
Proof.
  unfold safe, assert. destruct b; cbn; auto.
Qed.

Lemma safe_tok_cur (Q : string -> state -> Prop) s :
  (forall t, (pos s < toksz toks)%nat -> Q t s) ->
  safe (tok_cur toks) Q s.
Proof.
  unfold safe, tok_cur. intros H.
  destruct (nth_error toks (pos s)) eqn:E; [|auto].
  apply H. eapply nth_error_in_range; eauto.
Qed.

Lemma safe_tok_unknown (Q : bool -> state -> Prop) s :
  (forall t, (pos s < toksz toks)%nat -> Q false (logged (unknown_token t) s)) ->
  safe (tok_unknown toks) Q s.
Proof.
  intros H. unfold tok_unknown. apply safe_bind, safe_tok_cur. intros t Ht.
  apply safe_bind, safe_warnx, safe_ret, H. exact Ht.
Qed.

Lemma safe_tok_nadv (Q : bool -> state -> Prop) s :
  ((pos s < toksz toks)%nat -> Q true s) ->
  ((toksz toks <= pos s)%nat -> Q false (logged unexpected_eof s)) ->
  safe (tok_nadv toks) Q s.
Proof.
  intros H1 H2. unfold tok_nadv. apply safe_bind, safe_get.
  destruct (Nat.leb_spec (toksz toks) (pos s)).
  - apply safe_bind, safe_warnx, safe_ret. auto.
  - apply safe_ret. auto.
Qed.

Lemma safe_tok_expect v (Q : bool -> state -> Prop) s :
  ((pos s < toksz toks)%nat -> Q true s) ->
  ((pos s < toksz toks)%nat -> forall t, Q false (logged (expected_have v t) s)) ->
  ((toksz toks <= pos s)%nat -> Q false (logged unexpected_eof s)) ->
  safe (tok_expect toks v) Q s.
Proof.
  intros H1 H2 H3. unfold tok_expect. apply safe_bind, safe_tok_nadv; intros Hr; cbn.
  - apply safe_bind, safe_tok_cur. intros t Ht.
    destruct (t =? v)%string; [apply safe_ret; auto|].
    apply safe_bind, safe_warnx, safe_ret. auto.
  - apply safe_ret. auto.
Qed.

Lemma safe_tok_expect_adv v (Q : bool -> state -> Prop) s :
  ((pos s < toksz toks)%nat -> Q true (at_pos (S (pos s)) s)) ->
  ((pos s < toksz toks)%nat -> forall t, Q false (logged (expected_have v t) s)) ->
  ((toksz toks <= pos s)%nat -> Q false (logged unexpected_eof s)) ->
  safe (tok_expect_adv toks v) Q s.
Proof.
  intros H1 H2 H3. unfold tok_expect_adv.
  apply safe_bind, safe_tok_expect; intros; try intros ?.
  - apply safe_bind, safe_pos_incr, safe_ret. auto.
  - apply safe_ret. auto.
  - apply safe_ret. auto.
Qed.

Lemma safe_tok_eq v (Q : bool -> state -> Prop) s :
  ((pos s < toksz toks)%nat -> forall b, Q b s) ->
  safe (tok_eq toks v) Q s.
Proof.
  intros H. unfold tok_eq. apply safe_bind, safe_get, safe_bind, safe_assert.
  intros Hr. apply Nat.ltb_lt in Hr.
  apply safe_bind, safe_tok_cur. intros t _. apply safe_ret. auto.
Qed.

Lemma safe_tok_eq_adv v (Q : bool -> state -> Prop) s :
  ((pos s < toksz toks)%nat -> Q true (at_pos (S (pos s)) s)) ->
  ((pos s < toksz toks)%nat -> Q false s) ->
  safe (tok_eq_adv toks v) Q s.
Proof.
  intros H1 H2. unfold tok_eq_adv. apply safe_bind, safe_get, safe_bind, safe_assert.
  intros Hr. apply Nat.ltb_lt in Hr.
  apply safe_bind, safe_tok_cur. intros t _.
  destruct (t =? v)%string.
  - apply safe_bind, safe_pos_incr, safe_ret. auto.
  - apply safe_ret. auto.
Qed.

Lemma safe_tok_adv (Q : bool -> state -> Prop) s :
  safe (tok_nadv toks) Q (at_pos (S (pos s)) s) -> safe (tok_adv toks) Q s.
Proof.
  intros H. unfold tok_adv. apply safe_bind, safe_pos_incr. exact H.
Qed.

Lemma safe_while_fuel {A R} (cond : A -> state -> bool)
    (body : A -> M (ctl A R)) (I : A -> state -> Prop)
    (Q : A + R -> state -> Prop) :
  (forall a s, I a s -> cond a s = true ->
     (pos s < toksz toks)%nat /\
     safe (body a)
       (fun c s' => match c with
                    | Next a' => I a' s' /\ (pos s < pos s')%nat
                    | Break a' => Q (inl a') s'
                    | Return r => Q (inr r) s'
                    end) s) ->
  (forall a s, I a s -> cond a s = false -> Q (inl a) s) ->
  forall fuel a s, (toksz toks - pos s < fuel)%nat -> I a s ->
    safe (while_fuel fuel cond body a) Q s.
Proof.
  intros Hbody Hexit. induction fuel as [|fuel IH]; intros a s Hf Hi; [lia|].
  unfold safe. cbn [while_fuel].
  destruct (cond a s) eqn:Ec; [|apply Hexit; auto].
  destruct (Hbody a s Hi Ec) as [Hr Hb]. unfold safe in Hb.
  destruct (body a s) as [[a'|a'|r] s'|f]; auto.
  destruct Hb as [Hi' Hlt]. apply IH; auto. lia.
Qed.

(** Loops: an invariant that every iteration which goes on keeps while
    advancing the cursor. *)
Lemma safe_while {A R} (cond : A -> state -> bool)
    (body : A -> M (ctl A R)) (I : A -> state -> Prop)
    (Q : A + R -> state -> Prop) :
  (forall a s, I a s -> cond a s = true ->
     (pos s < toksz toks)%nat /\
     safe (body a)
       (fun c s' => match c with
                    | Next a' => I a' s' /\ (pos s < pos s')%nat
                    | Break a' => Q (inl a') s'
                    | Return r => Q (inr r) s'
                    end) s) ->
  (forall a s, I a s -> cond a s = false -> Q (inl a) s) ->
  forall a s, I a s -> safe (while_loop toks cond body a) Q s.
Proof.
  intros Hbody Hexit a s Hi. unfold while_loop.
  eapply safe_while_fuel; eauto.
Qed.

End SafeRules.

(** ** The values of the configuration *)

Lemma strtonum_err numstr lo hi v e :
  strtonum numstr lo hi = (v, Some e) -> v = 0.
Proof.
  unfold strtonum. destruct (hi <? lo); [now intros [= <- _]|].
  destruct (strtoll_all numstr) as [ll|]; [|now intros [= <- _]].
  destruct (ll <? lo); [now intros [= <- _]|].
  destruct (hi <? ll); [now intros [= <- _] | discriminate].
Qed.

Lemma in_wait_range_iff w : in_wait_range w = true <-> 15 <= w <= INT_MAX.
Proof.
  unfold in_wait_range. rewrite andb_true_iff, !Z.leb_le. tauto.
Qed.

Lemma strtonum_wait_ok numstr v er :
  strtonum numstr 15 INT_MAX = (v, er) -> wait_ok v = true.
Proof.
  unfold wait_ok. destruct er as [e|]; intros E.
  - apply strtonum_err in E. subst v. reflexivity.
  - apply strtonum_ok in E as [_ E]. apply in_wait_range_iff in E.
    rewrite E. apply orb_true_r.
Qed.

Lemma strtonum_errlog_ok numstr v er :
  strtonum numstr 0 INT_MAX = (v, er) ->
  (0 <=? v) && (v <=? INT_MAX) = true.
Proof.
  destruct er as [e|]; intros E.
  - apply strtonum_err in E. subst v. reflexivity.
  - apply strtonum_ok in E as [_ E]. rewrite andb_true_iff, !Z.leb_le. exact E.
Qed.

Lemma forallb_list_upd {A} (p : A -> bool) (f : A -> A) (l : list A) i :
  (forall x, p x = true -> p (f x) = true) ->
  forallb p l = true -> forallb p (list_upd l i f) = true.
Proof.
  intros Hf. revert i. induction l as [|x l IH]; intros i; [auto|].
  cbn [forallb]. rewrite andb_true_iff. intros [H1 H2].
  destruct i as [|i]; cbn [list_upd forallb]; rewrite andb_true_iff; auto.
Qed.

Lemma forallb_apply_waittime (w : Z) n :
  wait_ok w = true ->
  forall i us, forallb url_ok us = true ->
               forallb url_ok (apply_waittime n i w us) = true.
Proof.
  intros Hw. induction n as [|n IH]; intros i us H; [exact H|].
  cbn [apply_waittime]. apply IH. apply forallb_list_upd; [|exact H].
  intros u. unfold url_ok. cbn [url nwaittime].
  destruct (url u); [intros _; exact Hw | discriminate].
Qed.

Lemma cfg_ok_parts c :
  cfg_ok c = true <->
  forallb url_ok (urls c) = true /\ wait_ok (waittime c) = true /\
  (forall d, cdraw c = Some d -> draw_ok d = true).
Proof.
  unfold cfg_ok. rewrite !andb_true_iff. destruct (cdraw c) as [d|].
  - split.
    + intros [[H1 H2] H3]. repeat split; auto. now intros ? [= <-].
    + intros (H1 & H2 & H3). auto.
  - split.
    + intros [[H1 H2] _]. repeat split; auto. discriminate.
    + intros (H1 & H2 & _). auto.
Qed.

Lemma cfg_ok_waittime c v :
  wait_ok v = true -> cfg_ok c = true -> cfg_ok (cfg_waittime v c) = true.
Proof.
  rewrite !cfg_ok_parts. cbn. intros Hv (H1 & H2 & H3). auto.
Qed.

Lemma cfg_ok_urls c us :
  forallb url_ok us = true -> cfg_ok c = true -> cfg_ok (cfg_urls us c) = true.
Proof.
  rewrite !cfg_ok_parts. cbn. intros Hv (H1 & H2 & H3). auto.
Qed.

Lemma cfg_ok_urls_inv c : cfg_ok c = true -> forallb url_ok (urls c) = true.
Proof. rewrite cfg_ok_parts. tauto. Qed.

Lemma cfg_ok_alloc c :
  cfg_ok c = true ->
  cfg_ok (cfg_draw (Some {| box := []; header := 0; errlog := 0 |}) c) = true.
Proof.
  rewrite !cfg_ok_parts. cbn. intros (H1 & H2 & H3). repeat split; auto.
  now intros ? [= <-].
Qed.

Lemma cfg_ok_box c d bx :
  cdraw c = Some d -> cfg_ok c = true ->
  cfg_ok (cfg_draw (Some {| box := bx; header := header d; errlog := errlog d |}) c)
  = true.
Proof.
  rewrite !cfg_ok_parts. cbn. intros E (H1 & H2 & H3). repeat split; auto.
  intros ? [= <-]. exact (H3 d E).
Qed.

Lemma cfg_ok_header c d :
  cdraw c = Some d -> cfg_ok c = true ->
  cfg_ok (cfg_draw (Some {| box := box d; header := 1; errlog := errlog d |}) c)
  = true.
Proof.
  rewrite !cfg_ok_parts. cbn. intros E (H1 & H2 & H3). repeat split; auto.
  intros ? [= <-]. specialize (H3 d E). unfold draw_ok in *. cbn.
  apply andb_true_iff in H3 as [_ H3]. exact H3.
Qed.

Lemma cfg_ok_errlog c d v :
  cdraw c = Some d -> (0 <=? v) && (v <=? INT_MAX) = true -> cfg_ok c = true ->
  cfg_ok (cfg_draw (Some {| box := box d; header := header d; errlog := v |}) c)
  = true.
Proof.
  rewrite !cfg_ok_parts. cbn. intros E Hv (H1 & H2 & H3). repeat split; auto.
  intros ? [= <-]. specialize (H3 d E). unfold draw_ok in *. cbn.
  apply andb_true_iff in H3 as [H3 _]. now rewrite H3, Hv.
Qed.

Lemma cfg_ok_servers_body c t :
  cfg_ok c = true ->
  cfg_ok
    (cfg_urls
       (list_upd (urls (cfg_urls (urls c ++ [{| url := None; nwaittime := 0 |}]) c))
          (length (urls (cfg_urls (urls c ++ [{| url := None; nwaittime := 0 |}]) c))
           - 1)
          (fun u => {| url := Some t; nwaittime := nwaittime u |}))
       (cfg_urls (urls c ++ [{| url := None; nwaittime := 0 |}]) c)) = true.
Proof.
  intros H. cbn [urls cfg_urls]. rewrite list_upd_last. cbn [nwaittime].
  apply cfg_ok_parts in H as (H1 & H2 & H3). apply cfg_ok_parts. cbn.
  repeat split; auto. rewrite forallb_app, H1. reflexivity.
Qed.

Ltac draw_alloc :=
  cbn [pos cfg log at_pos logged with_cfg cdraw cfg_draw cfg_urls cfg_waittime];
  first [assumption | discriminate | congruence | auto].

Ltac safe_step :=
  cbn [negb];
  lazymatch goal with
  | |- safe (bind _ _) _ _ => apply safe_bind
  | |- safe (ret _) _ _ => apply safe_ret
  | |- safe get _ _ => apply safe_get
  | |- safe (warnx _) _ _ => apply safe_warnx
  | |- safe pos_incr _ _ => apply safe_pos_incr
  | |- safe (set_waittime _) _ _ => apply safe_set_waittime
  | |- safe (set_urls _) _ _ => apply safe_set_urls
  | |- safe (set_draw _) _ _ => apply safe_set_draw
  | |- safe (with_draw _) _ _ => apply safe_with_draw; [draw_alloc | intros ? ?]
  | |- safe (b_or_args _) _ _ => unfold b_or_args, with_b
  | |- safe (b_set_cat _) _ _ => unfold b_set_cat, with_b
  | |- safe (b_set_args _) _ _ => unfold b_set_args, with_b
  | |- safe (box_append _) _ _ => unfold box_append
  | |- safe (assert _) _ _ => apply safe_assert; intros ?
  | |- safe (tok_cur _) _ _ => apply safe_tok_cur; intros ? ?
  | |- safe (tok_unknown _) _ _ => apply safe_tok_unknown; intros ? ?
  | |- safe (tok_nadv _) _ _ => apply safe_tok_nadv; intros ?
  | |- safe (tok_adv _) _ _ => apply safe_tok_adv
  | |- safe (tok_expect _ _) _ _ =>
      apply safe_tok_expect; [intros ? | intros ? ? | intros ?]
  | |- safe (tok_expect_adv _ _) _ _ =>
      apply safe_tok_expect_adv; [intros ? | intros ? ? | intros ?]
  | |- safe (tok_eq _ _) _ _ => apply safe_tok_eq; intros ? [|]
  | |- safe (tok_eq_adv _ _) _ _ => apply safe_tok_eq_adv; intros ?
  | |- safe (if negb ?b then _ else _) _ _ => is_var b; destruct b
  | |- safe (if ?b then _ else _) _ _ =>
      lazymatch b with
      | true => fail
      | false => fail
      | _ => destruct b eqn:?
      end
  | |- safe (let (_, _) := ?x in _) _ _ => destruct x eqn:?
  | |- safe (match ?x with _ => _ end) _ _ => destruct x eqn:?
  end.

Ltac safe_run := repeat safe_step.

Ltac effect_simpl :=
  unfold effect in *;
  cbn [pos cfg log at_pos logged with_cfg opt_ok ctl_ok is_next at_end may_end] in *;
  unfold in_range in *;
  repeat match goal with
         | H : (_ <? _)%nat = true |- _ => apply Nat.ltb_lt in H
         | H : (_ <? _)%nat = false |- _ => apply Nat.ltb_ge in H
         | H : _ /\ _ |- _ => destruct H
         end.

(** The parts of [effect], one solver each. *)
Ltac effect_log :=
  lazymatch goal with
  | |- exists d, _ = _ ++ [d] /\ _ =>
      first
        [ eexists; split;
          [ first [ reflexivity
                  | repeat match goal with
                           | H : log _ = _ |- _ => rewrite H
                           end; reflexivity ]
          | cbn [at_end may_end]; split; intros;
            first [discriminate | lia | auto] ]
        | match goal with
          | H : exists d, _ |- _ =>
              let d := fresh "d" in
              let E := fresh "E" in
              destruct H as (d & E & ? & ?); exists d; split;
              [ first [ exact E
                      | repeat match goal with
                               | H : log _ = _ |- _ => rewrite <- H
                               end; exact E
                      | congruence ]
              | split; intros; auto ]
          end ]
  | |- log _ = log _ =>
      first [ reflexivity | congruence ]
  end.

Ltac effect_draw :=
  lazymatch goal with
  | |- cdraw _ <> None -> cdraw _ <> None =>
      intros;
      cbn [cdraw cfg_draw cfg_urls cfg_waittime];
      repeat match goal with
             | H : _ -> cdraw ?c <> None |- cdraw ?c <> None =>
                 apply H; cbn [cdraw cfg_draw cfg_urls cfg_waittime]
             end;
      first [assumption | discriminate | congruence]
  end.

Ltac cfg_ok_solve :=
  repeat first
    [ assumption
    | match goal with
      | H : _ -> cfg_ok ?c = true |- cfg_ok ?c = true => apply H
      end
    | eapply cfg_ok_box; [eassumption|]
    | eapply cfg_ok_header; [eassumption|]
    | eapply cfg_ok_errlog;
      [eassumption | eapply strtonum_errlog_ok; eassumption |]
    | apply cfg_ok_alloc
    | apply cfg_ok_waittime; [eapply strtonum_wait_ok; eassumption|]
    | apply cfg_ok_servers_body
    | apply cfg_ok_urls;
      [apply forallb_apply_waittime; [assumption | apply cfg_ok_urls_inv]|] ].

Ltac effect_ok :=
  lazymatch goal with
  | |- cfg_ok _ = true -> cfg_ok _ = true => intros; cfg_ok_solve
  end.

Ltac effect_wait :=
  lazymatch goal with
  | |- in_wait_range _ = true -> _ \/ _ =>
      cbn [waittime cfg_draw cfg_urls cfg_waittime] in *; intros;
      repeat match goal with
             | H : ?A -> _, H' : ?A |- _ =>
                 match type of A with Prop => specialize (H H') end
             | H : _ \/ _ |- _ => destruct H
             | H : _ /\ _ |- _ => destruct H
             end;
      first [ left; assumption
            | right; split; [first [reflexivity | assumption] | lia]
            | left; apply in_wait_range_iff;
              match goal with
              | E : strtonum _ _ _ = (_, None) |- _ =>
                  apply strtonum_ok in E; tauto
              end
            | discriminate ]
  end.

Ltac effect_part :=
  first [ lia
        | intros; lia
        | effect_log
        | effect_draw
        | effect_ok
        | effect_wait ].

Ltac effect_leaf :=
  effect_simpl;
  repeat match goal with
         | H : if ?b then _ else _ |- _ => is_var b; destruct b
         | |- context [if ?b then _ else _] => is_var b; destruct b
         | H : true = false |- _ => discriminate H
         | H : false = true |- _ => discriminate H
         | H : ?x = ?x -> _ |- _ => specialize (H eq_refl)
         end;
  cbn [opt_ok ctl_ok is_next] in *;
  repeat match goal with
         | |- _ /\ _ => split
         end;
  try solve [effect_part].

(** A call of a piece of the parser whose specification is [spec]. *)
Ltac safe_call spec :=
  eapply safe_mono; [apply spec | cbv beta; intros ? ? ?].

Section Effects.

Variable h : slant_h.
Variable toks : list string.

Lemma effect_refl s : effect toks s true s.
Proof. unfold effect. repeat split; auto. Qed.

Lemma effect_trans s s1 s2 ok :
  effect toks s true s1 -> effect toks s1 ok s2 -> effect toks s ok s2.
Proof.
  unfold effect. intros (A1 & A2 & A3 & A4 & A5 & A6) (B1 & B2 & B3 & B4 & B5 & B6).
  repeat split; auto.
  - lia.
  - destruct ok; [congruence|].
    destruct B3 as (d & E & U). exists d. split; [congruence | exact U].
  - intros H. destruct (A6 H) as [H2|[H2 _]]; [auto | discriminate].
Qed.

Lemma spec2_parse_waittime s :
  safe (parse_waittime toks) (fun r s' => effect toks s r s') s.
Proof.
  unfold parse_waittime. safe_run; effect_leaf.
Qed.

(** A loop whose body keeps [J] with its effect. *)
Lemma safe_while_effect {A} (J : state -> Prop) (cond : A -> state -> bool)
    (body : A -> M (ctl A bool)) :
  (forall a s, cond a s = true -> (pos s < toksz toks)%nat) ->
  (forall s s', J s -> effect toks s true s' -> J s') ->
  (forall a s, J s ->
     safe (body a)
       (fun c s' => effect toks s (ctl_ok c) s' /\
                    (is_next c = true -> (pos s < pos s')%nat)) s) ->
  forall a0 s0, J s0 ->
    safe (while_loop toks cond body a0)
      (fun r s' => effect toks s0
                     (match r with inl _ => true | inr r => r end) s') s0.
Proof.
  intros Hc HJ Hb a0 s0 H0.
  apply (safe_while toks cond body (fun _ s => effect toks s0 true s)).
  - intros a s Hi Ec. split; [eauto|].
    eapply safe_mono; [apply Hb; eauto|]. intros [a'|a'|r] s' [Hp Hn]; cbn in *.
    + split; [eapply effect_trans; eauto | auto].
    + eapply effect_trans; eauto.
    + eapply effect_trans; eauto.
  - auto.
  - apply effect_refl.
Qed.

Lemma effect_draw_kept s s' :
  cdraw (cfg s) <> None -> effect toks s true s' -> cdraw (cfg s') <> None.
Proof. unfold effect. tauto. Qed.

(** *** [servers] *)

Lemma spec2_server_args_body w s :
  safe (server_args_body toks w)
    (fun c s' => effect toks s (ctl_ok c) s' /\
                 (is_next c = true -> (pos s < pos s')%nat) /\
                 match c with
                 | Next w' => wait_ok w' = true
                 | Break _ => False
                 | Return _ => True
                 end) s.
Proof.
  unfold server_args_body. safe_run; effect_leaf.
  all: try solve [eapply strtonum_wait_ok; eassumption].
  all: try discriminate.
Qed.

Lemma spec2_server_args_loop s :
  safe (while_loop toks (fun _ => server_args_cond toks) (server_args_body toks) 0)
    (fun r s' => match r with
                 | inl w => effect toks s true s' /\ wait_ok w = true
                 | inr r => effect toks s r s'
                 end) s.
Proof.
  apply (safe_while toks _ _
           (fun w s1 => effect toks s true s1 /\ wait_ok w = true)).
  - intros w s1 [Hi Hw] Ec. split; [apply server_args_cond_lt; exact Ec|].
    safe_call spec2_server_args_body. destruct H as (Hp & Hn & Hw').
    destruct a as [w'|w'|r]; cbn in *.
    + split; [split; [eapply effect_trans; eauto | exact Hw'] | auto].
    + destruct Hw'.
    + eapply effect_trans; eauto.
  - intros w s1 Hi _. exact Hi.
  - split; [apply effect_refl | reflexivity].
Qed.

Lemma spec2_parse_server_args count s :
  safe (parse_server_args toks count) (fun r s' => effect toks s r s') s.
Proof.
  unfold parse_server_args. apply safe_bind.
  safe_call spec2_server_args_loop.
  destruct a as [w|r]; [destruct H as [Hi Hw] | apply safe_ret; exact H].
  safe_run; effect_leaf.
Qed.

Lemma spec2_servers_body count s :
  safe (servers_body toks count)
    (fun c s' => effect toks s (ctl_ok c) s' /\
                 (is_next c = true -> (pos s < pos s')%nat)) s.
Proof.
  unfold servers_body. safe_run; effect_leaf; try discriminate.
Qed.

Lemma spec2_parse_servers s :
  safe (parse_servers toks) (fun r s' => effect toks s r s') s.
Proof.
  unfold parse_servers. apply safe_bind.
  safe_call (safe_while_effect (fun _ => True) (fun _ : nat => in_range toks)
               (servers_body toks)
               (fun _ => in_range_lt toks) (fun _ _ _ _ => I)
               (fun c s _ => spec2_servers_body c s) 0%nat s I).
  destruct a as [count|r]; [|apply safe_ret; assumption].
  safe_run.
  all: try solve [effect_leaf].
  all: safe_call spec2_parse_server_args.
  all: safe_run; effect_leaf.
Qed.

(** *** [layout] *)

Lemma spec2_opt_chain tbl s :
  cdraw (cfg s) <> None ->
  safe (opt_chain toks tbl)
    (fun c s' => effect toks s (ctl_ok c) s' /\
                 (is_next c = true -> (pos s < pos s')%nat)) s.
Proof.
  intros Hd. induction tbl as [|[kw f] tbl IH]; cbn [opt_chain].
  - safe_run; effect_leaf; discriminate.
  - apply safe_bind, safe_tok_eq_adv; intros Hr; cbn.
    + safe_run; effect_leaf; discriminate.
    + apply IH.
Qed.

Lemma spec2_parse_opts tbl s :
  cdraw (cfg s) <> None ->
  safe (parse_opts toks tbl) (fun o s' => effect toks s (opt_ok o) s') s.
Proof.
  intros Hd. unfold parse_opts. apply safe_bind.
  safe_call (safe_while_effect (fun s => cdraw (cfg s) <> None)
               (fun _ : unit => in_range toks)
               (fun _ => opt_chain toks tbl)
               (fun _ => in_range_lt toks) effect_draw_kept
               (fun _ s => spec2_opt_chain tbl s) tt s Hd).
  destruct a as [[]|r]; apply safe_ret; assumption.
Qed.

(** One branch of [box_def], from the update of [b->cat] on. *)
Ltac box_branch2 :=
  safe_run;
  (safe_call spec2_parse_opts; [draw_alloc|]);
  effect_leaf; auto.

Lemma spec2_box_def s :
  cdraw (cfg s) <> None ->
  safe (box_def h toks)
    (fun o s' => effect toks s (opt_ok o) s' /\
                 (o = None -> (pos s < pos s')%nat)) s.
Proof.
  intros Hd. unfold box_def.
  apply safe_bind, safe_tok_eq_adv; intros ?; cbv beta iota.
  { box_branch2. }
  apply safe_bind, safe_tok_eq_adv; intros ?; cbv beta iota.
  { box_branch2. }
  apply safe_bind, safe_tok_eq_adv; intros ?; cbv beta iota.
  { box_branch2. }
  apply safe_bind, safe_tok_eq_adv; intros ?; cbv beta iota.
  { box_branch2. }
  apply safe_bind, safe_tok_eq_adv; intros ?; cbv beta iota.
  { box_branch2. }
  apply safe_bind, safe_tok_eq_adv; intros ?; cbv beta iota.
  { box_branch2. }
  apply safe_bind, safe_tok_eq_adv; intros ?; cbv beta iota.
  { box_branch2. }
  apply safe_bind, safe_tok_eq_adv; intros ?; cbv beta iota.
  { box_branch2. }
  apply safe_bind, safe_tok_eq_adv; intros ?; cbv beta iota.
  { box_branch2. }
  safe_run; effect_leaf; discriminate.
Qed.

Lemma spec2_item_end s :
  safe (item_end toks) (fun c s' => effect toks s (ctl_ok c) s') s.
Proof.
  unfold item_end. safe_run; effect_leaf.
Qed.

Lemma spec2_layout_host_body s :
  cdraw (cfg s) <> None ->
  safe (layout_host_body h toks)
    (fun c s' => effect toks s (ctl_ok c) s' /\
                 (is_next c = true -> (pos s < pos s')%nat)) s.
Proof.
  intros Hd. unfold layout_host_body. apply safe_bind. unfold box_append.
  apply safe_with_draw; [exact Hd|]. intros d E. apply safe_bind.
  safe_call spec2_box_def; [draw_alloc|].
  destruct a as [r|]; [apply safe_ret | safe_call spec2_item_end].
  - effect_leaf; discriminate.
  - destruct a; effect_leaf; try discriminate.
Qed.

Lemma spec2_parse_layout_host s :
  cdraw (cfg s) <> None ->
  safe (parse_layout_host h toks) (fun r s' => effect toks s r s') s.
Proof.
  intros Hd. unfold parse_layout_host.
  apply safe_bind, safe_tok_expect_adv; [intros ? | intros ? ? | intros ?];
    cbn [negb]; try solve [safe_run; effect_leaf].
  apply safe_bind, safe_tok_eq; intros ? [|]; [safe_run; effect_leaf|].
  apply safe_bind.
  safe_call (safe_while_effect (fun s => cdraw (cfg s) <> None)
               (fun _ : unit => in_range toks)
               (fun _ => layout_host_body h toks)
               (fun _ => in_range_lt toks) effect_draw_kept
               (fun _ s => spec2_layout_host_body s) tt
               (at_pos (S (pos s)) s) Hd).
  destruct a as [[]|r]; [|apply safe_ret; effect_leaf].
  safe_run; effect_leaf.
Qed.

Lemma spec2_layout_item s :
  cdraw (cfg s) <> None ->
  safe (layout_item h toks)
    (fun o s' => effect toks s (opt_ok o) s' /\
                 (o = None -> (pos s < pos s')%nat)) s.
Proof.
  intros Hd. unfold layout_item. safe_run.
  all: try (safe_call spec2_parse_layout_host; [draw_alloc|]).
  all: safe_run; effect_leaf; try discriminate.
Qed.

Lemma spec2_layout_body s :
  cdraw (cfg s) <> None ->
  safe (layout_body h toks)
    (fun c s' => effect toks s (ctl_ok c) s' /\
                 (is_next c = true -> (pos s < pos s')%nat)) s.
Proof.
  intros Hd. unfold layout_body. apply safe_bind.
  safe_call spec2_layout_item; [exact Hd|].
  destruct a as [r|]; [apply safe_ret | safe_call spec2_item_end].
  - effect_leaf; discriminate.
  - destruct a; effect_leaf; try discriminate.
Qed.

Lemma spec2_parse_layout s :
  safe (parse_layout h toks) (fun r s' => effect toks s r s') s.
Proof.
  unfold parse_layout.
  apply safe_bind, safe_tok_expect_adv; [intros ? | intros ? ? | intros ?];
    cbn [negb]; try solve [safe_run; effect_leaf].
  apply safe_bind, safe_tok_eq_adv; intros ?; [safe_run; effect_leaf|].
  apply safe_bind, safe_get. cbv beta.
  destruct (cdraw (cfg (at_pos (S (pos s)) s))) eqn:Ed;
    [safe_run; effect_leaf|].
  apply safe_bind, safe_set_draw, safe_bind.
  safe_call (safe_while_effect (fun s => cdraw (cfg s) <> None)
               (fun _ : unit => in_range toks)
               (fun _ => layout_body h toks)
               (fun _ => in_range_lt toks) effect_draw_kept
               (fun _ s => spec2_layout_body s) tt).
  { cbn. discriminate. }
  destruct a as [[]|r]; [|apply safe_ret; effect_leaf].
  safe_run; effect_leaf.
Qed.

(** *** The top level *)

Lemma spec2_statement s :
  safe (statement h toks)
    (fun c s' => effect toks s (is_next c) s' /\
                 (is_next c = true -> (pos s < pos s')%nat) /\
                 (forall r, c <> Return r)) s.
Proof.
  unfold statement.
  apply safe_bind, safe_tok_eq_adv; intros ?; cbv beta iota.
  { apply safe_bind. safe_call spec2_parse_servers.
    safe_run; effect_leaf; discriminate. }
  apply safe_bind, safe_tok_eq_adv; intros ?; cbv beta iota.
  { apply safe_bind. safe_call spec2_parse_layout.
    safe_run; effect_leaf; discriminate. }
  apply safe_bind, safe_tok_eq_adv; intros ?; cbv beta iota.
  { apply safe_bind. safe_call spec2_parse_waittime.
    safe_run; effect_leaf; discriminate. }
  safe_run; effect_leaf; discriminate.
Qed.

(** The loop ends with the cursor at the end of the tokens, or on a
    statement that fails. *)
Lemma spec2_config_loop s :
  safe (config_loop h toks)
    (fun _ s' => exists ok, effect toks s ok s' /\
                            (ok = true -> (toksz toks <= pos s')%nat)) s.
Proof.
  unfold config_loop.
  apply (safe_while toks _ _ (fun _ s1 => effect toks s true s1)).
  - intros [] s1 Hi Ec. split; [apply in_range_lt; exact Ec|].
    safe_call spec2_statement. destruct H as (Hp & Hn & Hr).
    destruct a as [[]|[]|r]; cbn in *.
    + split; [eapply effect_trans; eauto | auto].
    + exists false. split; [eapply effect_trans; eauto | discriminate].
    + destruct (Hr r eq_refl).
  - intros [] s1 Hi Ec. exists true. split; [exact Hi|].
    intros _. unfold in_range in Ec. apply Nat.ltb_ge in Ec. exact Ec.
  - apply effect_refl.
Qed.

End Effects.

Section Guarantees.

Variable h : slant_h.

Lemma config_loop_effect toks s u s' :
  config_loop h toks s = Ret u s' ->
  exists ok, effect toks s ok s' /\ (ok = true -> (toksz toks <= pos s')%nat).
Proof.
  intros E. exact (safe_ret_inv _ _ _ _ _ (spec2_config_loop h toks s) E).
Qed.

(** What [config_parse] returns on a file that was read: the state the
    loop ended in, but for the servers of the command line, and whether
    the cursor is at the end of the tokens. *)
Lemma config_parse_mapped buf argv r s :
  config_parse h (Mapped buf) argv = Ret r s ->
  exists s1 ok,
    effect (tokenize buf) state0 ok s1 /\
    (ok = true -> (toksz (tokenize buf) <= pos s1)%nat) /\
    r = (pos s1 =? toksz (tokenize buf))%nat /\
    pos s = pos s1 /\ log s = log s1 /\
    waittime (cfg s) = waittime (cfg s1) /\ cdraw (cfg s) = cdraw (cfg s1) /\
    (urls (cfg s) = urls (cfg s1) \/ urls (cfg s) = map (entry 0) argv).
Proof.
  unfold config_parse. rewrite config_tokens_run.
  destruct (config_loop h (tokenize buf) state0) as [u s1|f] eqn:E; [|discriminate].
  destruct (config_loop_effect _ _ _ _ E) as (ok & He & Hend).
  intros Hr. exists s1, ok. split; [exact He|]. split; [exact Hend|].
  destruct (pos s1 =? toksz (tokenize buf))%nat; cbn in Hr.
  - destruct argv; injection Hr as <- <-; cbn; intuition.
  - injection Hr as <- <-. intuition.
Qed.

Lemma forallb_url_ok_entries argv : forallb url_ok (map (entry 0) argv) = true.
Proof. induction argv; [reflexivity | exact IHargv]. Qed.

End Guarantees.

(** X8.  [config_parse] always comes to an end, and when it does not
    return it has stopped on an assertion or on a read of the token under
    the cursor past the end of the tokens: no loop goes on for ever, and
    [cfg->draw] is never used while it is NULL. *)
Theorem config_parse_faults (h : slant_h) (fn : file) (argv : list string) :
  (exists r s, config_parse h fn argv = Ret r s) \/
  config_parse h fn argv = Crash AssertFail \/
  config_parse h fn argv = Crash OutOfBounds.
Proof.
  destruct fn as [| |buf]; cbn [config_parse].
  - destruct argv as [|a argv]; [right; left; reflexivity|].
    left. rewrite config_cmdline_run by discriminate. eauto.
  - left. cbn. eauto.
  - rewrite config_tokens_run.
    pose proof (spec2_config_loop h (tokenize buf) state0) as H. unfold safe in H.
    destruct (config_loop h (tokenize buf) state0) as [u s1|f].
    + left. destruct (negb _); [eauto|]. destruct argv; eauto.
    + destruct H as [-> | ->]; auto.
Qed.



(** X10.  Whatever the file and the arguments, the configuration that
    [config_parse] leaves, on success and on failure, holds only numbers
    of their range: every server entry has a waittime of 0 (not set) or
    within [15, INT_MAX]; the global waittime is 0 or within
    [15, INT_MAX]; [header] is 0 or 1 and [errlog] within [0, INT_MAX].
    After a success the global waittime is within [15, INT_MAX]. *)
Theorem config_values (h : slant_h) (fn : file) (argv : list string)
    (r : bool) (s : state) :
  config_parse h fn argv = Ret r s ->
  cfg_ranges (cfg s) = true /\
  (r = true -> in_wait_range (waittime (cfg s)) = true).
Proof.
  intros Hr.
  assert (Hok : cfg_ok (cfg s) = true /\
                (r = true -> in_wait_range (waittime (cfg s)) = true)).
  { destruct fn as [| |buf].
    - cbn [config_parse] in Hr. destruct argv as [|a argv]; [discriminate|].
      rewrite config_cmdline_run in Hr by discriminate. injection Hr as <- <-.
      split; [|reflexivity]. apply cfg_ok_parts.
      cbn [cfg with_cfg cfg_urls urls waittime cdraw state0].
      repeat split; [apply (forallb_url_ok_entries (a :: argv)) | discriminate].
    - cbn in Hr. injection Hr as <- <-. split; [reflexivity | discriminate].
    - destruct (config_parse_mapped h buf argv r s Hr)
        as (s1 & ok & He & Hend & -> & Hp & Hl & Hw & Hd & Hu).
      destruct He as (H1 & H2 & H3 & _ & H5 & H6). cbn [pos cfg state0] in *.
      specialize (H5 eq_refl). specialize (H6 eq_refl).
      specialize (H2 (Nat.le_0_l _)).
      split.
      + apply cfg_ok_parts in H5 as (A1 & A2 & A3). apply cfg_ok_parts.
        rewrite Hw, Hd. repeat split; auto.
        destruct Hu as [-> | ->]; [exact A1 | apply forallb_url_ok_entries].
      + rewrite Hw. intros Hq. apply Nat.eqb_eq in Hq.
        destruct H6 as [H6|[_ H6]]; [exact H6 | lia]. }
  destruct Hok as [Hok Hs]. split; [|exact Hs].
  unfold cfg_ok in Hok. unfold cfg_ranges.
  apply andb_true_iff in Hok as [Hok Hd].
  apply andb_true_iff in Hok as [Hu Hw].
  rewrite Hw, Hd, !andb_true_r.
  apply forallb_forall. intros u Hin.
  rewrite forallb_forall in Hu. specialize (Hu u Hin).
  unfold url_ok in Hu. destruct (url u); [exact Hu | discriminate].
Qed.

Lemma config_values_witness :
  cfg_ranges {| urls := [entry 20 "a"; entry 20 "b"]; waittime := 30;
                cdraw := Some {| box := []; header := 1; errlog := 5 |} |} = true /\
  (true = true -> in_wait_range 30 = true).
Proof.
  exact (config_values spec_h
           (Mapped "waittime 30 ; servers a b { waittime 20 } ; layout { header ; errlog 5 } ;")
           [] true
           {| pos := 19;
              cfg := {| urls := [entry 20 "a"; entry 20 "b"]; waittime := 30;
                        cdraw := Some {| box := []; header := 1; errlog := 5 |} |};
              log := [] |} eq_refl).
Defined.

(** ** The [layout] statement on known items *)

Lemma sep_toks_cons {A} (f : A -> list string) x y l semi :
  sep_toks f (x :: y :: l) semi = f x ++ ";"%string :: sep_toks f (y :: l) semi.
Proof. reflexivity. Qed.

Lemma sep_toks_one {A} (f : A -> list string) x semi :
  sep_toks f [x] semi = f x ++ (if semi then [";"%string] else []).
Proof. reflexivity. Qed.

Lemma length_sep_toks {A} (f : A -> list string) l semi :
  (forall x, In x l -> f x <> []) ->
  (length l <= length (sep_toks f l semi))%nat.
Proof.
  induction l as [|x l IH]; intros Hf; [cbn; lia|].
  assert (Hx : (1 <= length (f x))%nat).
  { specialize (Hf x (or_introl eq_refl)). destruct (f x); [congruence | cbn; lia]. }
  destruct l as [|y l].
  - rewrite sep_toks_one, length_app. cbn. lia.
  - rewrite sep_toks_cons, length_app. cbn [length].
    specialize (IH (fun z Hz => Hf z (or_intror Hz))). cbn [length] in IH. lia.
Qed.

Section SepLoop.

Variable toks : list string.
Variable A : Type.
Variable f : A -> list string.
Variable valid : A -> bool.
Variable upd : draw -> A -> draw.
Variable body : M (ctl unit bool).

(** The tokens of an item start with a token that is not [}]. *)
Hypothesis f_head :
  forall x, valid x = true ->
    exists t l, f x = t :: l /\ (t =? "}")%string = false.

(** The body of the loop takes an item, then looks for what follows it. *)
Hypothesis body_run :
  forall x n c lg d term rest,
    valid x = true ->
    skipn n toks = f x ++ term :: rest ->
    term = ";"%string \/ term = "}"%string ->
    cdraw c = Some d ->
    body (Build_state n c lg) =
    item_end toks (Build_state (n + length (f x)) (cfg_draw (Some (upd d x)) c) lg).

Lemma sep_loop l :
  forall fuel n c lg d semi rest,
    l <> [] ->
    forallb valid l = true ->
    skipn n toks = sep_toks f l semi ++ "}"%string :: rest ->
    cdraw c = Some d ->
    (length l < fuel)%nat ->
    while_fuel fuel (fun _ : unit => in_range toks) (fun _ => body) tt
      (Build_state n c lg) =
    Ret (inl tt)
      (Build_state (n + length (sep_toks f l semi))
         (cfg_draw (Some (fold_left upd l d)) c) lg).
Proof.
  induction l as [|x l IH]; intros fuel n c lg d semi rest Hne Hv H Hd Hf;
    [congruence|].
  cbn [forallb] in Hv. apply andb_true_iff in Hv as [Hx Hv].
  destruct fuel as [|fuel]; [lia|]. cbn [length] in Hf.
  destruct (f_head x Hx) as (t & lx & Efx & Et).
  assert (Hin : in_range toks (Build_state n c lg) = true).
  { rewrite in_range_run, H. destruct l; cbn [sep_toks]; rewrite Efx; reflexivity. }
  cbn [while_fuel]. rewrite Hin.
  destruct l as [|y l].
  - (* the last item *)
    rewrite sep_toks_one in H |- *. cbn [fold_left].
    destruct semi.
    + rewrite <- app_assoc in H. cbn [app] in H.
      rewrite (body_run x n c lg d ";"%string ("}"%string :: rest) Hx H
                 (or_introl eq_refl) Hd).
      pose proof (skipn_add_app _ _ _ _ H) as H1.
      unfold item_end. exec H1.
      rewrite length_app. cbn [length]. rewrite Nat.add_assoc, Nat.add_1_r.
      reflexivity.
    + rewrite app_nil_r in H |- *.
      rewrite (body_run x n c lg d "}"%string rest Hx H (or_intror eq_refl) Hd).
      pose proof (skipn_add_app _ _ _ _ H) as H1.
      unfold item_end. exec H1. reflexivity.
  - (* an item followed by another *)
    rewrite sep_toks_cons in H |- *.
    cbn [forallb] in Hv. pose proof Hv as Hv'.
    apply andb_true_iff in Hv' as [Hy _].
    destruct (f_head y Hy) as (ty & ly & Efy & Ety).
    assert (Hnext : exists l2, sep_toks f (y :: l) semi ++ "}"%string :: rest
                               = ty :: l2).
    { destruct l; cbn [sep_toks]; rewrite Efy; cbn; eauto. }
    destruct Hnext as (l2 & Hnext).
    rewrite <- app_assoc in H. cbn [app] in H.
    rewrite (body_run x n c lg d ";"%string _ Hx H (or_introl eq_refl) Hd).
    pose proof (skipn_add_app _ _ _ _ H) as H1.
    rewrite Hnext in H1.
    unfold item_end. exec H1. rewrite Ety. cbn.
    assert (H2 : skipn (S (n + length (f x))) toks
                 = sep_toks f (y :: l) semi ++ "}"%string :: rest).
    { rewrite skipn_S_tl, H1, Hnext. reflexivity. }
    rewrite (IH fuel _ (cfg_draw (Some (upd d x)) c) lg (upd d x) semi rest
               ltac:(discriminate) Hv H2 eq_refl ltac:(cbn [length] in *; lia)).
    cbn [fold_left]. rewrite length_app. cbn [length].
    replace (S (n + length (f x)) + length (sep_toks f (y :: l) semi))%nat
      with (n + (length (f x) + S (length (sep_toks f (y :: l) semi))))%nat by lia.
    reflexivity.
Qed.

End SepLoop.

Section LayoutItems.

Variable h : slant_h.
Variable toks : list string.

Lemma cat_keyword_not_brace k : (cat_keyword k =? "}")%string = false.
Proof. destruct k; reflexivity. Qed.

Lemma flag_of_semicolon k : flag_of (opts_of h k) ";" = None.
Proof. destruct k; reflexivity. Qed.

Lemma flag_of_brace k : flag_of (opts_of h k) "}" = None.
Proof. destruct k; reflexivity. Qed.

Lemma box_toks_head b :
  box_valid h b = true ->
  exists t l, box_toks b = t :: l /\ (t =? "}")%string = false.
Proof.
  intros _. exists (cat_keyword (fst b)), (snd b).
  split; [reflexivity | apply cat_keyword_not_brace].
Qed.

Lemma item_toks_head it :
  item_valid h it = true ->
  exists t l, item_toks it = t :: l /\ (t =? "}")%string = false.
Proof.
  intros _. destruct it; cbn [item_toks]; eexists; eexists; split; reflexivity.
Qed.

(** One run of the body of the loop of [parse_layout_host] on a box
    definition. *)
Lemma layout_host_body_run b n c lg d term rest :
  box_valid h b = true ->
  skipn n toks = box_toks b ++ term :: rest ->
  term = ";"%string \/ term = "}"%string ->
  cdraw c = Some d ->
  layout_host_body h toks (Build_state n c lg) =
  item_end toks
    (Build_state (n + length (box_toks b)) (cfg_draw (Some (box_draw h d b)) c) lg).
Proof.
  destruct b as [k kws]. unfold box_valid, box_toks. cbn [fst snd].
  intros Hv H Ht Hd.
  assert (Hk : Forall (fun kw => is_opt (opts_of h k) kw = true) kws).
  { apply Forall_forall. rewrite forallb_forall in Hv. exact Hv. }
  assert (Hf : flag_of (opts_of h k) term = None).
  { destruct Ht as [-> | ->]; [apply flag_of_semicolon | apply flag_of_brace]. }
  rewrite layout_host_body_eq.
  rewrite (box_def_run h toks k kws n c lg d term rest H Hk Hf Hd). cbv zeta.
  replace ((term =? ";") || (term =? "}"))%string with true
    by (destruct Ht as [-> | ->]; reflexivity).
  cbn [length]. replace (n + S (length kws))%nat with (S n + length kws)%nat by lia.
  reflexivity.
Qed.

(** The block of a [host] item. *)
Lemma parse_layout_host_run bs semi n c lg d rest :
  bs <> [] ->
  forallb (box_valid h) bs = true ->
  skipn n toks = "{"%string :: sep_toks box_toks bs semi ++ "}"%string :: rest ->
  cdraw c = Some d ->
  parse_layout_host h toks (Build_state n c lg) =
  Ret true
    (Build_state (n + length (sep_toks box_toks bs semi) + 2)
       (cfg_draw (Some (fold_left (box_draw h) bs d)) c) lg).
Proof.
  intros Hne Hv H Hd.
  assert (H1 : skipn (S n) toks = sep_toks box_toks bs semi ++ "}"%string :: rest).
  { rewrite skipn_S_tl, H. reflexivity. }
  assert (Hhd : exists l, sep_toks box_toks bs semi ++ "}"%string :: rest
                          = cat_keyword (fst (hd (DRAWCAT_CPU, []) bs)) :: l).
  { destruct bs as [|b [|b' bs]]; [congruence| |]; cbn; eauto. }
  destruct Hhd as (l & Hhd).
  unfold parse_layout_host. exec H.
  rewrite Hhd. cbn [tl]. rewrite cat_keyword_not_brace. cbn.
  rewrite while_loop_run.
  rewrite (sep_loop toks _ box_toks (box_valid h) (box_draw h)
             (layout_host_body h toks) box_toks_head
             (fun x n c lg d term rest => layout_host_body_run x n c lg d term rest)
             bs _ (S n) c lg d semi rest Hne Hv H1 Hd).
  2:{ rewrite H1, length_app.
      pose proof (length_sep_toks box_toks bs semi) as Hl.
      specialize (Hl ltac:(intros ? _; discriminate)). cbn [length]. lia. }
  pose proof (skipn_add_app _ _ _ _ H1) as H2.
  replace (n + length (sep_toks box_toks bs semi) + 2)%nat
    with (S (S n + length (sep_toks box_toks bs semi))) by lia.
  remember (S n + length (sep_toks box_toks bs semi))%nat as m eqn:Em.
  exec H2. reflexivity.
Qed.

Lemma layout_body_run it n c lg d term rest :
  item_valid h it = true ->
  skipn n toks = item_toks it ++ term :: rest ->
  term = ";"%string \/ term = "}"%string ->
  cdraw c = Some d ->
  layout_body h toks (Build_state n c lg) =
  item_end toks
    (Build_state (n + length (item_toks it)) (cfg_draw (Some (item_draw h d it)) c) lg).
Proof.
  intros Hv H _ Hd. unfold layout_body, layout_item.
  destruct it as [|num|bs semi]; cbn [item_toks item_valid item_draw app] in *.
  - exec H. rewrite Hd. cbn. rewrite Nat.add_1_r. reflexivity.
  - exec H.
    destruct (strtonum num 0 INT_MAX) as [v er]. cbn [snd fst] in *.
    destruct er; [discriminate|]. cbn. rewrite Hd. cbn.
    replace (n + 2)%nat with (S (S n)) by lia. reflexivity.
  - destruct bs as [|b bs]; [discriminate|].
    assert (H1 : skipn (S n) toks =
                 "{"%string :: sep_toks box_toks (b :: bs) semi
                   ++ "}"%string :: term :: rest).
    { rewrite skipn_S_tl, H. cbn [tl]. rewrite <- app_assoc. reflexivity. }
    replace (n + length ("host"%string :: "{"%string
                         :: sep_toks box_toks (b :: bs) semi ++ ["}"%string]))%nat
      with (S n + length (sep_toks box_toks (b :: bs) semi) + 2)%nat
      by (cbn [length]; rewrite length_app; cbn [length]; lia).
    remember (S n + length (sep_toks box_toks (b :: bs) semi) + 2)%nat as m eqn:Em.
    exec H.
    rewrite (parse_layout_host_run (b :: bs) semi (S n) c lg d (term :: rest)
               ltac:(discriminate) Hv H1 Hd).
    cbn [bind negb ret]. rewrite <- Em. reflexivity.
Qed.

(** A [layout] statement whose block holds the items [items], up to the
    [;] that is to follow the block. *)
Lemma statement_layout_block items semi n c lg rest :
  items <> [] ->
  forallb (item_valid h) items = true ->
  skipn n toks =
    "layout"%string :: "{"%string :: sep_toks item_toks items semi
      ++ "}"%string :: rest ->
  cdraw c = None ->
  statement h toks (Build_state n c lg) =
  match tok_expect_adv toks ";"
          (Build_state (S (S (S n) + length (sep_toks item_toks items semi)))
             (cfg_draw (Some (layout_draw h items)) c) lg) with
  | Ret true s' => Ret (Next tt) s'
  | Ret false s' => Ret (Break tt) s'
  | Crash f => Crash f
  end.
Proof.
  intros Hne Hv H Hd.
  assert (H1 : skipn (S (S n)) toks =
               sep_toks item_toks items semi ++ "}"%string :: rest).
  { rewrite !skipn_S_tl, H. reflexivity. }
  assert (Hhd : exists t l, sep_toks item_toks items semi
                              ++ "}"%string :: rest = t :: l /\
                            (t =? "}")%string = false).
  { destruct items as [|it [|it' items]]; [congruence| |];
      destruct it; cbn; eauto. }
  destruct Hhd as (t & l & Hhd & Ht).
  pose proof (skipn_add_app _ _ _ _ H1) as H2.
  remember (S (S n) + length (sep_toks item_toks items semi))%nat as m eqn:Em.
  unfold statement. exec H. unfold parse_layout. exec H.
  rewrite Hhd. cbn [tl]. rewrite Ht. cbn. rewrite Hd.
  cbn [bind set_draw set_cfg with_cfg cfg pos log]. rewrite while_loop_run.
  rewrite (sep_loop toks _ item_toks (item_valid h) (item_draw h)
             (layout_body h toks) item_toks_head
             (fun x n c lg d term rest => layout_body_run x n c lg d term rest)
             items _ (S (S n))
             (cfg_draw (Some {| box := []; header := 0; errlog := 0 |}) c)
             lg {| box := []; header := 0; errlog := 0 |}
             semi rest Hne Hv H1 eq_refl).
  2:{ rewrite H1, length_app.
      pose proof (length_sep_toks item_toks items semi) as Hl.
      specialize (Hl ltac:(intros [] _; discriminate)). cbn [length]. lia. }
  rewrite <- Em. exec H2.
  destruct rest as [|t' rest']; [reflexivity|].
  destruct (t' =? ";")%string; reflexivity.
Qed.

(** A [layout] statement whose block holds the items [items]. *)
Lemma statement_layout_items items semi n c lg rest :
  items <> [] ->
  forallb (item_valid h) items = true ->
  skipn n toks = layout_toks items semi ++ rest ->
  cdraw c = None ->
  statement h toks (Build_state n c lg) =
  Ret (Next tt)
    (Build_state (n + length (layout_toks items semi))
       (cfg_draw (Some (layout_draw h items)) c) lg).
Proof.
  intros Hne Hv H Hd. unfold layout_toks in H. cbn [app] in H.
  rewrite <- app_assoc in H. cbn [app] in H.
  rewrite (statement_layout_block items semi n c lg _ Hne Hv H Hd).
  assert (H1 : skipn (S (S n)) toks =
               sep_toks item_toks items semi ++ "}"%string :: ";"%string :: rest).
  { rewrite !skipn_S_tl, H. reflexivity. }
  pose proof (skipn_add_app _ _ _ _ H1) as H2.
  replace (n + length (layout_toks items semi))%nat
    with (S (S (S (S n) + length (sep_toks item_toks items semi)))).
  2:{ unfold layout_toks. cbn [length]. rewrite length_app. cbn [length]. lia. }
  remember (S (S n) + length (sep_toks item_toks items semi))%nat as m eqn:Em.
  rewrite tok_expect_adv_run, skipn_S_tl, H2. reflexivity.
Qed.

End LayoutItems.

Lemma fold_box_draw h bs d :
  fold_left (box_draw h) bs d =
  {| box := box d ++ map (box_of h) bs; header := header d; errlog := errlog d |}.
Proof.
  revert d. induction bs as [|b bs IH]; intros d; cbn [fold_left map].
  - rewrite app_nil_r. destruct d; reflexivity.
  - rewrite IH. cbn. rewrite <- app_assoc. reflexivity.
Qed.

Lemma layout_draw_fields h items d :
  box (fold_left (item_draw h) items d) = box d ++ flat_map (item_boxes h) items /\
  header (fold_left (item_draw h) items d) =
    (if existsb is_header items then 1 else header d).
Proof.
  revert d. induction items as [|it items IH]; intros d; cbn [fold_left flat_map existsb].
  - rewrite app_nil_r. auto.
  - destruct (IH (item_draw h d it)) as [IH1 IH2]. rewrite IH1, IH2.
    destruct it as [|num|bs semi]; cbn [item_draw item_boxes is_header orb box header].
    + rewrite app_nil_l. split; [reflexivity|]. destruct (existsb _ _); reflexivity.
    + rewrite app_nil_l. auto.
    + rewrite fold_box_draw. cbn [box header]. rewrite app_assoc. auto.
Qed.

(** X11.  A [layout] statement whose block holds items separated by [;]
    (each [header], [errlog] with a number within [0, INT_MAX], or a [host]
    block of box definitions, themselves separated by [;]), the [;] before
    either closing brace being optional, allocates the layout when there is
    none yet and succeeds: [header] sets the flag, [errlog] its number, the
    last one winning, and the boxes of all [host] blocks are appended in the
    order they are written, each with its category and the union of its
    options. *)
Theorem layout_statement (h : slant_h) (toks : list string) (s : state)
    (items : list litem) (semi : bool) (rest : list string) :
  remaining toks s = layout_toks items semi ++ rest ->
  items <> [] ->
  forallb (item_valid h) items = true ->
  cdraw (cfg s) = None ->
  statement h toks s =
    Ret (Next tt)
      {| pos := pos s + length (layout_toks items semi);
         cfg := cfg_draw (Some (layout_draw h items)) (cfg s);
         log := log s |} /\
  box (layout_draw h items) = flat_map (item_boxes h) items /\
  header (layout_draw h items) = (if existsb is_header items then 1 else 0).
Proof.
  intros H Hne Hv Hd. split.
  - destruct s as [n c lg]. unfold remaining in H. cbn [pos cfg log] in *.
    apply (statement_layout_items h toks items semi n c lg rest); assumption.
  - exact (layout_draw_fields h items {| box := []; header := 0; errlog := 0 |}).
Qed.

Lemma layout_statement_witness :
  statement spec_h
    (tokenize "layout { errlog 5 ; host { cpu hour day ; mem } ; header ; host { host ; } } ;")
    state0 =
  Ret (Next tt)
    {| pos := 23;
       cfg := {| urls := []; waittime := 60;
                 cdraw := Some {| box := [ {| cat := DRAWCAT_CPU; args := 12 |};
                                           {| cat := DRAWCAT_MEM; args := 0 |};
                                           {| cat := DRAWCAT_HOST; args := 1 |} ];
                                  header := 1; errlog := 5 |} |};
       log := [] |}.
Proof.
  exact (proj1 (layout_statement spec_h
                  (tokenize "layout { errlog 5 ; host { cpu hour day ; mem } ; header ; host { host ; } } ;")
                  state0
                  [LErrlog "5";
                   LHost [(DRAWCAT_CPU, ["hour"; "day"]%string); (DRAWCAT_MEM, [])] false;
                   LHeader;
                   LHost [(DRAWCAT_HOST, [])] true]
                  false [] eq_refl ltac:(discriminate) eq_refl eq_refl)).
Defined.

(** ** Statements that fail *)

Section Failures.

Variable h : slant_h.
Variable toks : list string.

(** A failure inside the loop of [parse_layout] is the failure of the
    statement. *)
Lemma parse_layout_returns n c lg t1 rest1 sl sf :
  skipn n toks = "layout"%string :: "{"%string :: t1 :: rest1 ->
  (t1 =? "}")%string = false ->
  cdraw c = None ->
  iterates toks (layout_body h toks)
    (Build_state (S (S n))
       (cfg_draw (Some {| box := []; header := 0; errlog := 0 |}) c) lg) sl ->
  in_range toks sl = true ->
  layout_body h toks sl = Ret (Return false) sf ->
  statement h toks (Build_state n c lg) = Ret (Break tt) sf.
Proof.
  intros H Ht Hd Hit Hin E.
  unfold statement. exec H. unfold parse_layout. exec H. rewrite Ht.
  exec H. rewrite Hd. cbn.
  rewrite (loop_iterates toks _ (layout_body_advances h toks) _ _ Hit).
  rewrite (loop_return toks _ _ sf false Hin E). reflexivity.
Qed.

(** A failure inside the loop of [parse_layout_host] is the failure of the
    [host] item. *)
Lemma parse_layout_host_returns n c lg t2 rest2 sb sf :
  skipn n toks = "host"%string :: "{"%string :: t2 :: rest2 ->
  (t2 =? "}")%string = false ->
  iterates toks (layout_host_body h toks) (Build_state (S (S n)) c lg) sb ->
  in_range toks sb = true ->
  layout_host_body h toks sb = Ret (Return false) sf ->
  layout_body h toks (Build_state n c lg) = Ret (Return false) sf.
Proof.
  intros H Ht Hit Hin E.
  assert (Ehost : parse_layout_host h toks (Build_state (S n) c lg) = Ret false sf).
  { unfold parse_layout_host. exec H. rewrite Ht. cbn.
    rewrite (loop_iterates toks _ (layout_host_body_advances h toks) _ _ Hit).
    rewrite (loop_return toks _ sb sf false Hin E). reflexivity. }
  unfold layout_body, layout_item. exec H. rewrite Ehost. reflexivity.
Qed.

(** The layout stays allocated through the iterations of both loops. *)
Lemma iterates_layout_draw s s' :
  iterates toks (layout_body h toks) s s' ->
  cdraw (cfg s) <> None -> cdraw (cfg s') <> None.
Proof.
  intros Hit.
  pose proof (iterates_post toks _ (boxes_legal h) _ _
                (fun s => wp_mono _ _ _ _ (spec_layout_body h toks s)
                            (fun _ _ H => proj1 H)) Hit) as (_ & _ & Hp & _).
  exact Hp.
Qed.

Lemma iterates_host_draw s s' :
  iterates toks (layout_host_body h toks) s s' ->
  cdraw (cfg s) <> None -> cdraw (cfg s') <> None.
Proof.
  intros Hit.
  pose proof (iterates_post toks _ (boxes_legal h) _ _
                (fun s => wp_mono _ _ _ _ (spec_layout_host_body h toks s)
                            (fun _ _ H => proj1 H)) Hit) as (_ & _ & Hp & _).
  exact Hp.
Qed.

End Failures.

(** X12.  Inside the block of a [layout] statement, wherever the loop of
    [parse_layout] looks for an item: a token other than [header], [errlog]
    and [host] fails the parse with UnknownToken, the configuration being
    what the items before it made; an [errlog] whose number does not
    convert or is outside [0, INT_MAX] fails it with InvalidRange, with the
    [errlog] of the layout set to 0 whatever it was. *)
Theorem layout_item_rejected (h : slant_h) (toks argv : list string)
    (s0 s sl : state) (t1 : string) (rest1 : list string) :
  reach h toks s0 s ->
  remaining toks s = "layout"%string :: "{"%string :: t1 :: rest1 ->
  t1 <> "}"%string ->
  cdraw (cfg s) = None ->
  iterates toks (layout_body h toks)
    {| pos := S (S (pos s));
       cfg := cfg_draw (Some {| box := []; header := 0; errlog := 0 |}) (cfg s);
       log := log s |} sl ->
  (forall t rest,
     remaining toks sl = t :: rest ->
     t <> "header"%string -> t <> "errlog"%string -> t <> "host"%string ->
     config_tokens h toks argv s0 =
     Ret false
       {| pos := pos sl; cfg := cfg sl; log := log sl ++ [unknown_token t] |}) /\
  (forall num e rest,
     remaining toks sl = "errlog"%string :: num :: rest ->
     snd (strtonum num 0 INT_MAX) = Some e ->
     exists d,
       cdraw (cfg sl) = Some d /\
       config_tokens h toks argv s0 =
       Ret false
         {| pos := S (pos sl);
            cfg := cfg_draw (Some {| box := box d; header := header d; errlog := 0 |})
                     (cfg sl);
            log := log sl ++ [bad_layout_errlog e] |}).
Proof.
  intros Hre H Ht1 Hd Hit.
  pose proof (remaining_in_range _ _ _ _ H) as Hin.
  apply String.eqb_neq in Ht1.
  pose proof (iterates_layout_draw h toks _ _ Hit) as Hdl.
  cbn [cfg cfg_draw cdraw] in Hdl. specialize (Hdl ltac:(discriminate)).
  destruct s as [n c lg]. unfold remaining in H; cbn [pos cfg log] in *.
  split.
  - intros t rest Hsl N1 N2 N3.
    pose proof (remaining_in_range _ _ _ _ Hsl) as Hinl.
    destruct sl as [nl cl lgl]. unfold remaining in Hsl; cbn [pos cfg log] in *.
    apply String.eqb_neq in N1, N2, N3.
    eapply config_tokens_fail; [exact Hre | exact Hin | |].
    + eapply parse_layout_returns; try eassumption.
      unfold layout_body, layout_item. exec Hsl. rewrite N1. exec Hsl.
      rewrite N2. exec Hsl. rewrite N3. exec Hsl. reflexivity.
    + cbn [pos]. eapply skipn_cons_neq. exact Hsl.
  - intros num e rest Hsl He.
    pose proof (remaining_in_range _ _ _ _ Hsl) as Hinl.
    destruct sl as [nl cl lgl]. unfold remaining in Hsl; cbn [pos cfg log] in *.
    destruct (cdraw cl) as [d|] eqn:Ed; [|congruence].
    exists d. split; [reflexivity|].
    destruct (strtonum num 0 INT_MAX) as [v er] eqn:Ev. cbn [snd] in He. subst er.
    pose proof (strtonum_err _ _ _ _ _ Ev) as ->.
    eapply config_tokens_fail; [exact Hre | exact Hin | |].
    + eapply parse_layout_returns; try eassumption.
      unfold layout_body, layout_item. exec Hsl. rewrite Ev. cbn. rewrite Ed.
      reflexivity.
    + cbn [pos].
      assert (H1 : skipn (S nl) toks = num :: rest)
        by (rewrite skipn_S_tl, Hsl; reflexivity).
      eapply skipn_cons_neq. exact H1.
Qed.

Lemma layout_item_rejected_witness :
  config_tokens spec_h ["layout"; "{"; "header"; ";"; "foo"; ";"; "}"; ";"]%string
    [] state0 =
  Ret false
    {| pos := 4;
       cfg := {| urls := []; waittime := 60;
                 cdraw := Some {| box := []; header := 1; errlog := 0 |} |};
       log := [unknown_token "foo"] |}.
Proof.
  refine (proj1 (layout_item_rejected spec_h
                   ["layout"; "{"; "header"; ";"; "foo"; ";"; "}"; ";"]%string []
                   state0 state0
                   {| pos := 4;
                      cfg := {| urls := []; waittime := 60;
                                cdraw := Some {| box := []; header := 1; errlog := 0 |} |};
                      log := [] |}
                   "header" [";"; "foo"; ";"; "}"; ";"]%string
                   (reach_here _ _ _) eq_refl _ eq_refl _)
            "foo"%string [";"; "}"; ";"]%string eq_refl _ _ _);
    try discriminate.
  eapply iterates_next; [reflexivity | reflexivity | apply iterates_here].
Defined.

(** X13.  Inside a [host] block, wherever the loop of [parse_layout_host]
    looks for a box definition: a token that is none of the nine category
    keywords fails the parse with UnknownToken, and the box that was
    appended for it stays in the layout, zeroed (the category whose value
    is 0, no option). *)
Theorem box_category_rejected (h : slant_h) (toks argv : list string)
    (s0 s sl sb : state) (t1 t2 t : string) (rest1 rest2 rest : list string) :
  reach h toks s0 s ->
  remaining toks s = "layout"%string :: "{"%string :: t1 :: rest1 ->
  t1 <> "}"%string ->
  cdraw (cfg s) = None ->
  iterates toks (layout_body h toks)
    {| pos := S (S (pos s));
       cfg := cfg_draw (Some {| box := []; header := 0; errlog := 0 |}) (cfg s);
       log := log s |} sl ->
  remaining toks sl = "host"%string :: "{"%string :: t2 :: rest2 ->
  t2 <> "}"%string ->
  iterates toks (layout_host_body h toks) (at_pos (S (S (pos sl))) sl) sb ->
  remaining toks sb = t :: rest ->
  (forall k, t <> cat_keyword k) ->
  exists d,
    cdraw (cfg sb) = Some d /\
    config_tokens h toks argv s0 =
    Ret false
      {| pos := pos sb;
         cfg := cfg_draw
                  (Some {| box := box d ++ [{| cat := DRAWCAT_zero h; args := 0 |}];
                           header := header d; errlog := errlog d |}) (cfg sb);
         log := log sb ++ [unknown_token t] |}.
Proof.
  intros Hre H Ht1 Hd Hit1 Hsl Ht2 Hit2 Hsb Hcat.
  pose proof (remaining_in_range _ _ _ _ H) as Hin.
  pose proof (remaining_in_range _ _ _ _ Hsl) as Hinl.
  pose proof (remaining_in_range _ _ _ _ Hsb) as Hinb.
  apply String.eqb_neq in Ht1, Ht2.
  pose proof (iterates_layout_draw h toks _ _ Hit1) as Hdl.
  cbn [cfg cfg_draw cdraw] in Hdl. specialize (Hdl ltac:(discriminate)).
  pose proof (iterates_host_draw h toks _ _ Hit2) as Hdb.
  cbn [cfg at_pos] in Hdb. specialize (Hdb Hdl).
  destruct s as [n c lg]. unfold remaining in H; cbn [pos cfg log] in *.
  destruct sl as [nl cl lgl]. unfold remaining in Hsl; cbn [pos cfg log] in *.
  unfold at_pos in Hit2; cbn [pos cfg log] in Hit2.
  destruct sb as [nb cb lgb]. unfold remaining in Hsb; cbn [pos cfg log] in *.
  destruct (cdraw cb) as [d|] eqn:Ed; [|congruence].
  exists d. split; [reflexivity|].
  eapply config_tokens_fail; [exact Hre | exact Hin | |].
  - eapply parse_layout_returns; try eassumption.
    eapply parse_layout_host_returns; try eassumption.
    unfold layout_host_body. cbn [bind box_append with_draw set_draw set_cfg
                                  with_cfg cfg pos log].
    rewrite Ed. unfold box_def.
    pose proof (fun k => proj2 (String.eqb_neq _ _) (Hcat k)) as Hk.
    pose proof (Hk DRAWCAT_CPU) as K1. pose proof (Hk DRAWCAT_MEM) as K2.
    pose proof (Hk DRAWCAT_NET) as K3. pose proof (Hk DRAWCAT_DISC) as K4.
    pose proof (Hk DRAWCAT_LINK) as K5. pose proof (Hk DRAWCAT_HOST) as K6.
    pose proof (Hk DRAWCAT_PROCS) as K7. pose proof (Hk DRAWCAT_RPROCS) as K8.
    pose proof (Hk DRAWCAT_FILES) as K9. cbn [cat_keyword] in *.
    exec Hsb. rewrite K1. exec Hsb. rewrite K2. exec Hsb. rewrite K3.
    exec Hsb. rewrite K4. exec Hsb. rewrite K5. exec Hsb. rewrite K6.
    exec Hsb. rewrite K7. exec Hsb. rewrite K8. exec Hsb. rewrite K9.
    exec Hsb. reflexivity.
  - cbn [pos]. eapply skipn_cons_neq. exact Hsb.
Qed.

Lemma box_category_rejected_witness :
  exists d,
    Some {| box := [{| cat := DRAWCAT_CPU; args := 4 |}]; header := 0; errlog := 0 |}
    = Some d /\
    config_tokens spec_h
      ["layout"; "{"; "host"; "{"; "cpu"; "hour"; ";"; "swap"; "}"; "}"; ";"]%string
      [] state0 =
    Ret false
      {| pos := 7;
         cfg := cfg_draw
                  (Some {| box := box d ++ [{| cat := DRAWCAT_CPU; args := 0 |}];
                           header := header d; errlog := errlog d |})
                  {| urls := []; waittime := 60;
                     cdraw := Some {| box := [{| cat := DRAWCAT_CPU; args := 4 |}];
                                      header := 0; errlog := 0 |} |};
         log := [unknown_token "swap"] |}.
Proof.
  refine (box_category_rejected spec_h
            ["layout"; "{"; "host"; "{"; "cpu"; "hour"; ";"; "swap"; "}"; "}"; ";"]%string
            [] state0 state0
            {| pos := 2;
               cfg := {| urls := []; waittime := 60;
                         cdraw := Some {| box := []; header := 0; errlog := 0 |} |};
               log := [] |}
            {| pos := 7;
               cfg := {| urls := []; waittime := 60;
                         cdraw := Some {| box := [{| cat := DRAWCAT_CPU; args := 4 |}];
                                          header := 0; errlog := 0 |} |};
               log := [] |}
            "host" "cpu" "swap"
            ["{"; "cpu"; "hour"; ";"; "swap"; "}"; "}"; ";"]%string
            ["hour"; ";"; "swap"; "}"; "}"; ";"]%string
            ["}"; "}"; ";"]%string
            (reach_here _ _ _) eq_refl _ eq_refl (iterates_here _ _ _) eq_refl _ _
            eq_refl _);
    try discriminate.
  - eapply iterates_next; [reflexivity | reflexivity | apply iterates_here].
  - intros []; discriminate.
Defined.

Section ServerBlock.

Variable h : slant_h.
Variable toks : list string.

Lemma server_arg_toks_next (items : list (string * bool)) t rest :
  (t =? ";")%string = false ->
  exists t' l, flat_map server_arg_toks items ++ t :: rest = t' :: l /\
               (t' =? ";")%string = false.
Proof.
  intros Ht. destruct items as [|[num semi] items]; cbn; eauto.
Qed.

(** The loop of [parse_server_args] over the items that precede a token
    [t]. *)
Lemma server_args_prefix items :
  forall fuel n c lg w0 t rest,
    skipn n toks = flat_map server_arg_toks items ++ t :: rest ->
    (t =? ";")%string = false ->
    Forall (fun it => snd (strtonum (fst it) 15 INT_MAX) = None) items ->
    (length items < fuel)%nat ->
    while_fuel fuel (fun _ => server_args_cond toks) (server_args_body toks) w0
      (Build_state n c lg) =
    while_fuel (fuel - length items) (fun _ => server_args_cond toks)
      (server_args_body toks)
      (fold_left (fun _ it => fst (strtonum (fst it) 15 INT_MAX)) items w0)
      (Build_state (n + length (flat_map server_arg_toks items)) c lg).
Proof.
  induction items as [|[num semi] items IH]; intros fuel n c lg w0 t rest H Ht Hi Hf.
  - cbn. now rewrite Nat.sub_0_r, Nat.add_0_r.
  - destruct fuel as [|fuel]; [cbn in Hf; lia|].
    cbn [length] in Hf. inversion Hi as [|? ? Hnum Hi']; subst. cbn [fst] in Hnum.
    cbn [fold_left fst length Nat.sub]. cbn [flat_map] in *.
    destruct (strtonum num 15 INT_MAX) as [v er] eqn:Ev. cbn in Hnum. subst er.
    destruct semi; cbn in H.
    + cbn [while_fuel]. unfold server_args_body at 1. exec H. rewrite Ev. exec H.
      assert (H' : skipn (S (S (S n))) toks =
                   flat_map server_arg_toks items ++ t :: rest).
      { rewrite !skipn_S_tl, H. reflexivity. }
      rewrite (IH fuel _ c lg v t rest H' Ht Hi' ltac:(lia)).
      f_equal. f_equal. cbn [server_arg_toks fst snd app length].
      rewrite ?length_app. cbn [length]. lia.
    + destruct (server_arg_toks_next items t rest Ht) as [t' [l [E Et]]].
      rewrite E in H.
      cbn [while_fuel]. unfold server_args_body at 1. exec H. rewrite Ev. exec H.
      rewrite Et. exec H.
      assert (H' : skipn (S (S n)) toks =
                   flat_map server_arg_toks items ++ t :: rest).
      { rewrite !skipn_S_tl, H, E. reflexivity. }
      rewrite (IH fuel _ c lg v t rest H' Ht Hi' ltac:(lia)).
      f_equal. f_equal. cbn [server_arg_toks fst snd app length].
      rewrite ?length_app. cbn [length]. lia.
Qed.

(** [parse_servers] up to the call of [parse_server_args]. *)
Lemma parse_servers_to_block n c lg hosts l :
  skipn n toks = hosts ++ "{"%string :: l ->
  hosts <> [] ->
  Forall (fun t => is_terminator t = false) hosts ->
  parse_servers toks (Build_state n c lg) =
  match parse_server_args toks (length hosts)
          (Build_state (S (n + length hosts))
             (cfg_urls (urls c ++ map (entry 0) hosts) c) lg) with
  | Ret true s1 =>
      match tok_expect toks ";" s1 with
      | Ret true s2 => Ret true (at_pos (S (pos s2)) s2)
      | Ret false s2 => Ret false s2
      | Crash f => Crash f
      end
  | Ret false s1 => Ret false s1
  | Crash f => Crash f
  end.
Proof.
  intros H Hne Hh. unfold parse_servers. cbn [bind]. rewrite while_loop_run.
  rewrite (servers_loop toks hosts _ n c lg 0%nat "{"%string _ H); auto.
  2:{ rewrite H, length_app. cbn. lia. }
  assert (H1 : skipn (n + length hosts) toks = "{"%string :: l).
  { apply skipn_add_app. exact H. }
  assert (Hc : (0 + length hosts =? 0)%nat = false).
  { destruct hosts; [congruence | reflexivity]. }
  rewrite Hc. cbn [Nat.add].
  remember (n + length hosts)%nat as m eqn:Em.
  exec H1.
  destruct (parse_server_args toks (length hosts) _) as [[|] s1|f]; cbn; try reflexivity.
  destruct (tok_expect toks ";" s1) as [[|] s2|f]; reflexivity.
Qed.

End ServerBlock.

(** X14.  In the block of a [servers] statement, after any number of
    [waittime] items: a token other than [waittime], [;] and [}] fails the
    parse with UnknownToken, and a [waittime] whose number does not convert
    or is outside [15, INT_MAX] fails it with InvalidRange, in both cases
    with the hosts of the statement in the list, none with a waittime; a
    block that is not followed by [;] fails the parse with UnexpectedToken
    after its waittime has been written to the hosts. *)
Theorem servers_block_rejected (h : slant_h) (toks argv : list string)
    (s0 s : state) (hosts : list string) (items : list (string * bool))
    (rest : list string) :
  reach h toks s0 s ->
  remaining toks s =
    "servers"%string :: hosts ++ "{"%string :: flat_map server_arg_toks items
      ++ rest ->
  hosts <> [] ->
  Forall (fun t => is_terminator t = false) hosts ->
  Forall (fun it => snd (strtonum (fst it) 15 INT_MAX) = None) items ->
  (forall t rest',
     rest = t :: rest' ->
     t <> "}"%string -> t <> "waittime"%string -> t <> ";"%string ->
     config_tokens h toks argv s0 =
     Ret false
       {| pos := pos s + length hosts + length (flat_map server_arg_toks items) + 2;
          cfg := cfg_urls (urls (cfg s) ++ map (entry 0) hosts) (cfg s);
          log := log s ++ [unknown_token t] |}) /\
  (forall num e rest',
     rest = "waittime"%string :: num :: rest' ->
     snd (strtonum num 15 INT_MAX) = Some e ->
     config_tokens h toks argv s0 =
     Ret false
       {| pos := pos s + length hosts + length (flat_map server_arg_toks items) + 3;
          cfg := cfg_urls (urls (cfg s) ++ map (entry 0) hosts) (cfg s);
          log := log s ++ [bad_server_waittime e] |}) /\
  (forall t rest',
     rest = "}"%string :: t :: rest' ->
     t <> ";"%string ->
     config_tokens h toks argv s0 =
     Ret false
       {| pos := pos s + length hosts + length (flat_map server_arg_toks items) + 3;
          cfg := cfg_urls (urls (cfg s) ++ map (entry (block_waittime items)) hosts)
                   (cfg s);
          log := log s ++ [expected_have ";" t] |}).
Proof.
  intros Hre H Hne Hh Hi.
  pose proof (remaining_in_range _ _ _ _ H) as Hin.
  destruct s as [n c lg]. unfold remaining in H; cbn [pos cfg log] in *.
  assert (H0 : skipn (S n) toks =
               hosts ++ "{"%string :: flat_map server_arg_toks items ++ rest).
  { rewrite skipn_S_tl, H. reflexivity. }
  assert (H1 : skipn (S (S n + length hosts)) toks =
               flat_map server_arg_toks items ++ rest).
  { rewrite skipn_S_tl, (skipn_add_app _ _ _ _ H0). reflexivity. }
  assert (H2 : skipn (S (S n + length hosts)
                      + length (flat_map server_arg_toks items)) toks = rest).
  { apply skipn_add_app. rewrite H1. reflexivity. }
  assert (Estmt : forall sf,
            parse_server_args toks (length hosts)
              (Build_state (S (S n + length hosts))
                 (cfg_urls (urls c ++ map (entry 0) hosts) c) lg) = Ret false sf ->
            statement h toks (Build_state n c lg) = Ret (Break tt) sf).
  { intros sf E. unfold statement. exec H.
    rewrite (parse_servers_to_block toks (S n) c lg hosts _ H0 Hne Hh), E.
    reflexivity. }
  remember (S (S n + length hosts))%nat as m eqn:Em.
  remember (length (flat_map server_arg_toks items)) as k eqn:Ek.
  assert (Hfuel : forall t rest', rest = t :: rest' ->
            (S (length (skipn m toks)) - length items
             = S (length (skipn m toks) - length items))%nat /\
            (length items < S (length (skipn m toks)))%nat).
  { intros t rest' ->. rewrite H1, length_app, <- Ek. cbn [length].
    pose proof (length_flat_map_server_args items). lia. }
  split; [|split].
  - intros t rest' -> N1 N2 N3. apply String.eqb_neq in N1, N2, N3.
    destruct (Hfuel t rest' eq_refl) as [Hf1 Hf2].
    eapply config_tokens_fail; [exact Hre | exact Hin | |].
    + apply Estmt. unfold parse_server_args. cbn [bind]. rewrite while_loop_run.
      rewrite (server_args_prefix toks items _ m _ lg 0 t rest' H1 N3 Hi Hf2).
      rewrite Hf1, <- Ek. cbn [while_fuel]. unfold server_args_body at 1.
      exec H2. rewrite N1. cbn. exec H2. rewrite N2. cbn. exec H2.
      f_equal. f_equal. lia.
    + cbn [pos]. replace (n + length hosts + k + 2)%nat with (m + k)%nat by lia.
      eapply skipn_cons_neq. exact H2.
  - intros num e rest' -> He.
    destruct (Hfuel _ _ eq_refl) as [Hf1 Hf2].
    destruct (strtonum num 15 INT_MAX) as [v er] eqn:Ev. cbn [snd] in He. subst er.
    eapply config_tokens_fail; [exact Hre | exact Hin | |].
    + apply Estmt. unfold parse_server_args. cbn [bind]. rewrite while_loop_run.
      rewrite (server_args_prefix toks items _ m _ lg 0 _ _ H1 eq_refl Hi Hf2).
      rewrite Hf1, <- Ek. cbn [while_fuel]. unfold server_args_body at 1.
      exec H2. rewrite Ev. cbn.
      f_equal. f_equal. lia.
    + cbn [pos]. replace (n + length hosts + k + 3)%nat with (S (m + k))%nat by lia.
      assert (H3 : skipn (S (m + k)) toks = num :: rest')
        by (rewrite skipn_S_tl, H2; reflexivity).
      eapply skipn_cons_neq. exact H3.
  - intros t rest' -> Nt. apply String.eqb_neq in Nt.
    assert (H3 : skipn (S (m + k)) toks = t :: rest')
      by (rewrite skipn_S_tl, H2; reflexivity).
    eapply config_tokens_fail; [exact Hre | exact Hin | |].
    + unfold statement. exec H.
      rewrite (parse_servers_to_block toks (S n) c lg hosts _ H0 Hne Hh).
      rewrite <- Em.
      rewrite (parse_server_args_block toks items m _ lg (length hosts)
                 (t :: rest') H1 Hi).
      2:{ cbn [urls cfg_urls]. rewrite length_app, length_map. lia. }
      rewrite <- Ek. rewrite tok_expect_run, H3, Nt. cbn.
      f_equal. f_equal; [lia|].
      destruct (block_waittime items =? 0) eqn:E.
      * apply Z.eqb_eq in E. rewrite E. reflexivity.
      * cbn. rewrite <- (length_map (entry 0) hosts), apply_waittime_last, map_map.
        reflexivity.
    + cbn [pos]. replace (n + length hosts + k + 3)%nat with (S (m + k))%nat by lia.
      eapply skipn_cons_neq. exact H3.
Qed.

Lemma servers_block_rejected_witness :
  config_tokens spec_h
    ["servers"; "a"; "b"; "{"; "waittime"; "30"; ";"; "waittime"; "5"; "}"; ";"]%string
    [] state0 =
  Ret false
    {| pos := 8;
       cfg := {| urls := [entry 0 "a"; entry 0 "b"]; waittime := 60; cdraw := None |};
       log := [bad_server_waittime too_small] |}.
Proof.
  refine (proj1 (proj2 (servers_block_rejected spec_h
            ["servers"; "a"; "b"; "{"; "waittime"; "30"; ";"; "waittime"; "5"; "}"; ";"]%string
            [] state0 state0 ["a"; "b"]%string [("30"%string, true)]
            ["waittime"; "5"; "}"; ";"]%string
            (reach_here _ _ _) eq_refl _ _ _))
            "5"%string too_small ["}"; ";"]%string eq_refl eq_refl).
  - discriminate.
  - repeat constructor.
  - repeat constructor.
Defined.

Section Truncated.

Variable h : slant_h.
Variable toks : list string.


Lemma skipn_nil_length {A} (l : list A) n :
  (n <= length l)%nat -> skipn n l = [] -> n = length l.
Proof.
  intros Hle H. pose proof (length_skipn n l) as Hl. rewrite H in Hl.
  cbn in Hl. lia.
Qed.


End Truncated.





(** ** The empty [host] block *)

Section EmptyHost.

Variable h : slant_h.
Variable toks : list string.

(** The loop of [parse_layout] over items that are each followed by [;]
    and then by a token that is not [}]. *)
Lemma layout_prefix items :
  forall fuel n c lg d t rest,
    forallb (item_valid h) items = true ->
    skipn n toks = pre_toks items ++ t :: rest ->
    (t =? "}")%string = false ->
    cdraw c = Some d ->
    (length items < fuel)%nat ->
    while_fuel fuel (fun _ : unit => in_range toks) (fun _ => layout_body h toks) tt
      (Build_state n c lg) =
    while_fuel (fuel - length items) (fun _ : unit => in_range toks)
      (fun _ => layout_body h toks) tt
      (Build_state (n + length (pre_toks items))
         (cfg_draw (Some (fold_left (item_draw h) items d)) c) lg).
Proof.
  unfold pre_toks.
  induction items as [|it items IH]; intros fuel n c lg d t rest Hv H Ht Hd Hf.
  - cbn. rewrite Nat.sub_0_r, Nat.add_0_r.
    rewrite (cfg_draw_id c d Hd). reflexivity.
  - destruct fuel as [|fuel]; [cbn in Hf; lia|]. cbn [length] in Hf.
    cbn [forallb] in Hv. apply andb_true_iff in Hv as [Hx Hv].
    cbn [flat_map] in H. rewrite <- !app_assoc in H. cbn [app] in H.
    destruct (item_toks_head h it Hx) as (tx & lx & Ex & _).
    assert (Hnext : exists t' l',
              flat_map (fun it => item_toks it ++ [";"%string]) items ++ t :: rest
              = t' :: l' /\ (t' =? "}")%string = false).
    { destruct items as [|it' items']; [cbn; eauto|].
      cbn [forallb] in Hv. apply andb_true_iff in Hv as [Hy _].
      destruct (item_toks_head h it' Hy) as (ty & ly & Ey & Ety).
      cbn [flat_map]. rewrite Ey. cbn. eauto. }
    destruct Hnext as (t' & l' & Hnext & Et').
    assert (Hin : in_range toks (Build_state n c lg) = true).
    { rewrite in_range_run, H, Ex. reflexivity. }
    cbn [while_fuel length Nat.sub fold_left]. rewrite Hin.
    rewrite (layout_body_run h toks it n c lg d ";"%string _ Hx H
               (or_introl eq_refl) Hd).
    pose proof (skipn_add_app _ _ _ _ H) as H1. rewrite Hnext in H1.
    remember (n + length (item_toks it))%nat as m eqn:Em.
    unfold item_end. exec H1. rewrite Et'. cbn.
    assert (H2 : skipn (S m) toks =
                 flat_map (fun it => item_toks it ++ [";"%string]) items ++ t :: rest).
    { rewrite skipn_S_tl, H1, Hnext. reflexivity. }
    rewrite (IH fuel (S m) (cfg_draw (Some (item_draw h d it)) c) lg
               (item_draw h d it) t rest Hv H2 Ht eq_refl ltac:(lia)).
    cbn [flat_map]. rewrite !length_app. cbn [length].
    replace (S m + length (flat_map (fun it => item_toks it ++ [";"%string]) items))%nat
      with (n + (length (item_toks it) + 1
                 + length (flat_map (fun it => item_toks it ++ [";"%string]) items)))%nat
      by lia.
    reflexivity.
Qed.

Lemma length_pre_toks items : (length items <= length (pre_toks items))%nat.
Proof.
  unfold pre_toks. induction items as [|it items IH]; cbn [flat_map length]; [lia|].
  rewrite !length_app. cbn [length]. lia.
Qed.

(** The loop of [parse_layout] on items followed by an empty [host] block:
    it is left with the cursor on the [}] of that block. *)
Lemma layout_loop_empty_host items n c lg rest :
  forallb (item_valid h) items = true ->
  skipn n toks =
    pre_toks items ++ "host"%string :: "{"%string :: "}"%string :: rest ->
  while_loop toks (fun _ : unit => in_range toks) (fun _ => layout_body h toks) tt
    (Build_state n
       (cfg_draw (Some {| box := []; header := 0; errlog := 0 |}) c) lg) =
  Ret (inl tt)
    (Build_state (n + length (pre_toks items) + 2)
       (cfg_draw (Some (layout_draw h items)) c) lg).
Proof.
  intros Hv H. rewrite while_loop_run.
  rewrite (layout_prefix items _ n
             (cfg_draw (Some {| box := []; header := 0; errlog := 0 |}) c)
             lg {| box := []; header := 0; errlog := 0 |}
             "host"%string _ Hv H eq_refl eq_refl).
  2:{ rewrite H, length_app. pose proof (length_pre_toks items). cbn [length]. lia. }
  assert (Hf : (S (length (skipn n toks)) - length items
                = S (length (skipn n toks) - length items))%nat).
  { rewrite H, length_app. pose proof (length_pre_toks items). cbn [length]. lia. }
  rewrite Hf. pose proof (skipn_add_app _ _ _ _ H) as H1.
  replace (n + length (pre_toks items) + 2)%nat
    with (S (S (n + length (pre_toks items)))) by lia.
  remember (n + length (pre_toks items))%nat as m eqn:Em.
  cbn [while_fuel]. rewrite in_range_run, H1.
  unfold layout_body, layout_item. exec H1.
  unfold parse_layout_host. exec H1. unfold item_end. exec H1.
  reflexivity.
Qed.

(** [parse_layout] on such a block, up to the two tokens it expects
    behind the loop. *)
Lemma parse_layout_open items n c lg l :
  forallb (item_valid h) items = true ->
  cdraw c = None ->
  skipn n toks =
    "layout"%string :: "{"%string :: pre_toks items
      ++ "host"%string :: "{"%string :: "}"%string :: l ->
  parse_layout h toks (Build_state (S n) c lg) =
  (b <- tok_expect_adv toks "}";;
   if negb b then ret false else tok_expect_adv toks ";")
    (Build_state (S (S n) + length (pre_toks items) + 2)
       (cfg_draw (Some (layout_draw h items)) c) lg).
Proof.
  intros Hv Hd H.
  assert (H1 : skipn (S (S n)) toks =
               pre_toks items ++ "host"%string :: "{"%string :: "}"%string :: l).
  { rewrite !skipn_S_tl, H. reflexivity. }
  assert (Hhd : exists t l',
            pre_toks items ++ "host"%string :: "{"%string :: "}"%string :: l
            = t :: l' /\ (t =? "}")%string = false).
  { destruct items as [|it items]; [cbn; eauto|].
    cbn [forallb] in Hv. apply andb_true_iff in Hv as [Hx _].
    destruct (item_toks_head h it Hx) as (tx & lx & Ex & Et).
    unfold pre_toks. cbn [flat_map]. rewrite Ex. cbn. eauto. }
  destruct Hhd as (t & l' & Et & Ht).
  match goal with |- _ = ?rhs => remember rhs as R eqn:ER end.
  unfold parse_layout. exec H. rewrite Et. cbn [tl]. rewrite Ht. cbn.
  rewrite Hd. cbn [bind set_draw set_cfg with_cfg cfg pos log].
  rewrite (layout_loop_empty_host items (S (S n)) c lg l Hv H1).
  rewrite ER. reflexivity.
Qed.

(** The statement that an empty [host] block closes. *)
Lemma statement_layout_open items n c lg rest :
  forallb (item_valid h) items = true ->
  cdraw c = None ->
  skipn n toks =
    "layout"%string :: "{"%string :: pre_toks items
      ++ "host"%string :: "{"%string :: "}"%string :: ";"%string :: rest ->
  statement h toks (Build_state n c lg) =
  Ret (Next tt)
    (Build_state (n + length (pre_toks items) + 6)
       (cfg_draw (Some (layout_draw h items)) c) lg).
Proof.
  intros Hv Hd H.
  assert (H1 : skipn (S (S n)) toks =
               pre_toks items
                 ++ "host"%string :: "{"%string :: "}"%string :: ";"%string :: rest).
  { rewrite !skipn_S_tl, H. reflexivity. }
  pose proof (skipn_add_app _ _ _ _ H1) as H2.
  unfold statement. exec H. rewrite (parse_layout_open items n c lg _ Hv Hd H).
  replace (n + length (pre_toks items) + 6)%nat
    with (S (S (S (S (S (S n) + length (pre_toks items)))))) by lia.
  replace (S (S n) + length (pre_toks items) + 2)%nat
    with (S (S (S (S n) + length (pre_toks items)))) by lia.
  remember (S (S n) + length (pre_toks items))%nat as m eqn:Em.
  exec H2. reflexivity.
Qed.

End EmptyHost.

(** X18.  An empty [host { }] block leaves the cursor on its own [}]:
    after any items, each closed by [;], the block closes the layout with
    that brace, so that [layout { ... host { } ;] is a statement that
    succeeds, with the layout the items made and no box of the block,
    while the balanced [layout { ... host { } } ;] fails the parse with
    UnexpectedToken on the second brace. *)
Theorem empty_host_block (h : slant_h) (toks argv : list string) (s0 s : state)
    (items : list litem) (rest : list string) :
  reach h toks s0 s ->
  cdraw (cfg s) = None ->
  forallb (item_valid h) items = true ->
  (remaining toks s =
     "layout"%string :: "{"%string :: pre_toks items
       ++ "host"%string :: "{"%string :: "}"%string :: ";"%string :: rest ->
   statement h toks s =
   Ret (Next tt)
     {| pos := pos s + length (pre_toks items) + 6;
        cfg := cfg_draw (Some (layout_draw h items)) (cfg s);
        log := log s |}) /\
  (remaining toks s =
     "layout"%string :: "{"%string :: pre_toks items
       ++ "host"%string :: "{"%string :: "}"%string :: "}"%string :: rest ->
   config_tokens h toks argv s0 =
   Ret false
     {| pos := pos s + length (pre_toks items) + 5;
        cfg := cfg_draw (Some (layout_draw h items)) (cfg s);
        log := log s ++ [expected_have ";" "}"] |}).
Proof.
  intros Hre Hd Hv.
  destruct s as [n c lg]. unfold remaining. cbn [pos cfg log] in *.
  split.
  - intros H. exact (statement_layout_open h toks items n c lg rest Hv Hd H).
  - intros H.
    assert (H1 : skipn (S (S n)) toks =
                 pre_toks items
                   ++ "host"%string :: "{"%string :: "}"%string :: "}"%string :: rest).
    { rewrite !skipn_S_tl, H. reflexivity. }
    pose proof (skipn_add_app _ _ _ _ H1) as H2.
    replace (n + length (pre_toks items) + 5)%nat
      with (S (S (S (S (S n) + length (pre_toks items))))) by lia.
    remember (S (S n) + length (pre_toks items))%nat as m eqn:Em.
    assert (H3 : skipn (S (S (S m))) toks = "}"%string :: rest)
      by (rewrite !skipn_S_tl, H2; reflexivity).
    eapply config_tokens_fail; [exact Hre | | |].
    + rewrite in_range_run, H. reflexivity.
    + unfold statement. exec H.
      rewrite (parse_layout_open h toks items n c lg _ Hv Hd H).
      rewrite <- Em. replace (m + 2)%nat with (S (S m)) by lia.
      exec H2. reflexivity.
    + cbn [pos]. eapply skipn_cons_neq. exact H3.
Qed.

Lemma empty_host_block_witness :
  statement spec_h ["layout"; "{"; "header"; ";"; "host"; "{"; "}"; ";"]%string
    state0 =
  Ret (Next tt)
    {| pos := 8;
       cfg := {| urls := []; waittime := 60;
                 cdraw := Some {| box := []; header := 1; errlog := 0 |} |};
       log := [] |}.
Proof.
  exact (proj1 (empty_host_block spec_h
                  ["layout"; "{"; "header"; ";"; "host"; "{"; "}"; ";"]%string []
                  state0 state0 [LHeader] [] (reach_here _ _ _) eq_refl eq_refl)
           eq_refl).
Defined.

(** ** Files of statements *)

Section File.

Variable h : slant_h.
Variable toks : list string.






End File.




(** ** What a parse that succeeds has read

    A third reading of the parser, by rules that tell which token a test of
    the cursor has seen: a piece of the parser that returns a success has
    taken the tokens of a piece of the grammar. *)

Section Taken.

Variable toks : list string.








Lemma at_tok_in_range n c lg t :
  at_tok toks n t -> in_range toks (Build_state n c lg) = true.
Proof. intros [r H]. rewrite in_range_run, H. reflexivity. Qed.

Lemma in_range_skipn s :
  in_range toks s = true -> exists t r, skipn (pos s) toks = t :: r.
Proof.
  destruct s as [n c lg]. rewrite in_range_run. cbn [pos].
  destruct (skipn n toks) as [|t r]; [discriminate | eauto].
Qed.


(** *** Rules that tell the token under the cursor *)








End Taken.





Section Inversion.

Variable h : slant_h.
Variable toks : list string.


(** *** [servers] *)









(** *** [layout] *)













(** *** [layout] *)



Lemma item_toks_length it : (1 <= length (item_toks it))%nat.
Proof. destruct it; cbn; lia. Qed.



(** *** The statements of a file *)






End Inversion.


